(* ===== verification/_CoqProject ===== *)
-Q . S2P
Prelude.v
Codec.v
Block.v
BlockBuilder.v
BlockIterator.v
Table.v
TableBuilder.v
StorageIterator.v
Union.v
TwoMergeIterator.v
MergeIterator.v
SsTableIterator.v
ReadPath.v
