(* ===== verification/Prelude.v ===== *)
(** * A verification library for the mini-lsm storage core

    The program (src/mini-lsm-starter/src/) is the on-disk layer and the
    read-path iterators of a log-structured merge key-value store:
    - block.rs: a [Block] is a run of sorted key-value entries and their
      [u16] offsets, with a byte encoding ([encode]/[decode]);
    - block/builder.rs: a [BlockBuilder] packs entries into a block under
      a byte budget ([add] refuses an entry that does not fit);
    - block/iterator.rs: a [BlockIterator] walks one block, with a
      binary-search [seek_to_key];
    - table.rs, table/builder.rs, table/iterator.rs: an SSTable is a
      file of encoded blocks, a block index ([BlockMeta]: offset and first
      key of each block) and a trailing [u32] index offset; its builder
      cuts blocks when a [BlockBuilder] refuses an entry; its iterator
      chains block iterators;
    - iterators/merge_iterator.rs and two_merge_iterator.rs merge sorted
      iterators, the lowest-indexed (resp. the first) source winning ties.
    Data flows builder -> block bytes -> table file -> iterators -> merge.

    ** Files, in dependency order
    - [Prelude] (this file): byte strings as [list byte], [u16]/[u32]
      wrap-around ([wrap16], [wrap32]), the lexicographic order of
      [&[u8]] ([bytes_cmp], a strict order), sorted entry lists, the
      hint databases [lsm]/[lsm_rw] and the tactics the proofs share.
    - [Codec]: the [bytes] crate's big-endian [put_u16]/[get_u16]/
      [put_u32]/[get_u32] with both round trips.
    - [Block] (Module [Block]): the [Block] struct, [encode], [decode] and
      its offsets loop [decode_offsets].
    - [BlockBuilder] (Module [BlockBuilder]): the builder's struct and
      [new]/[add]/[is_empty]/[build]; its abstract view (the entries it
      holds, [repr]) and the states reachable from [new] ([reachable], a
      step relation over [add]).
    - [BlockIterator] (Module [BlockIterator]): the iterator's struct and
      [seek_to_offset]/[seek_to]/[next]/[seek_to_first]/[seek_to_key],
      the caller's scan loop [scan], and the reference [lower_bound].
    - [Table] (Module [Table]): [BlockMeta] and its index encoding
      ([encode_block_meta], [decode_block_meta]), [FileObject] as the
      file's bytes with a positioned [read] that fails past the end,
      [SsTable] with [open], [read_block], [find_block_idx] and
      [read_block_cached]; the block cache's contents are a [gmap] from
      [(table id, block index)] to blocks, passed in and returned.
    - [TableBuilder] (Module [TableBuilder]): [SsTableBuilder] with
      [new]/[add]/[estimated_size]/[build_block]/[build]; its abstract
      view [tb_repr] (finished blocks as entry lists, and the entries of
      the block in progress) and the caller's loop [add_all].
    - [StorageIterator] (Module [StorageIterator]): the trait (its file
      is not among the sources; modelled from the spec) as the class
      [StorageIterator] ([key]/[value]/[is_valid]/[next], [next]
      returning the new state with its [Result]) with a model-only member
      [remaining], the entries still to come; [IterSpec] is the contract
      a client relies on (an invariant under which [is_valid], [key],
      [value] and [next] agree with the view, which is sorted) and
      [IterReliable] says [next] never fails.  [collect] is the caller's
      loop.  [BlockIterator] and a test vector [VecIterator] (with an
      injectable error) are instances.
    - [Union] (Module [Union]): what the merges promise: [lunion], the
      left-biased union of two sorted lists, and [kunion], its fold over
      sources in priority order.
    - [TwoMergeIterator] (Module [TwoMergeIterator]): [create],
      [skip_b], [select_ab] (the [use_a] flag), [next], and the trait
      methods, generic over two [StorageIterator]s; its view is [lunion].
    - [MergeIterator] (Module [MergeIterator]): [HeapWrapper] with its
      [Ord] (smallest key, then smallest index, on top), the
      [BinaryHeap] as a list with [heap_top]/[heap_pop]/[heap_push]
      (the std contract: [peek] is a greatest element), [create], the
      [peek_mut] loop of [next] ([skip_loop]) and [next]; its view is
      [kunion] of the sources ordered by index.
    - [SsTableIterator] (Module [SsTableIterator]): the struct,
      [get_first_blk_iter], [create_and_seek_to_first], [seek_to_first],
      [get_key_blk_iter], [create_and_seek_to_key], [seek_to_key] in a
      small state-and-error monad [M] that threads the block cache, and
      [next] returning the new iterator and cache with its [Result]; the
      iterator with its cache is a [StorageIterator] whose view is the
      rest of the current block and the later blocks.
    - [ReadPath] (Module [ReadPath]): the engine's composition (not
      among the sources; from the spec): [open_all] opens one table
      iterator per SST in order through the shared block cache, and the
      table iterators are merged, then two-merged under the merge of the
      memtables' iterators.  Each table iterator carries its own copy of
      the cache; reads through a cache that agrees with the files return
      what [read_block] returns, so the copies give what a shared cache
      gives.
    The client theorems of the merges are proved against [IterSpec]
    only, so they hold for any source that discharges it: block
    iterators, table iterators, or merges of merges.
    Each Rust method is one definition with the source's name; a method
    that mutates [self] returns the new state; a panic of the source
    (out-of-range slice, [get_u16] on too few bytes, a failed
    [assert!]) is [None], or [Err EPanic] in code that returns [Result],
    where an I/O failure is [Err EIo].  Integer arithmetic is a release
    build's: [u16] and [u32] sums wrap, and a [usize] or [u64]
    subtraction that wraps is followed to its effect, the out-of-range
    slice (a panic) in [Block::decode], the read past the end (an I/O
    error) or the impossible allocation (a panic) in [SsTable::open].

    ** What is proved
    - Format: [Block.decode] inverts [Block.encode] on every block whose
      offsets and count fit in [u16] (C1), [encode] inverts [decode]
      whenever decoding succeeds (C7), and [decode] fails exactly on
      buffers too short for their count or offsets (C8).
    - Builder: [add] is all-or-nothing and appends exactly the accepted
      entry when its 16-bit sums cannot overflow (C2); every reachable
      builder holds representable entries whose data region stays under
      the budget (C3), and its encoded block stays under the budget plus
      two bytes per entry (C12); the built block round-trips.
    - Iterator: [seek_to_key] agrees with a linear lower-bound search on
      sorted blocks (C4); a scan from [seek_to_first] yields the block's
      entries in order (C5); the entries added to a builder come back from
      the iterator over the decoded block (C6).
    - Table: the index written by [encode_block_meta] is read back by
      the steps of [open] and its length assertion never fails (C9);
      [find_block_idx] returns the last block whose first key is [<=]
      the key, or block 0, on sorted first keys (C10); [read_block_cached]
      returns what [read_block] returns and keeps the cache coherent
      (C11).
    - Table builder: [add] appends the entry to the block in progress
      exactly when it fits that block's budget, else finishes that block
      and starts a new one, and panics exactly when the entry does not
      fit an empty block (C15); [build] writes a file
      that [open] reads back as the table [build] returned, whose
      [read_block] returns each block filled (C16); and end to end, the
      entries added to a fresh builder come back, in order, from the
      blocks of the opened table (C17).
    - Merges: over sources that meet [IterSpec] and never fail, the
      two-way merge yields the left-biased union (C18), each [next]
      simulates one step of the union (C19), an error of either source
      is returned at once (C20); the k-way merge yields the union in
      index order (C22), each [next] simulates one step of it (C23), no
      source or only exhausted ones gives an invalid merge (C25), and an
      error of a source is returned at once with the failing source
      dropped (C26); after any failed [next] the heap is sound around
      the current wrapper, so when a heap source failed the merge keeps
      its invariant and a caller may go on with the other sources (C24,
      the partial failure of spec §7; its example uses [FlakyVec], a
      source that fails while keeping its invariant).  [create] and [next] of both merges refine the
      union: the merges are [IterSpec] instances themselves.
      [HeapWrapper]'s [cmp] is the reverse of the (key, index)
      lexicographic order, so the heap's top is the smallest key of the
      lowest index; it is a lawful total order that agrees with its [eq]
      and ties only equal index and key (C37), which is what
      [BinaryHeap] needs of it.
    - Table iterator: on a table made of non-empty sorted blocks, read
      through a cache that agrees with the file, a scan from
      [create_and_seek_to_first] yields every entry (C27), and
      [create_and_seek_to_key] yields the entries from the table-wide
      lower bound of the key, moving to the next block when the key is
      past the one [find_block_idx] names (C28); a table built by
      [SsTableBuilder] from sorted entries scans and seeks back to those
      entries (C29); when reading the next block fails, [next] returns
      the error with the block index moved on and the iterator invalid
      (C31); a table built from no entry has one empty block under the
      empty first key, and its iterator opens invalid (C21); every state reached from the constructors by [next] and the
      seeks keeps the invariant and [next] from a valid one succeeds
      (C34, by rule induction on [ss_reachable]).
    - Termination: the [peek_mut] loop of the k-way merge gives the same
      result for any fuel above its bound, whatever the sources return
      (C30).
    - Read path: over SSTs with distinct ids and a cache that agrees
      with their files, opening the table iterators succeeds and their
      merge yields the newest-wins union of the tables (C32); the full
      read path yields the memtables' union over the tables' union (C33).
    - Liveness: from every reachable table-iterator state, one call of
      [next] per entry left succeeds each time and ends on an invalid,
      still reachable, state, the iterator staying valid before (C35).
      It rests on [StorageIterator.advance_live]: the length of
      [remaining] is a measure that every successful [next] decreases.
    - Findings, each a theorem: the [u16] entry size wraps, so [add]
      accepts a 65532-byte key under any budget (C13); an entry with the
      empty key reads as an exhausted iterator (C14).  The spec's 65535-byte bound on keys is tight for
      the index: it writes a first key's length [as u16], so a 65536-byte
      first key is read back as an empty key (C36).

    ** Fuel
    [decode_offsets] gets [count + 1] units (one per offset read and one
    for the exit test) and [seek_loop] gets [length offsets + 1] (the
    interval [right - left] shrinks at each step); the theorems above
    show both return [Some] on the inputs they cover, so the fuel never
    runs out there.  [scan] is given [length + 1] units.
    [decode_block_meta] gets [length buf + 1] units (each index entry
    takes at least six bytes) and [find_loop] [length metas + 1] (the
    search interval shrinks at each step); [decode_metas_encode] and
    [find_block_idx_spec] show they suffice.
    The merges' loops are given fuel from the abstract view: [skip_b]
    runs at most [length (remaining b) + 1] times and [skip_loop] at most
    [1 + sum over the heap of (1 + length of the source's view)] times;
    [next] removes an entry of a view at each turn of either loop, so
    the reliability lemmas show [Err EFuel] never happens on sources
    that keep their invariant.  The caller's loop [collect] is given
    [length view + 1] units; [advance n] (the caller that calls [next]
    [n] times with [?]) needs no fuel, its recursion is on [n].

    ** Bounds
    The table theorems assume what the file format can hold: block
    offsets and the index offset below [2^32], key lengths below [2^16],
    and for the table builder entries whose 16-bit sums cannot wrap
    ([entry_fits]); C13 shows what happens without the last.

    ** Not modelled
    The memtable, the storage engine, the write-ahead log, the manifest
    and compaction are outside the sources.  [FileObject::open] is
    [unimplemented!()] in the source and is modelled as the panic it is
    ([Table.file_open]).  File I/O is modelled only through
    the positioned-read contract, and the block cache ([moka]) only
    through its contents (its one-producer guarantee under concurrency
    is not).  [SsTableIterator::next] does not skip an empty block;
    the theorems assume non-empty blocks, which is all the builder
    writes except for the table built from no entry.  The trait
    [StorageIterator] and [BinaryHeap] are library code modelled from
    their contracts. *)

From stdpp Require Export base list options decidable sorting.
From Stdlib Require Export ZArith Lia.
From Stdlib Require Strings.Byte.

(** * Prelude: bytes, machine integers, lexicographic order

    Shared vocabulary of the development: byte strings as [list byte],
    the wrap-around of 16- and 32-bit unsigned integers, the lexicographic
    comparison that Rust's [Ord for [u8]] implements, the hint database
    [lsm] and a few tactics. *)

Declare Scope lsm_scope.
Delimit Scope lsm_scope with lsm.
Open Scope lsm_scope.

Abbreviation byte := Byte.byte.
Abbreviation bytes := (list Byte.byte).

#[export] Instance byte_eq_dec : EqDecision byte := Byte.byte_eq_dec.

Create HintDb lsm discriminated.
Create Rewrite HintDb lsm_rw.

(** ** Bytes as unsigned integers *)

Definition byte_to_Z (b : byte) : Z := Z.of_N (Byte.to_N b).

(** The byte holding the low eight bits of [z] (a [u8] cast). *)
Definition byte_of_Z (z : Z) : byte :=
  match Byte.of_N (Z.to_N (z mod 256)) with
  | Some b => b
  | None => Byte.x00
  end.

Lemma byte_to_Z_range b : (0 <= byte_to_Z b < 256)%Z.
Proof.
  unfold byte_to_Z. pose proof (Byte.to_N_bounded b). lia.
Qed.

Lemma byte_to_of_Z z : byte_to_Z (byte_of_Z z) = (z mod 256)%Z.
Proof.
  unfold byte_of_Z, byte_to_Z.
  pose proof (Z.mod_pos_bound z 256 ltac:(lia)) as Hb.
  destruct (Byte.of_N (Z.to_N (z mod 256))) as [b|] eqn:E.
  - apply Byte.to_of_N in E. rewrite E. lia.
  - apply Byte.of_N_None_iff in E. lia.
Qed.

Lemma byte_to_Z_inj a b : byte_to_Z a = byte_to_Z b -> a = b.
Proof.
  unfold byte_to_Z. intros H.
  assert (Byte.to_N a = Byte.to_N b) as E by lia.
  pose proof (Byte.of_to_N a) as Ha. pose proof (Byte.of_to_N b) as Hb.
  rewrite E in Ha. congruence.
Qed.

(** ** Machine integers

    A [u16] or [u32] of the source is a [Z] kept in its range; every
    arithmetic operation that the source performs at that width is
    followed by [wrap16] / [wrap32] (the wrap-around of a release build). *)

Definition wrap16 (z : Z) : Z := (z mod 2 ^ 16)%Z.
Definition wrap32 (z : Z) : Z := (z mod 2 ^ 32)%Z.

Lemma wrap16_range z : (0 <= wrap16 z < 2 ^ 16)%Z.
Proof. unfold wrap16. apply Z.mod_pos_bound. lia. Qed.

Lemma wrap16_small z : (0 <= z < 2 ^ 16)%Z -> wrap16 z = z.
Proof. unfold wrap16. apply Z.mod_small. Qed.

Lemma wrap32_idem z : wrap32 (wrap32 z) = wrap32 z.
Proof. unfold wrap32. apply Zmod_mod. Qed.

Lemma wrap32_small z : (0 <= z < 2 ^ 32)%Z -> wrap32 z = z.
Proof. unfold wrap32. apply Z.mod_small. Qed.

#[export] Hint Resolve wrap16_range byte_to_Z_range : lsm.
#[export] Hint Rewrite byte_to_of_Z : lsm_rw.

(** ** Lexicographic order on byte strings

    [bytes_cmp] is [<[u8] as Ord>::cmp]: bytes compared as unsigned
    numbers, a proper prefix is smaller. *)

Fixpoint bytes_cmp (a b : bytes) : comparison :=
  match a, b with
  | [], [] => Eq
  | [], _ :: _ => Lt
  | _ :: _, [] => Gt
  | x :: a', y :: b' =>
      match Z.compare (byte_to_Z x) (byte_to_Z y) with
      | Eq => bytes_cmp a' b'
      | c => c
      end
  end.

Definition bytes_lt (a b : bytes) : Prop := bytes_cmp a b = Lt.

#[export] Instance bytes_lt_dec : RelDecision bytes_lt :=
  fun a b => decide (bytes_cmp a b = Lt).

Lemma bytes_cmp_eq a b : bytes_cmp a b = Eq <-> a = b.
Proof.
  revert b; induction a as [|x a IH]; intros [|y b]; simpl;
    try (split; congruence).
  destruct (Z.compare_spec (byte_to_Z x) (byte_to_Z y)) as [E|E|E].
  - rewrite IH. split; [intros ->; f_equal; by apply byte_to_Z_inj|].
    intros; simplify_eq. done.
  - split; [done|]. intros; simplify_eq. lia.
  - split; [done|]. intros; simplify_eq. lia.
Qed.

Lemma bytes_cmp_refl a : bytes_cmp a a = Eq.
Proof. by apply bytes_cmp_eq. Qed.

Lemma bytes_cmp_antisym a b : bytes_cmp b a = CompOpp (bytes_cmp a b).
Proof.
  revert b; induction a as [|x a IH]; intros [|y b]; simpl; try done.
  rewrite (Z.compare_antisym (byte_to_Z x) (byte_to_Z y)).
  destruct (Z.compare (byte_to_Z x) (byte_to_Z y)); simpl; auto.
Qed.

Lemma bytes_cmp_lt_trans a b c :
  bytes_cmp a b = Lt -> bytes_cmp b c = Lt -> bytes_cmp a c = Lt.
Proof.
  revert b c; induction a as [|x a IH]; intros [|y b] [|z c]; simpl; try done.
  destruct (Z.compare_spec (byte_to_Z x) (byte_to_Z y)) as [E1|E1|E1];
  destruct (Z.compare_spec (byte_to_Z y) (byte_to_Z z)) as [E2|E2|E2];
    intros H1 H2; try done;
    destruct (Z.compare_spec (byte_to_Z x) (byte_to_Z z)); try lia; eauto.
Qed.

#[export] Instance bytes_lt_strict : StrictOrder bytes_lt.
Proof.
  split.
  - intros a H. unfold bytes_lt in H. by rewrite bytes_cmp_refl in H.
  - intros a b c. apply bytes_cmp_lt_trans.
Qed.

Lemma bytes_cmp_gt_lt a b : bytes_cmp a b = Gt <-> bytes_lt b a.
Proof.
  unfold bytes_lt. rewrite (bytes_cmp_antisym b a).
  destruct (bytes_cmp b a); simpl; split; congruence.
Qed.

(** Non-strict versions used by the lower-bound search. *)
Lemma bytes_cmp_lt_le_trans a b c :
  bytes_cmp a b = Lt -> bytes_cmp b c <> Gt -> bytes_cmp a c = Lt.
Proof.
  intros H1 H2. destruct (bytes_cmp b c) eqn:E; try done.
  - apply bytes_cmp_eq in E. by subst.
  - by eapply bytes_cmp_lt_trans.
Qed.

Lemma bytes_cmp_le_lt_trans a b c :
  bytes_cmp a b <> Gt -> bytes_cmp b c = Lt -> bytes_cmp a c = Lt.
Proof.
  intros H1 H2. destruct (bytes_cmp a b) eqn:E; try done.
  - apply bytes_cmp_eq in E. by subst.
  - by eapply bytes_cmp_lt_trans.
Qed.

#[export] Hint Resolve bytes_cmp_refl bytes_cmp_lt_trans : lsm.

(** ** Key-value entries *)

Abbreviation entry := (bytes * bytes)%type.

(** Keys strictly ascending, the order the builders and iterators need. *)
Definition key_lt (e1 e2 : entry) : Prop := bytes_lt e1.1 e2.1.

#[export] Instance key_lt_trans : Transitive key_lt.
Proof. intros [a ?] [b ?] [c ?]. unfold key_lt; simpl. apply bytes_cmp_lt_trans. Qed.

Definition keys_sorted (es : list entry) : Prop := StronglySorted key_lt es.

#[export] Instance keys_sorted_dec es : Decision (keys_sorted es).
Proof.
  apply StronglySorted_dec. intros [a ?] [b ?]. unfold key_lt. apply _.
Defined.

(** A strongly sorted list is ordered at any two positions. *)
Lemma ssorted_lookup {A} (R : A -> A -> Prop) (l : list A) i j x y :
  StronglySorted R l -> l !! i = Some x -> l !! j = Some y -> i < j -> R x y.
Proof.
  intros Hs. revert i j.
  induction Hs as [|z l Hs IH Hf]; intros i j Hi Hj Hij; [done|].
  destruct i as [|i], j as [|j]; simpl in *; try lia.
  - simplify_eq. rewrite Forall_lookup in Hf. eauto.
  - eapply IH; eauto; lia.
Qed.

Lemma keys_sorted_lookup (es : list entry) i j e1 e2 :
  keys_sorted es -> es !! i = Some e1 -> es !! j = Some e2 -> i < j ->
  key_lt e1 e2.
Proof. apply ssorted_lookup. Qed.

(** [lia] after dropping the quantified hypotheses (induction
    hypotheses), which it cannot use and which can make it fail. *)
Ltac qlia :=
  repeat match goal with H : forall _, _ |- _ => clear H end; lia.

(** Close a decidable proposition about concrete data by evaluation. *)
Ltac decide_by_eval := apply (bool_decide_unpack _); vm_compute; exact I.

(** ** Lists *)

Lemma take_add_drop {A} (l : list A) n m :
  take (n + m) l = take n l ++ take m (drop n l).
Proof.
  rewrite <- (take_drop n l) at 1.
  destruct (decide (n <= length l)).
  - rewrite take_app_add' by (rewrite length_take; lia). done.
  - rewrite drop_ge by lia. rewrite !take_ge by (rewrite ?length_app, ?length_take; simpl; lia).
    by rewrite app_nil_r.
Qed.

(** ** The first position satisfying a predicate

    The reference for the binary searches: the index of the first
    element satisfying [P], or the length when none does. *)

Definition first_index {A} (P : A -> Prop) `{!forall x, Decision (P x)} (l : list A) : nat :=
  match list_find P l with Some (i, _) => i | None => length l end.

Section first_index.
Context {A : Type} (P : A -> Prop) `{!forall x, Decision (P x)}.

Lemma first_index_before (l : list A) j x :
  j < first_index P l -> l !! j = Some x -> ~ P x.
Proof.
  unfold first_index. destruct (list_find P l) as [[i y]|] eqn:E.
  - apply list_find_Some in E as (_ & _ & Hb). eauto.
  - apply list_find_None in E. rewrite Forall_lookup in E. eauto.
Qed.

Lemma first_index_at (l : list A) x :
  l !! first_index P l = Some x -> P x.
Proof.
  unfold first_index. destruct (list_find P l) as [[i y]|] eqn:E.
  - apply list_find_Some in E as (Hy & Hp & _). congruence.
  - by rewrite lookup_ge_None_2.
Qed.

Lemma first_index_le_length (l : list A) : first_index P l <= length l.
Proof.
  unfold first_index. destruct (list_find P l) as [[i y]|] eqn:E; [|done].
  apply list_find_Some in E as (Hy & _). apply lookup_lt_Some in Hy. lia.
Qed.

Lemma first_index_le (l : list A) m x :
  l !! m = Some x -> P x -> first_index P l <= m.
Proof.
  intros Hm Hp. destruct (decide (first_index P l <= m)) as [|Hlt]; [done|].
  exfalso. apply (first_index_before l m x); [lia|done|done].
Qed.

(** When [P] holds upward along [l], every element before the first
    position fails [P] and every element not satisfying it is before. *)
Lemma first_index_gt (l : list A) m x :
  (forall i j xi xj, i < j -> l !! i = Some xi -> l !! j = Some xj -> P xi -> P xj) ->
  l !! m = Some x -> ~ P x -> m < first_index P l.
Proof.
  intros Hup Hm Hn. destruct (decide (m < first_index P l)) as [|Hge]; [done|].
  exfalso. pose proof (lookup_lt_Some _ _ _ Hm).
  destruct (lookup_lt_is_Some_2 l (first_index P l)) as [y Hy]; [lia|].
  pose proof (first_index_at l y Hy) as Hpy.
  destruct (decide (first_index P l = m)) as [Heq|Hne]; [rewrite Heq in Hy; congruence|].
  apply Hn, (Hup (first_index P l) m y x); [lia|done..].
Qed.
End first_index.

(** ** Options: the panics of the source

    A Rust panic (out-of-range slice, arithmetic underflow, a failed
    [unwrap]) is [None]; stdpp's [x ← o; k] sequences them. *)

(** ** Results: the [anyhow::Result] of the source

    [Err EIo] is a failed file operation; [Err EPanic] stands for a panic
    inside a fallible operation (the process would abort, and nothing is
    proved past it); [Err EFuel] is a loop of the model that ran out of
    its bound, which the theorems show does not happen on the inputs
    they cover. *)

Inductive error := EIo | EPanic | EFuel.

#[export] Instance error_eq_dec : EqDecision error.
Proof. solve_decision. Defined.

Inductive res (A : Type) : Type :=
  | Ok (a : A)
  | Err (e : error).
Arguments Ok {A} a.
Arguments Err {A} e.

#[export] Instance res_eq_dec {A} `{EqDecision A} : EqDecision (res A).
Proof. solve_decision. Defined.

#[export] Instance res_ret : MRet res := fun A a => Ok a.
#[export] Instance res_bind : MBind res := fun A B f r =>
  match r with Ok a => f a | Err e => Err e end.

(** A panic of an infallible helper, inside a fallible operation. *)
Definition of_panic {A} (o : option A) : res A :=
  match o with Some a => Ok a | None => Err EPanic end.

Lemma res_bind_Ok {A B} (a : A) (f : A -> res B) : (Ok a ≫= f) = f a.
Proof. done. Qed.

Lemma bind_Some {A B} (x : A) (f : A -> option B) : (Some x ≫= f) = f x.
Proof. done. Qed.

Ltac inv_bind :=
  repeat match goal with
  | H : (_ ← ?o; _) = Some _ |- _ =>
      let E := fresh "E" in destruct o eqn:E; simpl in H; [|discriminate]
  | H : Some _ = Some _ |- _ => injection H as H
  end.
