(* ===== verification/Codec.v ===== *)
(** * Codec: the big-endian integer primitives of the [bytes] crate

    [BufMut::put_u16]/[put_u32] and [Buf::get_u16]/[get_u32], which the
    block and table formats use for every length, offset and count.  A
    [get] on fewer bytes than it needs panics in the crate; here it is
    [None].  The round trip [get (put n ++ rest) = Some (n mod 2^w, rest)]
    is proved once for any width, in the manner of a little-endian split
    and combine, and instantiated at 16 and 32 bits. *)

From S2P Require Import Prelude.

Local Open Scope Z_scope.

(** ** Big-endian split and combine *)

(** The [k] low bytes of [n], most significant first. *)
Fixpoint be_split (k : nat) (n : Z) : bytes :=
  match k with
  | O => []
  | S k' => be_split k' (Z.shiftr n 8) ++ [byte_of_Z n]
  end.

(** The number a byte string spells, most significant byte first. *)
Definition be_combine (bs : bytes) : Z :=
  fold_left (fun acc b => acc * 256 + byte_to_Z b) bs 0.

Lemma length_be_split k n : length (be_split k n) = k.
Proof.
  revert n; induction k as [|k IH]; intros n; simpl; [done|].
  rewrite length_app, IH. simpl. lia.
Qed.

Lemma be_combine_snoc bs b :
  be_combine (bs ++ [b]) = be_combine bs * 256 + byte_to_Z b.
Proof. unfold be_combine. by rewrite fold_left_app. Qed.

Lemma be_combine_split k n :
  be_combine (be_split k n) = n mod 2 ^ (8 * Z.of_nat k).
Proof.
  revert n; induction k as [|k IH]; intros n; simpl.
  - rewrite Z.mod_1_r. done.
  - rewrite be_combine_snoc, IH, byte_to_of_Z.
    rewrite Z.shiftr_div_pow2 by lia.
    replace (8 * Z.of_nat (S k)) with (8 + 8 * Z.of_nat k) by lia.
    rewrite Z.pow_add_r by lia.
    rewrite (Z.rem_mul_r n (2 ^ 8) (2 ^ (8 * Z.of_nat k))) by lia.
    change (2 ^ 8) with 256. lia.
Qed.

Lemma be_combine_range bs : 0 <= be_combine bs < 2 ^ (8 * Z.of_nat (length bs)).
Proof.
  induction bs as [|b bs IH] using rev_ind; [cbn; lia|].
  rewrite be_combine_snoc, length_app. simpl.
  pose proof (byte_to_Z_range b).
  replace (8 * Z.of_nat (length bs + 1)) with (8 * Z.of_nat (length bs) + 8) by lia.
  rewrite Z.pow_add_r by lia. change (2 ^ 8) with 256. lia.
Qed.

(** ** [get] and [put] at a width of [k] bytes *)

Definition get_be (k : nat) (bs : bytes) : option (Z * bytes) :=
  if decide (length bs < k)%nat then None
  else Some (be_combine (take k bs), drop k bs).

Lemma get_be_put k n rest :
  get_be k (be_split k n ++ rest) = Some (n mod 2 ^ (8 * Z.of_nat k), rest).
Proof.
  unfold get_be. rewrite length_app, length_be_split.
  rewrite decide_False by lia.
  rewrite take_app_length' by (symmetry; apply length_be_split).
  rewrite drop_app_length' by (symmetry; apply length_be_split).
  by rewrite be_combine_split.
Qed.

Lemma get_be_Some k bs v rest :
  get_be k bs = Some (v, rest) -> bs = take k bs ++ rest /\ length (take k bs) = k.
Proof.
  unfold get_be. case_decide; [done|]. intros; simplify_eq.
  rewrite take_drop, length_take. split; [done|lia].
Qed.

(** ** The instances the formats use *)

Definition put_u16 (n : Z) : bytes := be_split 2 n.
Definition put_u32 (n : Z) : bytes := be_split 4 n.
Definition get_u16 (bs : bytes) : option (Z * bytes) := get_be 2 bs.
Definition get_u32 (bs : bytes) : option (Z * bytes) := get_be 4 bs.

Arguments put_u16 : simpl never.
Arguments put_u32 : simpl never.
Arguments get_u16 : simpl never.
Arguments get_u32 : simpl never.

Lemma length_put_u16 n : length (put_u16 n) = 2%nat.
Proof. apply length_be_split. Qed.

Lemma length_put_u32 n : length (put_u32 n) = 4%nat.
Proof. apply length_be_split. Qed.

Lemma get_put_u16 n rest : get_u16 (put_u16 n ++ rest) = Some (wrap16 n, rest).
Proof. unfold get_u16, put_u16. by rewrite get_be_put. Qed.

Lemma get_put_u32 n rest : get_u32 (put_u32 n ++ rest) = Some (wrap32 n, rest).
Proof. unfold get_u32, put_u32. by rewrite get_be_put. Qed.

Lemma get_put_u16_exact n : get_u16 (put_u16 n) = Some (wrap16 n, []).
Proof. rewrite <- (app_nil_r (put_u16 n)). apply get_put_u16. Qed.

Lemma get_put_u32_exact n : get_u32 (put_u32 n) = Some (wrap32 n, []).
Proof. rewrite <- (app_nil_r (put_u32 n)). apply get_put_u32. Qed.

Lemma get_put_u16_small n rest :
  0 <= n < 2 ^ 16 -> get_u16 (put_u16 n ++ rest) = Some (n, rest).
Proof. intros. rewrite get_put_u16, wrap16_small; done. Qed.

Lemma get_put_u32_small n rest :
  0 <= n < 2 ^ 32 -> get_u32 (put_u32 n ++ rest) = Some (n, rest).
Proof. intros. rewrite get_put_u32, wrap32_small; done. Qed.

Lemma be_split_combine bs : be_split (length bs) (be_combine bs) = bs.
Proof.
  induction bs as [|b bs IH] using rev_ind; [done|].
  rewrite length_app, Nat.add_comm. simpl.
  rewrite be_combine_snoc. pose proof (byte_to_Z_range b).
  rewrite Z.shiftr_div_pow2 by lia. change (2 ^ 8) with 256.
  rewrite Z.div_add_l, (Z.div_small (byte_to_Z b)), Z.add_0_r, IH by lia.
  f_equal. f_equal. apply byte_to_Z_inj. rewrite byte_to_of_Z.
  rewrite Z.add_comm, Z.mod_add, Z.mod_small by lia. done.
Qed.

(** Reading then writing back gives the bytes read: the other round trip. *)
Lemma put_get_u16 bs v rest : get_u16 bs = Some (v, rest) -> put_u16 v ++ rest = bs.
Proof.
  unfold get_u16, put_u16. intros H. pose proof (get_be_Some _ _ _ _ H) as [E L].
  unfold get_be in H. case_decide; [done|]. simplify_eq.
  rewrite <- L at 1. rewrite be_split_combine. by rewrite take_drop.
Qed.

Lemma get_u16_range bs v rest : get_u16 bs = Some (v, rest) -> 0 <= v < 2 ^ 16.
Proof.
  unfold get_u16, get_be. case_decide; [done|]. intros; simplify_eq.
  pose proof (be_combine_range (take 2 bs)). rewrite length_take in H0.
  replace (Init.Nat.min 2 (length bs)) with 2%nat in H0 by lia. done.
Qed.

#[export] Hint Rewrite get_put_u16 get_put_u32 length_put_u16 length_put_u32 : lsm_rw.
