(* ===== verification/Block.v ===== *)
(** * Block: the on-disk block format (src/mini-lsm-starter/src/block.rs)

    [Block] holds the concatenated entries [data] and the [u16] offset of
    each entry.  [encode] writes [data], the offsets and the entry count;
    [decode] reads the count from the last two bytes and slices the rest,
    with the [while] loop over the offsets region as [decode_offsets]
    under explicit fuel.  Slicing out of range and [usize] underflow
    panic in the source and are [None] here.

    Theorems: [decode] inverts [encode] on every block whose offsets and
    count fit in a [u16] (C1), [encode] inverts [decode] whenever decoding
    succeeds, and [decode] never panics or runs out of fuel on a buffer
    whose count field fits in it. *)

From S2P Require Import Prelude Codec.

Module Block.

Record Block := mkBlock {
  data : bytes;
  offsets : list Z;
}.

(** [Block::encode]: data, then each offset, then the count [as u16]. *)
Definition encode (b : Block) : bytes :=
  data b ++ mjoin (put_u16 <$> offsets b)
         ++ put_u16 (wrap16 (Z.of_nat (length (offsets b)))).

(** The [while offsets_start < num_of_elements_start] loop of
    [Block::decode]: one [u16] read at [pos] per iteration. *)
Fixpoint decode_offsets (fuel : nat) (buf : bytes) (pos stop : nat) : option (list Z) :=
  match fuel with
  | O => None
  | S fuel' =>
      if decide (pos < stop) then
        '(o, _) ← get_u16 (take 2 (drop pos buf));
        rest ← decode_offsets fuel' buf (pos + 2) stop;
        Some (o :: rest)
      else Some []
  end.

(** [Block::decode].  The loop runs [num_of_elements] times, so
    [num_of_elements + 1] units of fuel are enough (theorem
    [decode_total]). *)
Definition decode (buf : bytes) : option Block :=
  let n := length buf in
  if decide (n < 2) then None else
  let num_start := n - 2 in
  '(num, _) ← get_u16 (drop num_start buf);
  let need := (Z.to_nat num + 1) * 2 in
  if decide (n < need) then None else
  let offsets_start := n - need in
  offs ← decode_offsets (S (Z.to_nat num)) buf offsets_start num_start;
  Some (mkBlock (take offsets_start buf) offs).

(** A block the format can represent: offsets and count are [u16]s. *)
Definition block_wf (b : Block) : Prop :=
  Forall (fun o => 0 <= o < 2 ^ 16)%Z (offsets b) /\
  (Z.of_nat (length (offsets b)) < 2 ^ 16)%Z.

#[export] Instance block_wf_dec b : Decision (block_wf b).
Proof. unfold block_wf. apply _. Defined.

(** ** Lemmas on the encoding and the offsets loop *)

Lemma length_put_u16s (os : list Z) : length (mjoin (put_u16 <$> os)) = 2 * length os.
Proof.
  rewrite length_join, <- list_fmap_compose, (sum_list_fmap_same 2); [lia|].
  apply Forall_forall. intros. apply length_put_u16.
Qed.

Lemma encode_assoc b :
  encode b = (data b ++ mjoin (put_u16 <$> offsets b))
               ++ put_u16 (wrap16 (Z.of_nat (length (offsets b)))).
Proof. unfold encode. by rewrite app_assoc. Qed.

Lemma decode_offsets_app fuel pre os post :
  length os < fuel ->
  decode_offsets fuel (pre ++ mjoin (put_u16 <$> os) ++ post)
    (length pre) (length pre + 2 * length os) = Some (wrap16 <$> os).
Proof.
  revert fuel pre. induction os as [|o os IH]; intros [|fuel] pre Hf; simpl in Hf; try lia.
  - cbn [decode_offsets]. rewrite decide_False by (simpl; lia). done.
  - cbn [decode_offsets length]. rewrite decide_True by lia.
    change (mjoin (put_u16 <$> o :: os)) with (put_u16 o ++ mjoin (put_u16 <$> os)).
    rewrite <- app_assoc, drop_app_length, take_app_length' by (rewrite length_put_u16; lia).
    rewrite get_put_u16_exact, bind_Some. cbv beta iota.
    specialize (IH fuel (pre ++ put_u16 o) ltac:(lia)).
    rewrite <- !app_assoc, length_app, length_put_u16 in IH.
    replace (length pre + 2 * S (length os)) with (length pre + 2 + 2 * length os) by lia.
    by rewrite IH.
Qed.

(** The loop reads [(stop - pos)/2] values and stops: with one unit of
    fuel per value and one for the exit test, it never runs out, and it
    never reads past the buffer when [stop + 2 <= length buf]. *)
Lemma decode_offsets_total fuel buf pos stop :
  stop + 2 <= length buf -> stop - pos <= 2 * (fuel - 1) -> 0 < fuel ->
  exists os, decode_offsets fuel buf pos stop = Some os /\ length os = (stop - pos + 1) / 2.
Proof.
  revert pos. induction fuel as [|fuel IH]; intros pos Hb Hd Hf; [lia|].
  cbn [decode_offsets]. case_decide as Hlt.
  - destruct (IH (pos + 2)) as [os [Hos Hl]]; [qlia..|]. clear IH.
    unfold get_u16, get_be. rewrite length_take, length_drop.
    rewrite decide_False by (clear - Hb Hlt; lia). rewrite bind_Some. cbv beta iota. rewrite Hos.
    eexists; split; [done|]. cbn [length]. rewrite Hl.
    destruct (decide (pos + 2 <= stop)).
    + replace (stop - pos + 1) with (stop - (pos + 2) + 1 + 1 * 2) by lia.
      rewrite Nat.div_add by lia. lia.
    + replace (stop - pos + 1) with 2 by lia. replace (stop - (pos + 2) + 1) with 1 by lia.
      done.
  - exists []. split; [done|]. cbn [length]. symmetry. apply Nat.div_small; lia.
Qed.

Lemma length_encode b :
  length (encode b) = length (data b) + 2 * length (offsets b) + 2.
Proof. rewrite encode_assoc, !length_app, length_put_u16s, length_put_u16. lia. Qed.

(** Whatever the loop reads is the [u16] encoding of the region it
    walks over. *)
Lemma decode_offsets_inv fuel buf pos k os :
  pos + 2 * k <= length buf ->
  decode_offsets fuel buf pos (pos + 2 * k) = Some os ->
  mjoin (put_u16 <$> os) = take (2 * k) (drop pos buf) /\ length os = k.
Proof.
  revert pos k os. induction fuel as [|fuel IH]; intros pos k os Hb H; [done|].
  cbn [decode_offsets] in H. case_decide as Hlt.
  - destruct k as [|k]; [lia|].
    destruct (get_u16 (take 2 (drop pos buf))) as [[o r]|] eqn:E; [|done].
    rewrite bind_Some in H. cbv beta iota in H.
    destruct (decode_offsets fuel buf (pos + 2) (pos + 2 * S k)) as [os'|] eqn:E'; [|done].
    rewrite bind_Some in H. simplify_eq.
    replace (pos + 2 * S k) with (pos + 2 + 2 * k) in E' by lia.
    destruct (IH (pos + 2) k os') as [Hj Hl]; [lia|done|].
    pose proof (put_get_u16 _ _ _ E) as Ho.
    pose proof (get_be_Some _ _ _ _ E) as [_ Hlen].
    rewrite length_take, length_take, length_drop in Hlen.
    assert (r = []) as ->.
    { apply get_be_Some in E as [E1 _]. rewrite take_take in E1.
      replace (2 `min` 2) with 2 in E1 by done.
      apply (f_equal length) in E1. rewrite length_app in E1.
      destruct r; [done|simpl in E1; lia]. }
    rewrite app_nil_r in Ho. split; [|simpl; lia].
    change (mjoin (put_u16 <$> o :: os')) with (put_u16 o ++ mjoin (put_u16 <$> os')).
    rewrite Hj, Ho. replace (2 * S k) with (2 + 2 * k) by lia.
    by rewrite take_add_drop, drop_drop.
  - assert (k = 0) as -> by lia. simplify_eq. done.
Qed.

Lemma fmap_wrap16_id (os : list Z) :
  Forall (fun o => 0 <= o < 2 ^ 16)%Z os -> wrap16 <$> os = os.
Proof.
  induction 1; simpl; [done|]. rewrite wrap16_small by done. by f_equal.
Qed.

(** ** The format round trips *)

Lemma decode_encode_mk (d : bytes) (offs : list Z) :
  block_wf (mkBlock d offs) -> decode (encode (mkBlock d offs)) = Some (mkBlock d offs).
Proof.
  intros [Hoffs Hlen]. unfold block_wf in *; simpl in *.
  set (m := length offs) in *.
  unfold decode. rewrite length_encode. simpl data; simpl offsets. fold m.
  rewrite decide_False by lia.
  replace (length d + 2 * m + 2 - 2) with (length (d ++ mjoin (put_u16 <$> offs)))
    by (rewrite length_app, length_put_u16s; lia).
  rewrite encode_assoc. simpl data; simpl offsets.
  rewrite drop_app_length, get_put_u16_exact, bind_Some. cbv beta iota.
  fold m. rewrite !(wrap16_small (Z.of_nat m)), Nat2Z.id by lia.
  rewrite length_app, length_put_u16s, decide_False by lia. fold m.
  replace (length d + 2 * m + 2 - (m + 1) * 2) with (length d) by lia.
  rewrite <- app_assoc, decode_offsets_app by lia.
  rewrite fmap_wrap16_id by done. rewrite bind_Some, take_app_length. done.
Qed.

(** C1: decoding an encoded block gives the block back, for every block
    whose offsets and entry count fit the 2-byte fields. *)
Theorem decode_encode (b : Block) :
  block_wf b -> decode (encode b) = Some b.
Proof. destruct b. apply decode_encode_mk. Qed.

Lemma decode_encode_witness :
  block_wf (mkBlock [Byte.x00; Byte.x01; Byte.x61; Byte.x00; Byte.x00] [0%Z]) /\
  decode (encode (mkBlock [Byte.x00; Byte.x01; Byte.x61; Byte.x00; Byte.x00] [0%Z])) =
  Some (mkBlock [Byte.x00; Byte.x01; Byte.x61; Byte.x00; Byte.x00] [0%Z]).
Proof.
  assert (H : block_wf (mkBlock [Byte.x00; Byte.x01; Byte.x61; Byte.x00; Byte.x00] [0%Z]))
    by decide_by_eval.
  split; [exact H|exact (decode_encode _ H)].
Defined.

(** C7: encoding a decoded buffer gives the buffer back: [decode] loses
    nothing of what it reads. *)
Theorem encode_decode (buf : bytes) (b : Block) :
  decode buf = Some b -> encode b = buf.
Proof.
  unfold decode. case_decide as Hn; [done|].
  destruct (get_u16 (drop (length buf - 2) buf)) as [[num r]|] eqn:E; [|done].
  rewrite bind_Some. cbv beta iota. case_decide as Hneed; [done|].
  set (m := Z.to_nat num).
  destruct (decode_offsets (S m) buf (length buf - (m + 1) * 2) (length buf - 2))
    as [offs|] eqn:Eo; [|done].
  rewrite bind_Some. intros; simplify_eq.
  replace (length buf - 2) with (length buf - (m + 1) * 2 + 2 * m) in Eo by lia.
  apply decode_offsets_inv in Eo as [Hj Hl]; [|lia].
  pose proof (get_u16_range _ _ _ E) as Hr.
  apply put_get_u16 in E as Hp.
  assert (r = []) as ->.
  { apply (f_equal length) in Hp. rewrite length_app, length_put_u16, length_drop in Hp.
    destruct r; [done|simpl in Hp; lia]. }
  unfold encode; simpl. rewrite Hj, Hl. fold m.
  replace (wrap16 (Z.of_nat m)) with num by (rewrite wrap16_small; lia).
  rewrite app_nil_r in Hp. rewrite Hp.
  replace (length buf - 2) with ((length buf - (m + 1) * 2) + 2 * m) by lia.
  rewrite <- drop_drop, take_drop. by rewrite take_drop.
Qed.

Lemma encode_decode_witness :
  decode [Byte.x00; Byte.x01; Byte.x61; Byte.x00; Byte.x00; Byte.x00; Byte.x00; Byte.x00; Byte.x01] =
    Some (mkBlock [Byte.x00; Byte.x01; Byte.x61; Byte.x00; Byte.x00] [0%Z]) /\
  encode (mkBlock [Byte.x00; Byte.x01; Byte.x61; Byte.x00; Byte.x00] [0%Z]) =
    [Byte.x00; Byte.x01; Byte.x61; Byte.x00; Byte.x00; Byte.x00; Byte.x00; Byte.x00; Byte.x01].
Proof.
  assert (H : decode [Byte.x00; Byte.x01; Byte.x61; Byte.x00; Byte.x00; Byte.x00; Byte.x00;
                      Byte.x00; Byte.x01] =
              Some (mkBlock [Byte.x00; Byte.x01; Byte.x61; Byte.x00; Byte.x00] [0%Z]))
    by (vm_compute; reflexivity).
  split; [exact H|exact (encode_decode _ _ H)].
Defined.

(** C8: [decode] panics exactly when the buffer has no room for the count,
    or the count asks for more offsets than the buffer holds; otherwise
    it returns a block (and its loop never runs out of fuel). *)
Theorem decode_total (buf : bytes) :
  is_Some (decode buf) <->
  2 <= length buf /\
  (Z.to_nat (be_combine (drop (length buf - 2) buf)) + 1) * 2 <= length buf.
Proof.
  unfold decode. case_decide as Hn.
  - split; [by intros []|lia].
  - unfold get_u16, get_be at 1. rewrite length_drop, decide_False by lia.
    rewrite bind_Some. cbv beta iota.
    rewrite take_ge by (rewrite length_drop; lia).
    set (m := Z.to_nat (be_combine (drop (length buf - 2) buf))).
    case_decide as Hneed; [split; [by intros []|lia]|].
    destruct (decode_offsets_total (S m) buf (length buf - (m + 1) * 2) (length buf - 2))
      as [os [-> _]]; [lia..|].
    split; [lia|by eexists].
Qed.

End Block.
