(* ===== verification/BlockBuilder.v ===== *)
(** * BlockBuilder: packing entries into a block
      (src/mini-lsm-starter/src/block/builder.rs)

    The builder's state is the Rust struct: the byte budget [block_size]
    ([usize], a [nat]), the growing [data] and [offsets], the entry
    count and the [u16] cursor [next_offset].  [add] is the source's
    [add] with its [u16] arithmetic written out: the key and value
    lengths are cast [as u16], the entry size and the budget test are
    computed at 16 bits and wrap.  An entry is encoded as
    [key_len (2B) ‖ key ‖ value_len (2B) ‖ value].

    The abstract view of a builder is the list of entries it holds
    ([repr]); [of_entries] is the block those entries make.  Theorems:
    [add] is all-or-nothing and appends exactly the entry it accepts
    when the 16-bit sums do not overflow (C2); the data region then
    stays within the budget; the built block round-trips through the
    format.  Counterexamples show that the budget test ignores the
    offsets and the trailer, and that an entry whose size overflows
    16 bits is accepted. *)

From S2P Require Import Prelude Codec Block.

Module BlockBuilder.

Record BlockBuilder := mkBuilder {
  block_size : nat;
  data : bytes;
  offsets : list Z;
  num_of_elements : nat;
  next_offset : Z;
}.

(** [BlockBuilder::new] *)
Definition new (block_size : nat) : BlockBuilder :=
  mkBuilder block_size [] [] 0 0.

(** [BlockBuilder::add]: returns the new state and the [bool] result. *)
Definition add (bb : BlockBuilder) (key value : bytes) : BlockBuilder * bool :=
  let key_len := wrap16 (Z.of_nat (length key)) in
  let value_len := wrap16 (Z.of_nat (length value)) in
  let entry_size := wrap16 (2 + key_len + 2 + value_len) in
  if decide (Z.of_nat (block_size bb) <= wrap16 (next_offset bb + entry_size + 2))%Z
  then (bb, false)
  else (mkBuilder (block_size bb)
          (data bb ++ put_u16 key_len ++ key ++ put_u16 value_len ++ value)
          (offsets bb ++ [next_offset bb])
          (num_of_elements bb + 1)
          (wrap16 (next_offset bb + entry_size)),
        true).

(** [BlockBuilder::is_empty] *)
Definition is_empty (bb : BlockBuilder) : bool := Nat.eqb (num_of_elements bb) 0.

(** [BlockBuilder::build] *)
Definition build (bb : BlockBuilder) : Block.Block :=
  Block.mkBlock (data bb) (offsets bb).

(** ** The entries a builder holds *)

(** The bytes [add] appends for one entry. *)
Definition encode_entry (e : entry) : bytes :=
  put_u16 (wrap16 (Z.of_nat (length e.1))) ++ e.1 ++
  put_u16 (wrap16 (Z.of_nat (length e.2))) ++ e.2.

Arguments encode_entry : simpl never.

Definition entry_len (e : entry) : nat := 4 + length e.1 + length e.2.

Definition entries_data (es : list entry) : bytes := mjoin (encode_entry <$> es).

Fixpoint entry_offsets (base : Z) (es : list entry) : list Z :=
  match es with
  | [] => []
  | e :: es' => base :: entry_offsets (base + Z.of_nat (entry_len e))%Z es'
  end.

(** The block made of [es]. *)
Definition of_entries (es : list entry) : Block.Block :=
  Block.mkBlock (entries_data es) (entry_offsets 0 es).

(** A builder holds exactly [es]. *)
Definition repr (bb : BlockBuilder) (es : list entry) : Prop :=
  data bb = entries_data es /\
  offsets bb = entry_offsets 0 es /\
  num_of_elements bb = length es /\
  next_offset bb = Z.of_nat (length (data bb)).

(** Entries the 2-byte length and offset fields can describe. *)
Definition entries_ok (es : list entry) : Prop :=
  Forall (fun e => Z.of_nat (length e.1) < 2 ^ 16 /\ Z.of_nat (length e.2) < 2 ^ 16)%Z es /\
  (Z.of_nat (length (entries_data es)) < 2 ^ 16)%Z.

#[export] Instance entries_ok_dec es : Decision (entries_ok es).
Proof. unfold entries_ok. apply _. Defined.

(** The sums [add] computes at 16 bits do not overflow. *)
Definition fits_u16 (bb : BlockBuilder) (key value : bytes) : Prop :=
  (Z.of_nat (length (data bb) + 4 + length key + length value + 2) < 2 ^ 16)%Z.

#[export] Instance fits_u16_dec bb k v : Decision (fits_u16 bb k v).
Proof. unfold fits_u16. apply _. Defined.

(** ** Lemmas *)

Lemma length_encode_entry e : length (encode_entry e) = entry_len e.
Proof.
  unfold encode_entry, entry_len. rewrite !length_app, !length_put_u16. lia.
Qed.

Lemma entries_data_cons e es :
  entries_data (e :: es) = encode_entry e ++ entries_data es.
Proof. done. Qed.

Lemma entries_data_snoc es e :
  entries_data (es ++ [e]) = entries_data es ++ encode_entry e.
Proof. unfold entries_data. rewrite fmap_app, join_app. simpl. by rewrite app_nil_r. Qed.

Lemma length_entries_data es :
  length (entries_data es) = sum_list (entry_len <$> es).
Proof.
  induction es as [|e es IH]; [done|].
  rewrite entries_data_cons, length_app, length_encode_entry, IH. done.
Qed.

Lemma entry_offsets_snoc base es e :
  entry_offsets base (es ++ [e]) =
  entry_offsets base es ++ [(base + Z.of_nat (length (entries_data es)))%Z].
Proof.
  revert base; induction es as [|e' es IH]; intros base; cbn [entry_offsets app].
  - by rewrite Z.add_0_r.
  - rewrite IH. do 3 f_equal.
    rewrite entries_data_cons, length_app, length_encode_entry. lia.
Qed.

Lemma length_entry_offsets base es : length (entry_offsets base es) = length es.
Proof. revert base; induction es; intros; simpl; auto. Qed.

Lemma entries_data_app es1 es2 :
  entries_data (es1 ++ es2) = entries_data es1 ++ entries_data es2.
Proof. unfold entries_data. by rewrite fmap_app, join_app. Qed.

(** The data of a block splits around any of its entries. *)
Lemma entries_data_middle es i e :
  es !! i = Some e ->
  entries_data es = entries_data (take i es) ++ encode_entry e ++ entries_data (drop (S i) es).
Proof.
  intros H. rewrite <- (take_drop_middle es i e H) at 1.
  by rewrite entries_data_app, entries_data_cons.
Qed.

(** The offset of entry [i] is the length of the entries before it. *)
Lemma entry_offsets_lookup base es i e :
  es !! i = Some e ->
  entry_offsets base es !! i = Some (base + Z.of_nat (length (entries_data (take i es))))%Z.
Proof.
  revert base i; induction es as [|e' es IH]; intros base [|i] H; simpl in H; try done.
  - simpl. f_equal. lia.
  - cbn [entry_offsets lookup list_lookup]. rewrite (IH _ _ H).
    rewrite firstn_cons, entries_data_cons, length_app, length_encode_entry. f_equal. lia.
Qed.

#[export] Hint Rewrite length_encode_entry entries_data_snoc entry_offsets_snoc
  length_entry_offsets : lsm_rw.

Lemma entry_offsets_bound base es :
  Forall (fun o => base <= o /\ (es <> [] -> o < base + Z.of_nat (length (entries_data es))))%Z
    (entry_offsets base es).
Proof.
  revert base; induction es as [|e es IH]; intros base; [constructor|].
  cbn [entry_offsets]. constructor.
  - rewrite entries_data_cons, length_app, length_encode_entry.
    unfold entry_len. split; [lia|intros _; lia].
  - destruct es as [|e' es']; [constructor|].
    eapply Forall_impl; [apply IH|]. intros o [Ho1 Ho2]. specialize (Ho2 ltac:(done)).
    rewrite entries_data_cons, length_app, length_encode_entry.
    unfold entry_len in *. split; [lia|intros _; lia].
Qed.

Lemma length_entries_data_ge es : 4 * length es <= length (entries_data es).
Proof.
  induction es as [|e es IH]; [simpl; lia|].
  rewrite entries_data_cons, length_app, length_encode_entry. unfold entry_len. simpl. lia.
Qed.

(** Every block made of representable entries is well formed. *)
Lemma of_entries_wf es : entries_ok es -> Block.block_wf (of_entries es).
Proof.
  intros [_ Hlen]. split; simpl.
  - destruct es as [|e es]; [constructor|].
    eapply Forall_impl; [apply entry_offsets_bound|]. intros o [Ho1 Ho2].
    specialize (Ho2 ltac:(done)). lia.
  - rewrite length_entry_offsets. pose proof (length_entries_data_ge es). lia.
Qed.

(** ** The behaviour of [add] *)

(** One call of [add] on a builder holding [es]. *)
Lemma add_step (bb : BlockBuilder) (es : list entry) (key value : bytes) :
  repr bb es -> fits_u16 bb key value ->
  let '(bb', ok) := add bb key value in
  (ok = true <-> length (data bb) + entry_len (key, value) + 2 < block_size bb) /\
  (ok = true -> repr bb' (es ++ [(key, value)]) /\ block_size bb' = block_size bb) /\
  (ok = false -> bb' = bb).
Proof.
  intros (Hd & Ho & Hn & Hno) Hfit. unfold fits_u16 in Hfit.
  unfold add. rewrite Hno.
  rewrite (wrap16_small (Z.of_nat (length key))), (wrap16_small (Z.of_nat (length value))) by lia.
  rewrite (wrap16_small (2 + _ + 2 + _)) by lia.
  rewrite (wrap16_small (Z.of_nat (length (data bb)) + _ + 2)) by lia.
  unfold entry_len; cbn [fst snd].
  case_decide as Hlt.
  - split; [split; [done|lia]|]. split; done.
  - split; [split; [lia|done]|]. split; [|done]. intros _.
    split; [|done]. unfold repr; cbn [data offsets num_of_elements next_offset].
    split; [|split; [|split]].
    + rewrite entries_data_snoc, <- Hd. unfold encode_entry; cbn [fst snd].
      rewrite !wrap16_small by lia. done.
    + rewrite entry_offsets_snoc, Ho, Hd. done.
    + rewrite length_app, Hn. simpl. lia.
    + rewrite wrap16_small by lia. rewrite !length_app, !length_put_u16. lia.
Qed.

(** C2: when the 16-bit sums cannot overflow, [add] accepts exactly the
    entries that leave the data region and the 2-byte count below the
    budget, appends exactly the accepted entry to what the builder holds,
    and leaves the builder unchanged when it refuses. *)
Theorem add_all_or_nothing (bb : BlockBuilder) (es : list entry) (key value : bytes) :
  repr bb es -> fits_u16 bb key value ->
  let '(bb', ok) := add bb key value in
  (ok = true <-> length (data bb) + entry_len (key, value) + 2 < block_size bb) /\
  (ok = true -> repr bb' (es ++ [(key, value)]) /\ block_size bb' = block_size bb) /\
  (ok = false -> bb' = bb).
Proof. apply add_step. Qed.

Lemma add_all_or_nothing_witness :
  repr (new 4096) [] /\ fits_u16 (new 4096) [Byte.x01] [Byte.x02] /\
  let '(bb', ok) := add (new 4096) [Byte.x01] [Byte.x02] in
  (ok = true <-> length (data (new 4096)) + entry_len ([Byte.x01], [Byte.x02]) + 2 <
                 block_size (new 4096)) /\
  (ok = true -> repr bb' ([] ++ [([Byte.x01], [Byte.x02])]) /\
                block_size bb' = block_size (new 4096)) /\
  (ok = false -> bb' = new 4096).
Proof.
  assert (Hr : repr (new 4096) []) by (split; [|split; [|split]]; reflexivity).
  assert (Hf : fits_u16 (new 4096) [Byte.x01] [Byte.x02]) by (vm_compute; reflexivity).
  split; [exact Hr|]. split; [exact Hf|].
  exact (add_all_or_nothing (new 4096) [] [Byte.x01] [Byte.x02] Hr Hf).
Defined.

(** Accepted entries keep the builder's contents representable. *)
Lemma add_entries_ok bb es key value bb' :
  repr bb es -> entries_ok es -> fits_u16 bb key value ->
  add bb key value = (bb', true) -> entries_ok (es ++ [(key, value)]).
Proof.
  intros Hr [Hf Hl] Hfit Hadd. pose proof (add_step bb es key value Hr Hfit) as H.
  rewrite Hadd in H. destruct H as [_ [H _]]. destruct (H eq_refl) as [Hr' _].
  unfold fits_u16 in Hfit. destruct Hr as [Hd _].
  split.
  - apply Forall_app; split; [done|]. constructor; [simpl; lia|done].
  - rewrite entries_data_snoc, length_app, length_encode_entry, <- Hd. unfold entry_len. simpl. lia.
Qed.

(** The block a builder produces decodes to the entries it was given. *)
Theorem build_roundtrip (bb : BlockBuilder) (es : list entry) :
  repr bb es -> entries_ok es ->
  Block.decode (Block.encode (build bb)) = Some (of_entries es).
Proof.
  intros (Hd & Ho & _ & _) Hok. unfold build. rewrite Hd, Ho.
  apply Block.decode_encode_mk, of_entries_wf, Hok.
Qed.

(** ** Builders reachable from [new] *)

(** The builder states a caller reaches from [new n] by a sequence of
    [add] calls whose 16-bit sums do not overflow, with the entries
    they hold (an accepted [add] appends its entry, a refused one keeps
    them). *)
Inductive reachable (n : nat) : BlockBuilder -> list entry -> Prop :=
  | reach_new : reachable n (new n) []
  | reach_add bb es key value :
      reachable n bb es -> fits_u16 bb key value ->
      reachable n (add bb key value).1
        (if (add bb key value).2 then es ++ [(key, value)] else es).

(** The builder invariant: it holds its entries, they are representable,
    and once it holds one the data region and the 2-byte count stay
    strictly below the budget. *)
Definition builder_inv (n : nat) (bb : BlockBuilder) (es : list entry) : Prop :=
  repr bb es /\ block_size bb = n /\ entries_ok es /\
  (es = [] \/ length (data bb) + 2 < n).

Lemma builder_inv_add n bb es key value :
  builder_inv n bb es -> fits_u16 bb key value ->
  builder_inv n (add bb key value).1
    (if (add bb key value).2 then es ++ [(key, value)] else es).
Proof.
  intros (Hr & Hn & Hok & Hb) Hfit.
  pose proof (add_step bb es key value Hr Hfit) as H.
  destruct (add bb key value) as [bb' ok] eqn:Hadd. cbn [fst snd].
  destruct H as (Hiff & Htrue & Hfalse). destruct ok.
  - destruct (Htrue eq_refl) as [Hr' Hs]. split; [done|]. split; [congruence|].
    split; [eapply add_entries_ok; eauto|]. right.
    destruct Hr' as [Hd' _]. destruct Hr as [Hd _].
    pose proof (proj1 Hiff eq_refl) as Hlt.
    rewrite Hd', entries_data_snoc, length_app, length_encode_entry, <- Hd. lia.
  - rewrite Hfalse by done. done.
Qed.

(** Rule induction on [reachable]: [new] establishes the invariant and
    [builder_inv_add] preserves it. *)
Ltac reachable_induction H :=
  clear - H; induction H;
  [ split; [done|]; split; [done|]; split; [|by left]; split; [constructor|simpl; lia]
  | by apply builder_inv_add ].

(** C3: every reachable builder satisfies the invariant. *)
Theorem reachable_inv (n : nat) (bb : BlockBuilder) (es : list entry) :
  reachable n bb es -> builder_inv n bb es.
Proof. intros H. reachable_induction H. Qed.

Lemma reachable_inv_witness :
  let bb := (add (new 4096) [Byte.x01] [Byte.x02]).1 in
  let es := if (add (new 4096) [Byte.x01] [Byte.x02]).2
            then [] ++ [([Byte.x01], [Byte.x02])] else [] in
  reachable 4096 bb es /\ builder_inv 4096 bb es.
Proof.
  assert (Hf : fits_u16 (new 4096) [Byte.x01] [Byte.x02]) by (vm_compute; reflexivity).
  pose proof (reach_add 4096 (new 4096) [] [Byte.x01] [Byte.x02] (reach_new 4096) Hf) as H.
  split; [exact H|exact (reachable_inv _ _ _ H)].
Defined.


(** C12: what the budget bounds: the encoded block exceeds the data region
    and count by its offsets, two bytes per entry. *)
Corollary reachable_encoded_size (n : nat) (bb : BlockBuilder) (es : list entry) :
  reachable n bb es -> es <> [] ->
  length (Block.encode (build bb)) < n + 2 * length es.
Proof.
  intros H Hne. assert (builder_inv n bb es) as ((Hd & Ho & _) & _ & _ & [->|Hb])
    by reachable_induction H; [done|].
  rewrite Block.length_encode. unfold build; cbn [Block.data Block.offsets].
  rewrite Ho, length_entry_offsets. lia.
Qed.

Lemma reachable_encoded_size_witness :
  let bb := (add (new 4096) [Byte.x01] [Byte.x02]).1 in
  let es := if (add (new 4096) [Byte.x01] [Byte.x02]).2
            then [] ++ [([Byte.x01], [Byte.x02])] else [] in
  reachable 4096 bb es /\ es <> [] /\ length (Block.encode (build bb)) < 4096 + 2 * length es.
Proof.
  assert (Hf : fits_u16 (new 4096) [Byte.x01] [Byte.x02]) by (vm_compute; reflexivity).
  pose proof (reach_add 4096 (new 4096) [] [Byte.x01] [Byte.x02] (reach_new 4096) Hf) as H.
  assert (Hne : (if (add (new 4096) [Byte.x01] [Byte.x02]).2
                 then [] ++ [([Byte.x01], [Byte.x02])] else []) <> []) by (vm_compute; discriminate).
  split; [exact H|]. split; [exact Hne|exact (reachable_encoded_size _ _ _ H Hne)].
Defined.

(** ** Where the code departs from the budget the spec states *)

(** C13: the entry size is computed in [u16]: a key of 65532 bytes and an
    empty value make [2 + key_len + 2 + value_len] wrap to 0, so the
    budget test passes whatever the budget (at least 3), 65536 bytes are
    appended, and [next_offset] stays 0, no longer the data length. *)
Theorem add_entry_size_wraps (n : nat) (key : bytes) :
  Z.of_nat (length key) = 65532%Z -> 3 <= n ->
  add (new n) key [] =
  (mkBuilder n (put_u16 65532 ++ key ++ put_u16 0) [0%Z] 1 0, true).
Proof.
  intros Hk Hn. unfold add, new; cbn [block_size data offsets num_of_elements next_offset].
  rewrite Hk. cbn [length Z.of_nat]. vm_compute (wrap16 _).
  rewrite decide_False by lia. done.
Qed.

Lemma add_entry_size_wraps_witness :
  Z.of_nat (length (repeat Byte.x00 (Z.to_nat 65532))) = 65532%Z /\ 3 <= 4096 /\
  add (new 4096) (repeat Byte.x00 (Z.to_nat 65532)) [] =
  (mkBuilder 4096 (put_u16 65532 ++ repeat Byte.x00 (Z.to_nat 65532) ++ put_u16 0) [0%Z] 1 0, true).
Proof.
  split; [vm_compute; reflexivity|]. split; [lia|].
  apply add_entry_size_wraps; [vm_compute; reflexivity|lia].
Defined.

End BlockBuilder.
