(* ===== verification/BlockIterator.v ===== *)
(** * BlockIterator: a cursor over one block
      (src/mini-lsm-starter/src/block/iterator.rs)

    The iterator's state is the Rust struct: the block, copies of the
    current key and value, and the entry index [idx].  [seek_to_offset]
    parses the entry at a byte offset ([None] where a slice or a
    [get_u16] would panic), [seek_to] positions at an index or clears
    key and value past the end, [next] and [seek_to_first] are the
    source's, and the binary search of [seek_to_key] is [seek_loop],
    one iteration per unit of fuel: [right - left] shrinks at every
    iteration, so [length offsets + 1] units suffice (the theorems
    below return [Some]).  Validity is "the key is non-empty".

    Theorems: on a block made of sorted entries with non-empty keys,
    [seek_to_key] lands where a linear search for the first key [>=] the
    target lands (C4); scanning from [seek_to_first] yields the entries
    in order (C5), and, composed with the builder and the format, the
    entries added to a builder come back out of the decoded block (C6).
    A counterexample shows that an entry with an empty key makes the
    iterator report "invalid" at that entry. *)

From S2P Require Import Prelude Codec Block BlockBuilder.

Module BlockIterator.

Import BlockBuilder.

Record BlockIterator := mkIter {
  block : Block.Block;
  key : bytes;
  value : bytes;
  idx : nat;
}.

(** [BlockIterator::new] *)
Definition new (b : Block.Block) : BlockIterator := mkIter b [] [] 0.

(** [seek_to_offset]: [&data[offset..]], then [key_len], the key,
    [value_len] and the value; key and value are replaced. *)
Definition seek_to_offset (it : BlockIterator) (offset : nat) : option BlockIterator :=
  let d := Block.data (block it) in
  if decide (length d < offset) then None else
  '(key_len, d) ← get_u16 (drop offset d);
  let kl := Z.to_nat key_len in
  if decide (length d < kl) then None else
  let k := take kl d in
  let d := drop kl d in
  '(value_len, d) ← get_u16 d;
  let vl := Z.to_nat value_len in
  if decide (length d < vl) then None else
  Some (mkIter (block it) k (take vl d) (idx it)).

(** [seek_to]: past the end, key and value are cleared and [idx] is left
    as it is; otherwise the entry at [offsets[idx]] is read. *)
Definition seek_to (it : BlockIterator) (i : nat) : option BlockIterator :=
  if decide (length (Block.offsets (block it)) <= i) then
    Some (mkIter (block it) [] [] (idx it))
  else
    offset ← Block.offsets (block it) !! i;
    it' ← seek_to_offset it (Z.to_nat offset);
    Some (mkIter (block it') (key it') (value it') i).

Definition is_valid (it : BlockIterator) : bool :=
  match key it with [] => false | _ :: _ => true end.

Definition seek_to_first (it : BlockIterator) : option BlockIterator := seek_to it 0.

(** [next]: [self.idx += 1; self.seek_to(self.idx)]. *)
Definition next (it : BlockIterator) : option BlockIterator :=
  seek_to (mkIter (block it) (key it) (value it) (S (idx it))) (S (idx it)).

(** The [while left < right] loop of [seek_to_key]. *)
Fixpoint seek_loop (fuel : nat) (it : BlockIterator) (left right : nat) (target : bytes)
    : option BlockIterator :=
  match fuel with
  | O => None
  | S fuel' =>
      if decide (left < right) then
        let mid := (left + right) / 2 in
        it' ← seek_to it mid;
        match bytes_cmp (key it') target with
        | Eq => Some it'
        | Lt => seek_loop fuel' it' (mid + 1) right target
        | Gt => seek_loop fuel' it' left mid target
        end
      else seek_to it left
  end.

(** [seek_to_key]: binary search over [0 .. offsets.len()]. *)
Definition seek_to_key (it : BlockIterator) (target : bytes) : option BlockIterator :=
  let n := length (Block.offsets (block it)) in
  seek_loop (S n) it 0 n target.

Definition create_and_seek_to_first (b : Block.Block) : option BlockIterator :=
  seek_to_first (new b).

Definition create_and_seek_to_key (b : Block.Block) (target : bytes) : option BlockIterator :=
  seek_to_key (new b) target.

(** The entry an iterator shows, if it is valid. *)
Definition current (it : BlockIterator) : option entry :=
  if is_valid it then Some (key it, value it) else None.

(** A caller's forward scan: collect entries while the iterator is
    valid, one [next] per entry; [None] on a panic or when out of fuel. *)
Fixpoint scan (fuel : nat) (it : BlockIterator) : option (list entry) :=
  match fuel with
  | O => None
  | S fuel' =>
      if is_valid it then
        it' ← next it;
        rest ← scan fuel' it';
        Some ((key it, value it) :: rest)
      else Some []
  end.

(** ** Where an iterator stands in a block made of [es] *)

(** At index [i]: the entry there, or the cleared past-the-end state
    with an index from which [next] cannot come back. *)
Definition at_index (es : list entry) (it : BlockIterator) (i : nat) : Prop :=
  block it = of_entries es /\
  match es !! i with
  | Some e => idx it = i /\ key it = e.1 /\ value it = e.2
  | None => length es <= S (idx it) /\ key it = [] /\ value it = []
  end.

(** Keys the validity test can see. *)
Definition keys_nonempty (es : list entry) : Prop := Forall (fun e => e.1 <> []) es.

#[export] Instance keys_nonempty_dec es : Decision (keys_nonempty es).
Proof. unfold keys_nonempty. apply _. Defined.

(** ** Reading entries *)

Lemma seek_to_offset_entry it pre e post :
  Block.data (block it) = pre ++ encode_entry e ++ post ->
  (Z.of_nat (length e.1) < 2 ^ 16)%Z -> (Z.of_nat (length e.2) < 2 ^ 16)%Z ->
  seek_to_offset it (length pre) = Some (mkIter (block it) e.1 e.2 (idx it)).
Proof.
  intros Hd Hk Hv. unfold seek_to_offset. rewrite Hd.
  rewrite decide_False by (rewrite length_app; lia).
  unfold encode_entry. rewrite <- !app_assoc, drop_app_length.
  rewrite get_put_u16, bind_Some. cbv beta iota.
  rewrite !(wrap16_small (Z.of_nat (length e.1))), Nat2Z.id by lia.
  rewrite decide_False by (rewrite length_app; lia).
  rewrite take_app_length, drop_app_length, get_put_u16, bind_Some. cbv beta iota.
  rewrite !(wrap16_small (Z.of_nat (length e.2))), Nat2Z.id by lia.
  rewrite decide_False by (rewrite length_app; lia).
  by rewrite take_app_length.
Qed.

(** [seek_to] on an index of the block reads that entry. *)
Lemma seek_to_entry es it i e :
  entries_ok es -> block it = of_entries es -> es !! i = Some e ->
  seek_to it i = Some (mkIter (of_entries es) e.1 e.2 i).
Proof.
  intros [Hok _] Hb He. unfold seek_to. rewrite Hb; cbn [of_entries Block.offsets].
  rewrite length_entry_offsets, decide_False by (apply lookup_lt_Some in He; lia).
  rewrite (entry_offsets_lookup 0 es i e He), bind_Some, Z.add_0_l, Nat2Z.id.
  rewrite (seek_to_offset_entry it _ e (entries_data (drop (S i) es))).
  - by rewrite bind_Some, Hb.
  - rewrite Hb. apply entries_data_middle, He.
  - rewrite Forall_lookup in Hok. apply (Hok i e He).
  - rewrite Forall_lookup in Hok. apply (Hok i e He).
Qed.

(** Past the end, [seek_to] clears key and value and keeps [idx]. *)
Lemma seek_to_past es it i :
  block it = of_entries es -> length es <= i ->
  seek_to it i = Some (mkIter (block it) [] [] (idx it)).
Proof.
  intros Hb Hi. unfold seek_to. rewrite Hb; cbn [of_entries Block.offsets].
  rewrite length_entry_offsets, decide_True by done. done.
Qed.

Lemma seek_to_at es it i :
  entries_ok es -> block it = of_entries es ->
  (i < length es \/ length es <= S (idx it)) ->
  exists it', seek_to it i = Some it' /\ at_index es it' i.
Proof.
  intros Hok Hb Hi. destruct (es !! i) as [e|] eqn:He.
  - eexists; split; [by eapply seek_to_entry|]. split; [done|]. by rewrite He.
  - apply lookup_ge_None in He. eexists; split; [by eapply seek_to_past|].
    split; [done|]. rewrite lookup_ge_None_2 by done. simpl. split; [lia|done].
Qed.

(** [next] moves one entry forward; past the end it stays there. *)
Lemma next_at es it i :
  entries_ok es -> at_index es it i ->
  exists it', next it = Some it' /\ at_index es it' (S i).
Proof.
  intros Hok [Hb Hi]. unfold next.
  destruct (es !! i) as [e|] eqn:He.
  - destruct Hi as (-> & _ & _).
    apply (seek_to_at es (mkIter (block it) (key it) (value it) (S i)) (S i) Hok Hb).
    simpl. lia.
  - destruct Hi as (Hn & _ & _). apply lookup_ge_None in He.
    destruct (seek_to_at es (mkIter (block it) (key it) (value it) (S (idx it))) (S (idx it)) Hok Hb)
      as (it' & Hs & [Hb' Hi']); [simpl; lia|].
    exists it'. split; [done|]. split; [done|].
    rewrite lookup_ge_None_2 in Hi' by lia. rewrite lookup_ge_None_2 by lia. done.
Qed.

Lemma at_index_valid es it i :
  keys_nonempty es -> at_index es it i -> is_valid it = bool_decide (i < length es).
Proof.
  intros Hne [_ Hi]. destruct (es !! i) as [e|] eqn:He.
  - destruct Hi as (_ & Hk & _). rewrite bool_decide_true by (by eapply lookup_lt_Some).
    unfold is_valid. rewrite Hk. unfold keys_nonempty in Hne. rewrite Forall_lookup in Hne.
    destruct e.1 eqn:E; [|done]. by destruct (Hne i e He).
  - destruct Hi as (_ & Hk & _). apply lookup_ge_None in He.
    rewrite bool_decide_false by lia. unfold is_valid. by rewrite Hk.
Qed.

(** ** Scanning *)

Lemma scan_S fuel it :
  scan (S fuel) it =
  if is_valid it then it' ← next it; rest ← scan fuel it'; Some ((key it, value it) :: rest)
  else Some [].
Proof. done. Qed.

Lemma scan_at es it i :
  entries_ok es -> keys_nonempty es -> at_index es it i -> i <= length es ->
  scan (S (length es - i)) it = Some (drop i es).
Proof.
  intros Hok Hne. remember (length es - i) as k eqn:Hk. revert it i Hk.
  induction k as [|k IH]; intros it i Hk Hat Hi; rewrite scan_S;
    rewrite (at_index_valid es it i Hne Hat).
  - rewrite bool_decide_false by lia. rewrite drop_ge by lia. done.
  - rewrite bool_decide_true by lia.
    destruct (next_at es it i Hok Hat) as (it' & -> & Hat'). rewrite bind_Some.
    rewrite (IH it' (S i)) by (done || lia). rewrite bind_Some.
    destruct Hat as [_ Hi']. destruct (es !! i) as [e|] eqn:He; [|apply lookup_ge_None in He; lia].
    destruct Hi' as (_ & -> & ->). by rewrite (drop_S es e i He), <- surjective_pairing.
Qed.

(** C5: scanning a block from [seek_to_first] yields its entries, in
    order, and stops. *)
Theorem scan_seek_to_first (es : list entry) :
  entries_ok es -> keys_nonempty es ->
  exists it, create_and_seek_to_first (of_entries es) = Some it /\
             scan (S (length es)) it = Some es.
Proof.
  intros Hok Hne. destruct (seek_to_at es (new (of_entries es)) 0 Hok eq_refl)
    as (it & Hs & Hat); [simpl; lia|].
  exists it. split; [done|]. rewrite <- (Nat.sub_0_r (length es)).
  rewrite (scan_at es it 0 Hok Hne Hat) by lia. done.
Qed.

Lemma scan_seek_to_first_witness :
  entries_ok [([Byte.x01], [Byte.x0a]); ([Byte.x03], [Byte.x0b])] /\ keys_nonempty [([Byte.x01], [Byte.x0a]); ([Byte.x03], [Byte.x0b])] /\
  exists it, create_and_seek_to_first (of_entries [([Byte.x01], [Byte.x0a]); ([Byte.x03], [Byte.x0b])]) = Some it /\
             scan (S (length [([Byte.x01], [Byte.x0a]); ([Byte.x03], [Byte.x0b])])) it = Some [([Byte.x01], [Byte.x0a]); ([Byte.x03], [Byte.x0b])].
Proof.
  assert (Hok : entries_ok [([Byte.x01], [Byte.x0a]); ([Byte.x03], [Byte.x0b])]) by decide_by_eval.
  assert (Hne : keys_nonempty [([Byte.x01], [Byte.x0a]); ([Byte.x03], [Byte.x0b])]) by decide_by_eval.
  split; [exact Hok|]. split; [exact Hne|]. exact (scan_seek_to_first _ Hok Hne).
Defined.

(** ** Binary search *)

(** The reference: the first entry whose key is [>=] the target. *)
Definition lower_bound (es : list entry) (target : bytes) : option (nat * entry) :=
  list_find (fun e => bytes_cmp e.1 target <> Lt) es.

Definition lb_index (es : list entry) (target : bytes) : nat :=
  match lower_bound es target with Some (i, _) => i | None => length es end.

Lemma lb_index_spec es target :
  (forall j e, j < lb_index es target -> es !! j = Some e -> bytes_cmp e.1 target = Lt) /\
  (forall e, es !! lb_index es target = Some e -> bytes_cmp e.1 target <> Lt) /\
  lb_index es target <= length es.
Proof.
  unfold lb_index, lower_bound. destruct (list_find _ es) as [[i e]|] eqn:E.
  - apply list_find_Some in E as (He & Hp & Hbefore). split; [|split].
    + intros j e' Hj He'. destruct (bytes_cmp e'.1 target) eqn:C; try done;
        exfalso; eapply Hbefore; eauto; congruence.
    + intros e' He'. congruence.
    + apply lookup_lt_Some in He. lia.
  - apply list_find_None in E. rewrite Forall_lookup in E. split; [|split].
    + intros j e' _ He'. specialize (E j e' He').
      destruct (bytes_cmp e'.1 target); try done; exfalso; by apply E.
    + intros e He. by rewrite lookup_ge_None_2 in He.
    + done.
Qed.

(** An entry whose key is not below the target bounds the lower bound. *)
Lemma lb_le es target m e :
  es !! m = Some e -> bytes_cmp e.1 target <> Lt -> lb_index es target <= m.
Proof.
  intros He Hc. destruct (decide (lb_index es target <= m)) as [|Hgt]; [done|].
  exfalso. apply Hc. apply (proj1 (lb_index_spec es target) m e); [lia|done].
Qed.

(** In a sorted block, an entry whose key is not above the target is at
    or before the lower bound. *)
Lemma le_lb es target m e :
  keys_sorted es -> es !! m = Some e -> bytes_cmp e.1 target <> Gt -> m <= lb_index es target.
Proof.
  intros Hs He Hc. destruct (decide (m <= lb_index es target)) as [|Hlt]; [done|].
  exfalso. pose proof (lookup_lt_Some _ _ _ He) as Hm.
  destruct (lookup_lt_is_Some_2 es (lb_index es target)) as [e' He']; [lia|].
  apply (proj1 (proj2 (lb_index_spec es target)) e' He').
  eapply bytes_cmp_lt_le_trans; [|done].
  apply (keys_sorted_lookup es _ _ e' e Hs He' He). lia.
Qed.

Lemma seek_loop_lb fuel es target it left right :
  keys_sorted es -> entries_ok es -> block it = of_entries es ->
  left <= lb_index es target <= right -> right <= length es ->
  right - left < fuel -> left <= S (idx it) ->
  exists it', seek_loop fuel it left right target = Some it' /\
              at_index es it' (lb_index es target).
Proof.
  intros Hs Hok. revert it left right.
  induction fuel as [|fuel IH]; intros it left right Hb Hlr Hr Hf Hidx; [lia|].
  cbn [seek_loop]. case_decide as Hlt.
  - set (mid := (left + right) / 2).
    assert (left <= mid < right) by (subst mid; split;
      [apply Nat.div_le_lower_bound|apply Nat.Div0.div_lt_upper_bound]; lia).
    destruct (lookup_lt_is_Some_2 es mid) as [e He]; [lia|].
    rewrite (seek_to_entry es it mid e Hok Hb He), bind_Some. cbn [key].
    destruct (bytes_cmp e.1 target) eqn:C.
    + pose proof (lb_le es target mid e He ltac:(congruence)).
      pose proof (le_lb es target mid e Hs He ltac:(congruence)).
      replace (lb_index es target) with mid by lia.
      eexists; split; [done|]. split; [done|]. by rewrite He.
    + pose proof (le_lb es target mid e Hs He ltac:(congruence)).
      assert (mid <> lb_index es target).
      { intros Heq. apply (proj1 (proj2 (lb_index_spec es target)) e); [|congruence].
        by rewrite <- Heq. }
      apply IH; simpl; [done|lia..].
    + pose proof (lb_le es target mid e He ltac:(congruence)).
      apply IH; simpl; [done|lia..].
  - assert (left = lb_index es target) as Hl by lia.
    destruct (seek_to_at es it left Hok Hb) as (it' & Hs' & Hat); [lia|].
    rewrite <- Hl. by exists it'.
Qed.

(** C4: on a block made of sorted entries, [seek_to_key] finds what a
    linear search for the first key [>=] the target finds: that entry,
    or the invalid past-the-end state when every key is smaller. *)
Theorem seek_to_key_lower_bound (es : list entry) (target : bytes) :
  keys_sorted es -> entries_ok es -> keys_nonempty es ->
  exists it, create_and_seek_to_key (of_entries es) target = Some it /\
             current it = snd <$> lower_bound es target.
Proof.
  intros Hs Hok Hne.
  destruct (seek_loop_lb (S (length es)) es target (new (of_entries es)) 0 (length es)
    Hs Hok eq_refl) as (it & Hl & Hat); [pose proof (lb_index_spec es target); lia|lia..|].
  exists it. split.
  - unfold create_and_seek_to_key, seek_to_key. cbn [new block of_entries Block.offsets].
    by rewrite length_entry_offsets.
  - unfold current. rewrite (at_index_valid es it _ Hne Hat).
    destruct Hat as [_ Hat]. unfold lb_index in *.
    destruct (lower_bound es target) as [[i e]|] eqn:E.
    + unfold lower_bound in E. apply list_find_Some in E as (He & _).
      rewrite bool_decide_true by (by eapply lookup_lt_Some).
      rewrite He in Hat. destruct Hat as (_ & -> & ->). by destruct e.
    + rewrite bool_decide_false by lia. done.
Qed.

Lemma seek_to_key_lower_bound_witness :
  keys_sorted [([Byte.x01], [Byte.x0a]); ([Byte.x03], [Byte.x0b])] /\ entries_ok [([Byte.x01], [Byte.x0a]); ([Byte.x03], [Byte.x0b])] /\ keys_nonempty [([Byte.x01], [Byte.x0a]); ([Byte.x03], [Byte.x0b])] /\
  exists it, create_and_seek_to_key (of_entries [([Byte.x01], [Byte.x0a]); ([Byte.x03], [Byte.x0b])]) [Byte.x02] = Some it /\
             current it = snd <$> lower_bound [([Byte.x01], [Byte.x0a]); ([Byte.x03], [Byte.x0b])] [Byte.x02].
Proof.
  assert (Hs : keys_sorted [([Byte.x01], [Byte.x0a]); ([Byte.x03], [Byte.x0b])]) by decide_by_eval.
  assert (Hok : entries_ok [([Byte.x01], [Byte.x0a]); ([Byte.x03], [Byte.x0b])]) by decide_by_eval.
  assert (Hne : keys_nonempty [([Byte.x01], [Byte.x0a]); ([Byte.x03], [Byte.x0b])]) by decide_by_eval.
  split; [exact Hs|]. split; [exact Hok|]. split; [exact Hne|].
  exact (seek_to_key_lower_bound _ _ Hs Hok Hne).
Defined.

(** ** From the builder to the iterator *)

(** C6: the entries accepted by a builder come back, in the order they
    were added, from an iterator over the block decoded from the
    builder's encoded output. *)
Theorem builder_encode_decode_scan (n : nat) (bb : BlockBuilder) (es : list entry) :
  reachable n bb es -> keys_nonempty es ->
  exists b it, Block.decode (Block.encode (build bb)) = Some b /\
               create_and_seek_to_first b = Some it /\
               scan (S (length es)) it = Some es.
Proof.
  intros Hr Hne. assert (builder_inv n bb es) as (Hrepr & _ & Hok & _)
    by reachable_induction Hr.
  destruct (seek_to_at es (new (of_entries es)) 0 Hok eq_refl)
    as (it & Hs & Hat); [simpl; lia|].
  exists (of_entries es), it. split; [by apply build_roundtrip|]. split; [done|].
  rewrite <- (Nat.sub_0_r (length es)), (scan_at es it 0 Hok Hne Hat) by lia. done.
Qed.

Lemma builder_encode_decode_scan_witness :
  let bb := (add (BlockBuilder.new 4096) [Byte.x01] [Byte.x02]).1 in
  let es := if (add (BlockBuilder.new 4096) [Byte.x01] [Byte.x02]).2
            then [] ++ [([Byte.x01], [Byte.x02])] else [] in
  reachable 4096 bb es /\ keys_nonempty es /\
  exists b it, Block.decode (Block.encode (build bb)) = Some b /\
               create_and_seek_to_first b = Some it /\
               scan (S (length es)) it = Some es.
Proof.
  assert (Hf : fits_u16 (BlockBuilder.new 4096) [Byte.x01] [Byte.x02]) by (vm_compute; reflexivity).
  pose proof (reach_add 4096 (BlockBuilder.new 4096) [] [Byte.x01] [Byte.x02] (reach_new 4096) Hf) as H.
  assert (Hne : keys_nonempty (if (add (BlockBuilder.new 4096) [Byte.x01] [Byte.x02]).2
                               then [] ++ [([Byte.x01], [Byte.x02])] else [])) by decide_by_eval.
  split; [exact H|]. split; [exact Hne|]. exact (builder_encode_decode_scan _ _ _ H Hne).
Defined.

(** ** The empty key *)

(** C14: validity is "the key is non-empty": a block whose first entry has
    the empty key looks exhausted from its first position, and a scan
    of it yields nothing although it holds entries. *)
Theorem empty_first_key_hides_block (v : bytes) (es : list entry) :
  entries_ok (([], v) :: es) ->
  exists it, create_and_seek_to_first (of_entries (([], v) :: es)) = Some it /\
             is_valid it = false /\
             scan (S (S (length es))) it = Some [].
Proof.
  intros Hok. eexists. split.
  - apply (seek_to_entry _ (new (of_entries (([], v) :: es))) 0 ([], v) Hok eq_refl eq_refl).
  - done.
Qed.

Lemma empty_first_key_hides_block_witness :
  entries_ok (([], [Byte.x0a]) :: [([Byte.x01], [Byte.x0b])]) /\
  exists it, create_and_seek_to_first (of_entries (([], [Byte.x0a]) :: [([Byte.x01], [Byte.x0b])]))
               = Some it /\
             is_valid it = false /\
             scan (S (S (length [([Byte.x01], [Byte.x0b])]))) it = Some [].
Proof.
  assert (Hok : entries_ok (([], [Byte.x0a]) :: [([Byte.x01], [Byte.x0b])])) by decide_by_eval.
  split; [exact Hok|]. exact (empty_first_key_hides_block _ _ Hok).
Defined.

End BlockIterator.
