(* ===== verification/Table.v ===== *)
(** * Table: the SSTable file and its block index (src/mini-lsm-starter/src/table.rs)

    [BlockMeta] is the index entry of one block (its byte offset in the
    file and its first key).  [encode_block_meta] appends the index and
    the 4-byte offset of the index to a buffer, with the source's
    [assert_eq!] on the precomputed length as a check that returns
    [None]; [decode_block_meta] is the [while buf.has_remaining()] loop
    under fuel (each iteration consumes at least six bytes, so
    [length buf + 1] units suffice).

    [FileObject] is the file as its bytes and the cached size; [read]
    fails with [Err EIo] when the positioned read runs past the end (the
    [read_exact_at] contract); [FileObject::open] is [unimplemented!()]
    in the source and is [file_open], a panic.  [SsTable] keeps the file, the decoded
    index, the index offset, the id and whether a block cache is attached;
    the cache's contents ([BlockCache], a [gmap] from [(table id, block
    index)] to blocks) are threaded as explicit state through
    [read_block_cached], a get-or-compute.  [find_block_idx] is the
    source's binary search under fuel.

    Theorems: the index round-trips and its length assertion never fails
    (C9); [find_block_idx] returns the last block whose first key is
    [<=] the key, or block 0 (C10); [read_block_cached] returns what
    [read_block] returns and keeps the cache coherent with the file (C11);
    [open] reads back a file that holds blocks and the index written after
    them by [encode_block_meta] ([open_encoded]). *)

From stdpp Require Import gmap.
From S2P Require Import Prelude Codec Block.

Module Table.

Record BlockMeta := mkMeta {
  offset : nat;
  first_key : bytes;
}.

(** [BlockMeta::encode_block_meta]: the precomputed length [est_len],
    the entries [offset (4B) ‖ key_len (2B) ‖ key], the original length
    of the buffer as the trailing [u32], then the [assert_eq!]. *)
Definition encode_block_meta (block_meta : list BlockMeta) (buf : bytes) : option bytes :=
  let ori_len := length buf in
  let est_len := foldl (fun acc meta => acc + 4 + 2 + length (first_key meta)) 0 block_meta + 4 in
  let buf := foldl (fun b meta =>
                      b ++ put_u32 (wrap32 (Z.of_nat (offset meta)))
                        ++ put_u16 (wrap16 (Z.of_nat (length (first_key meta))))
                        ++ first_key meta) buf block_meta in
  let buf := buf ++ put_u32 (wrap32 (Z.of_nat ori_len)) in
  if decide (est_len = length buf - ori_len) then Some buf else None.

(** The [while buf.has_remaining()] loop of [decode_block_meta]. *)
Fixpoint decode_metas (fuel : nat) (buf : bytes) : option (list BlockMeta) :=
  match fuel with
  | O => None
  | S fuel' =>
      match buf with
      | [] => Some []
      | _ :: _ =>
          '(off, buf) ← get_u32 buf;
          '(key_len, buf) ← get_u16 buf;
          let kl := Z.to_nat key_len in
          if decide (length buf < kl) then None else
          rest ← decode_metas fuel' (drop kl buf);
          Some (mkMeta (Z.to_nat off) (take kl buf) :: rest)
      end
  end.

(** [BlockMeta::decode_block_meta] *)
Definition decode_block_meta (buf : bytes) : option (list BlockMeta) :=
  decode_metas (S (length buf)) buf.

(** [FileObject(File, u64)]: the file's bytes and its recorded size. *)
Record FileObject := mkFile {
  contents : bytes;
  file_size : nat;
}.

(** [FileObject::read]: [read_exact_at] fails past the end of the file. *)
Definition read (f : FileObject) (off len : nat) : res bytes :=
  if decide (length (contents f) < off + len) then Err EIo
  else Ok (take len (drop off (contents f))).

(** [FileObject::size] *)
Definition size (f : FileObject) : nat := file_size f.

(** [FileObject::create]: the file holds [data] and its length. *)
Definition create (data : bytes) : res FileObject := Ok (mkFile data (length data)).

(** [FileObject::open]: its body is [unimplemented!()], a panic on every
    path; the path's type is left abstract. *)
Definition file_open {Path : Type} (path : Path) : res FileObject := Err EPanic.

(** The block cache's contents: [(table id, block index)] to block. *)
Definition BlockCache : Type := gmap (nat * nat) Block.Block.

Record SsTable := mkTable {
  file : FileObject;
  block_metas : list BlockMeta;
  block_meta_offset : nat;
  id : nat;
  block_cache : bool;
}.

(** [SsTable::open], with [u64] arithmetic as in a release build: for a
    file shorter than 4 bytes [n - 4] wraps to an offset past the end,
    where [read_exact_at] fails, an I/O error; when the index offset is
    past [n - 4], [n - block_meta_offset - 4] wraps to a length no
    [vec!] can allocate, a panic. *)
Definition open (id : nat) (block_cache : bool) (file : FileObject) : res SsTable :=
  let n := size file in
  if decide (n < 4) then Err EIo else
  raw ← read file (n - 4) 4;
  '(bmo, _) ← of_panic (get_u32 raw);
  let bmo := Z.to_nat bmo in
  if decide (n < bmo + 4) then Err EPanic else
  block_meta ← read file bmo (n - bmo - 4);
  block_metas ← of_panic (decode_block_meta block_meta);
  Ok (mkTable file block_metas bmo id block_cache).

(** [SsTable::open_for_test] (test builds only). *)
Definition open_for_test (file : FileObject) : res SsTable := open 0 false file.

(** [SsTable::read_block]: the block spans from its offset to the next
    block's offset, or to the index for the last block. *)
Definition read_block (t : SsTable) (block_idx : nat) : res Block.Block :=
  meta ← of_panic (block_metas t !! block_idx);
  let off := offset meta in
  let off_end := match block_metas t !! (block_idx + 1) with
                 | Some m => offset m
                 | None => block_meta_offset t
                 end in
  if decide (off_end < off) then Err EPanic else
  block_data ← read (file t) off (off_end - off);
  of_panic (Block.decode block_data).

(** [SsTable::read_block_cached]: with a cache, a hit returns the cached
    block and a miss runs [read_block] once and stores a success. *)
Definition read_block_cached (t : SsTable) (cache : BlockCache) (block_idx : nat)
    : res Block.Block * BlockCache :=
  if block_cache t then
    match cache !! (id t, block_idx) with
    | Some b => (Ok b, cache)
    | None =>
        match read_block t block_idx with
        | Ok b => (Ok b, <[(id t, block_idx) := b]> cache)
        | Err e => (Err e, cache)
        end
    end
  else (read_block t block_idx, cache).

(** The [while left < right] loop of [find_block_idx]; after the loop,
    [left - 1], or [0] when [left] is [0]. *)
Fixpoint find_loop (fuel : nat) (metas : list BlockMeta) (key : bytes) (left right : nat)
    : option nat :=
  match fuel with
  | O => None
  | S fuel' =>
      if decide (left < right) then
        let mid := (left + right) / 2 in
        m ← metas !! mid;
        match bytes_cmp (first_key m) key with
        | Eq => Some mid
        | Lt => find_loop fuel' metas key (mid + 1) right
        | Gt => find_loop fuel' metas key left mid
        end
      else Some (if decide (left = 0) then 0 else left - 1)
  end.

(** [SsTable::find_block_idx] *)
Definition find_block_idx (t : SsTable) (key : bytes) : option nat :=
  find_loop (S (length (block_metas t))) (block_metas t) key 0 (length (block_metas t)).

(** [SsTable::num_of_blocks] *)
Definition num_of_blocks (t : SsTable) : nat := length (block_metas t).

(** A table file holding one block with the entry [01 -> 0a]: [open]
    reads its index and [read_block] reads the block back. *)
Example open_read_block_example :
  let blk := Block.mkBlock [Byte.x00; Byte.x01; Byte.x01; Byte.x00; Byte.x01; Byte.x0a] [0%Z] in
  let d := Block.encode blk ++
           (put_u32 0 ++ put_u16 1 ++ [Byte.x01]) ++ put_u32 10 in
  (t ← open 7 false (mkFile d (length d)); read_block t 0) = Ok blk.
Proof. vm_compute. reflexivity. Qed.

(** ** The index region *)

(** The bytes of one index entry, and of the whole index. *)
Definition encode_meta (m : BlockMeta) : bytes :=
  put_u32 (wrap32 (Z.of_nat (offset m))) ++
  put_u16 (wrap16 (Z.of_nat (length (first_key m)))) ++ first_key m.

Arguments encode_meta : simpl never.

Definition encode_metas (metas : list BlockMeta) : bytes := mjoin (encode_meta <$> metas).

(** Index entries the 4-byte offset and 2-byte length fields can hold. *)
Definition metas_ok (metas : list BlockMeta) : Prop :=
  Forall (fun m => Z.of_nat (offset m) < 2 ^ 32 /\ Z.of_nat (length (first_key m)) < 2 ^ 16)%Z
    metas.

#[export] Instance metas_ok_dec metas : Decision (metas_ok metas).
Proof. unfold metas_ok. apply _. Defined.

(** First keys strictly ascending. *)
Definition first_keys_sorted (metas : list BlockMeta) : Prop :=
  StronglySorted (fun m1 m2 => bytes_lt (first_key m1) (first_key m2)) metas.

#[export] Instance first_keys_sorted_dec metas : Decision (first_keys_sorted metas).
Proof. apply StronglySorted_dec. intros ??. unfold bytes_lt. apply _. Defined.

Lemma length_encode_meta m : length (encode_meta m) = 6 + length (first_key m).
Proof. unfold encode_meta. rewrite !length_app, length_put_u32, length_put_u16. lia. Qed.

Lemma encode_metas_cons m metas :
  encode_metas (m :: metas) = encode_meta m ++ encode_metas metas.
Proof. done. Qed.

Lemma foldl_encode metas buf :
  foldl (fun b meta =>
           b ++ put_u32 (wrap32 (Z.of_nat (offset meta)))
             ++ put_u16 (wrap16 (Z.of_nat (length (first_key meta))))
             ++ first_key meta) buf metas = buf ++ encode_metas metas.
Proof.
  revert buf; induction metas as [|m metas IH]; intros buf; cbn [foldl].
  - by rewrite app_nil_r.
  - rewrite IH, encode_metas_cons, <- !app_assoc. done.
Qed.

Lemma foldl_est metas a :
  foldl (fun acc meta => acc + 4 + 2 + length (first_key meta)) a metas =
  a + length (encode_metas metas).
Proof.
  revert a; induction metas as [|m metas IH]; intros a; cbn [foldl]; [simpl; lia|].
  rewrite IH, encode_metas_cons, length_app, length_encode_meta. lia.
Qed.

(** The length assertion of [encode_block_meta] always holds: the
    function appends the index and the original length, and never
    panics. *)
Lemma encode_block_meta_eq metas buf :
  encode_block_meta metas buf =
  Some (buf ++ encode_metas metas ++ put_u32 (wrap32 (Z.of_nat (length buf)))).
Proof.
  unfold encode_block_meta. rewrite foldl_encode, foldl_est.
  rewrite decide_True; [by rewrite <- app_assoc|].
  rewrite !length_app, length_put_u32. lia.
Qed.

Lemma decode_metas_nonempty fuel buf :
  buf <> [] ->
  decode_metas (S fuel) buf =
  '(off, buf) ← get_u32 buf;
  '(key_len, buf) ← get_u16 buf;
  let kl := Z.to_nat key_len in
  if decide (length buf < kl) then None else
  rest ← decode_metas fuel (drop kl buf);
  Some (mkMeta (Z.to_nat off) (take kl buf) :: rest).
Proof. destruct buf; [done|reflexivity]. Qed.

Lemma decode_metas_encode fuel metas :
  metas_ok metas -> length metas < fuel ->
  decode_metas fuel (encode_metas metas) = Some metas.
Proof.
  revert fuel; induction metas as [|m metas IH]; intros [|fuel] Hok Hf; simpl in Hf; try lia.
  - done.
  - apply Forall_cons in Hok as [[Ho Hk] Hok].
    rewrite decode_metas_nonempty.
    2:{ intros E. apply (f_equal length) in E.
        rewrite encode_metas_cons, length_app, length_encode_meta in E. simpl in E. lia. }
    rewrite encode_metas_cons. unfold encode_meta. rewrite <- !app_assoc.
    rewrite get_put_u32, bind_Some. cbv beta iota.
    rewrite get_put_u16, bind_Some. cbv beta iota.
    rewrite !(wrap16_small (Z.of_nat (length (first_key m)))), Nat2Z.id by lia.
    rewrite decide_False by (rewrite length_app; lia).
    rewrite drop_app_length, (IH fuel Hok) by lia. rewrite bind_Some, take_app_length.
    rewrite !(wrap32_small (Z.of_nat (offset m))), Nat2Z.id by lia. by destruct m.
Qed.

Lemma length_encode_metas_ge metas : length metas <= length (encode_metas metas).
Proof.
  induction metas as [|m metas IH]; [simpl; lia|].
  rewrite encode_metas_cons, length_app, length_encode_meta. simpl. lia.
Qed.

Section encoded.
Context (metas : list BlockMeta) (buf : bytes).
(** The buffer after [encode_block_meta]. *)
Let out := buf ++ encode_metas metas ++ put_u32 (wrap32 (Z.of_nat (length buf))).

Lemma length_encoded : length out = length buf + length (encode_metas metas) + 4.
Proof. subst out. rewrite !length_app, length_put_u32. lia. Qed.

(** The trailing [u32] is the start of the index. *)
Lemma encoded_trailer :
  (Z.of_nat (length buf) < 2 ^ 32)%Z ->
  get_u32 (drop (length out - 4) out) = Some (Z.of_nat (length buf), []).
Proof.
  intros Hb. rewrite length_encoded. subst out.
  rewrite app_assoc, drop_app_length' by (rewrite length_app; lia).
  rewrite get_put_u32_exact, !(wrap32_small (Z.of_nat (length buf))) by lia. done.
Qed.

(** The bytes between the index's start and the trailer decode to the index. *)
Lemma encoded_index :
  metas_ok metas ->
  decode_block_meta (take (length out - length buf - 4) (drop (length buf) out)) = Some metas.
Proof.
  intros Hok. rewrite length_encoded. subst out.
  rewrite drop_app_length, take_app_length' by lia.
  unfold decode_block_meta. apply decode_metas_encode; [done|].
  pose proof (length_encode_metas_ge metas). lia.
Qed.

(** [SsTable::open] on a file holding [buf] and the index written after
    it reads the index back, with its offset the length of [buf]. *)
Lemma open_encoded id bc :
  metas_ok metas -> (Z.of_nat (length buf) < 2 ^ 32)%Z ->
  open id bc (mkFile out (length out)) =
  Ok (mkTable (mkFile out (length out)) metas (length buf) id bc).
Proof.
  intros Hok Hb. pose proof length_encoded as Hl. unfold open, size. cbn [file_size].
  rewrite decide_False by lia. unfold read. cbn [contents].
  rewrite decide_False by lia. rewrite res_bind_Ok.
  rewrite take_ge by (rewrite length_drop; lia).
  rewrite (encoded_trailer Hb). cbn [of_panic]. rewrite res_bind_Ok. cbv beta iota. rewrite Nat2Z.id.
  rewrite decide_False by lia. rewrite decide_False by lia. rewrite res_bind_Ok.
  by rewrite (encoded_index Hok).
Qed.
End encoded.

(** C9: the index written by [encode_block_meta] is read back by the
    steps of [SsTable::open]: the trailing [u32] gives the index's start
    (the length of the buffer before it), and [decode_block_meta] on the
    bytes between that start and the trailer gives the index entries. *)
Theorem block_meta_roundtrip (metas : list BlockMeta) (buf : bytes) :
  metas_ok metas -> (Z.of_nat (length buf) < 2 ^ 32)%Z ->
  exists out, encode_block_meta metas buf = Some out /\
    get_u32 (drop (length out - 4) out) = Some (Z.of_nat (length buf), []) /\
    decode_block_meta (take (length out - length buf - 4) (drop (length buf) out)) = Some metas.
Proof.
  intros Hok Hb. rewrite encode_block_meta_eq. eexists; split; [done|].
  split; [by apply encoded_trailer | by apply encoded_index].
Qed.

Lemma block_meta_roundtrip_witness :
  metas_ok [mkMeta 0 [Byte.x01]; mkMeta 20 [Byte.x05; Byte.x06]] /\
  (Z.of_nat (length [Byte.x00; Byte.x00]) < 2 ^ 32)%Z /\
  exists out, encode_block_meta [mkMeta 0 [Byte.x01]; mkMeta 20 [Byte.x05; Byte.x06]]
                [Byte.x00; Byte.x00] = Some out /\
    get_u32 (drop (length out - 4) out) = Some (Z.of_nat (length [Byte.x00; Byte.x00]), []) /\
    decode_block_meta (take (length out - length [Byte.x00; Byte.x00] - 4)
                         (drop (length [Byte.x00; Byte.x00]) out)) =
      Some [mkMeta 0 [Byte.x01]; mkMeta 20 [Byte.x05; Byte.x06]].
Proof.
  assert (Hok : metas_ok [mkMeta 0 [Byte.x01]; mkMeta 20 [Byte.x05; Byte.x06]])
    by decide_by_eval.
  assert (Hb : (Z.of_nat (length [Byte.x00; Byte.x00]) < 2 ^ 32)%Z) by (vm_compute; reflexivity).
  split; [exact Hok|]. split; [exact Hb|]. exact (block_meta_roundtrip _ _ Hok Hb).
Defined.

(** One turn of the [while buf.has_remaining()] loop on a non-empty buffer. *)
Lemma decode_metas_turn fuel buf :
  buf <> [] ->
  decode_metas (S fuel) buf =
    ('(off, buf) ← get_u32 buf;
     '(key_len, buf) ← get_u16 buf;
     let kl := Z.to_nat key_len in
     if decide (length buf < kl) then None else
     rest ← decode_metas fuel (drop kl buf);
     Some (mkMeta (Z.to_nat off) (take kl buf) :: rest)).
Proof. by destruct buf. Qed.

(** The index region [encode_block_meta] appends to [buf] is
    [encode_metas]. *)
Lemma encoded_region metas buf :
  let out := buf ++ encode_metas metas ++ put_u32 (wrap32 (Z.of_nat (length buf))) in
  take (length out - length buf - 4) (drop (length buf) out) = encode_metas metas.
Proof.
  cbn zeta. rewrite !length_app, length_put_u32, drop_app_length.
  replace (length buf + (length (encode_metas metas) + 4) - length buf - 4)
    with (length (encode_metas metas)) by lia.
  apply take_app_length.
Qed.

(** C36: the spec bounds keys to 65535 bytes, and the index needs that
    bound: a first key's length is written [as u16], so for a first key
    of 65536 bytes [encode_block_meta]'s size assertion still holds but
    the length field reads 0, and decoding the index gives a first entry
    with an empty first key, never the index that was written. *)
Theorem meta_key_len_wraps (off : nat) (key buf : bytes) :
  Z.of_nat (length key) = (2 ^ 16)%Z ->
  exists out, encode_block_meta [mkMeta off key] buf = Some out /\
    decode_block_meta (take (length out - length buf - 4) (drop (length buf) out)) <>
      Some [mkMeta off key] /\
    forall ms, decode_block_meta (take (length out - length buf - 4) (drop (length buf) out)) = Some ms ->
      exists ms', ms = mkMeta (Z.to_nat (wrap32 (Z.of_nat off))) [] :: ms'.
Proof.
  intros Hk. rewrite encode_block_meta_eq. eexists; split; [done|]. rewrite encoded_region.
  assert (E : encode_metas [mkMeta off key] = put_u32 (wrap32 (Z.of_nat off)) ++ put_u16 0 ++ key).
  { unfold encode_metas, encode_meta. cbn -[put_u32 put_u16]. rewrite app_nil_r, Hk. done. }
  unfold decode_block_meta. rewrite E, decode_metas_turn
    by (rewrite <- length_zero_iff_nil, length_app, length_put_u32; lia).
  rewrite get_put_u32. cbn [mbind option_bind]. rewrite get_put_u16. cbn [mbind option_bind].
  change (Z.to_nat (wrap16 0)) with 0. rewrite decide_False by lia. rewrite drop_0, take_0.
  destruct (decode_metas _ key) as [rest|]; cbn; [|done]. split.
  - intros [= _ Hkey _]. rewrite <- Hkey in Hk. done.
  - intros ms [= <-]. rewrite wrap32_idem. by exists rest.
Qed.

Lemma meta_key_len_wraps_witness :
  Z.of_nat (length (repeat Byte.x61 (2 ^ 16))) = (2 ^ 16)%Z /\
  exists out, encode_block_meta [mkMeta 0 (repeat Byte.x61 (2 ^ 16))] [] = Some out /\
    decode_block_meta (take (length out - length ([] : bytes) - 4) (drop (length ([] : bytes)) out)) <>
      Some [mkMeta 0 (repeat Byte.x61 (2 ^ 16))] /\
    forall ms, decode_block_meta (take (length out - length ([] : bytes) - 4) (drop (length ([] : bytes)) out)) = Some ms ->
      exists ms', ms = mkMeta (Z.to_nat (wrap32 (Z.of_nat 0))) [] :: ms'.
Proof.
  assert (Hk : Z.of_nat (length (repeat Byte.x61 (2 ^ 16))) = (2 ^ 16)%Z)
    by (rewrite repeat_length; vm_compute; reflexivity).
  split; [exact Hk|]. exact (meta_key_len_wraps 0 _ [] Hk).
Defined.

(** ** Finding the block of a key *)

Section find.
Context (metas : list BlockMeta) (key : bytes).
Hypothesis Hsorted : first_keys_sorted metas.

(** The first block whose first key is [>=], resp. [>], the key. *)
Let lb := first_index (fun m => bytes_cmp (first_key m) key <> Lt) metas.
Let ub := first_index (fun m => bytes_cmp (first_key m) key = Gt) metas.

Lemma ub_upward i j mi mj :
  i < j -> metas !! i = Some mi -> metas !! j = Some mj ->
  bytes_cmp (first_key mi) key = Gt -> bytes_cmp (first_key mj) key = Gt.
Proof using Hsorted.
  intros Hij Hi Hj. rewrite !bytes_cmp_gt_lt. intros H.
  eapply bytes_cmp_lt_trans; [apply H|].
  exact (ssorted_lookup _ metas i j mi mj Hsorted Hi Hj Hij).
Qed.

Lemma lb_upward i j mi mj :
  i < j -> metas !! i = Some mi -> metas !! j = Some mj ->
  bytes_cmp (first_key mi) key <> Lt -> bytes_cmp (first_key mj) key <> Lt.
Proof using Hsorted.
  intros Hij Hi Hj H1 H2. apply H1.
  eapply bytes_cmp_lt_trans; [|apply H2].
  exact (ssorted_lookup _ metas i j mi mj Hsorted Hi Hj Hij).
Qed.

Lemma lb_le_ub : lb <= ub.
Proof.
  destruct (decide (ub < length metas)) as [Hlt|Hge].
  - destruct (lookup_lt_is_Some_2 metas ub Hlt) as [m Hm].
    apply (first_index_le _ metas ub m Hm).
    pose proof (first_index_at _ metas m Hm). congruence.
  - pose proof (first_index_le_length (fun m => bytes_cmp (first_key m) key <> Lt) metas).
    subst lb ub. lia.
Qed.

Lemma find_loop_spec fuel left right :
  left <= lb -> ub <= right -> right <= length metas -> right - left < fuel ->
  find_loop fuel metas key left right = Some (Nat.pred ub).
Proof using Hsorted.
  revert left right. induction fuel as [|fuel IH]; intros left right Hl Hr Hn Hf; [lia|].
  pose proof lb_le_ub.
  cbn [find_loop]. case_decide as Hlt.
  - set (mid := (left + right) / 2).
    assert (left <= mid < right) by (subst mid; split;
      [apply Nat.div_le_lower_bound|apply Nat.Div0.div_lt_upper_bound]; lia).
    destruct (lookup_lt_is_Some_2 metas mid) as [m Hm]; [lia|].
    rewrite Hm, bind_Some. destruct (bytes_cmp (first_key m) key) eqn:C.
    + assert (mid < ub) by (apply (first_index_gt _ metas mid m); [apply ub_upward|done|congruence]).
      assert (ub <= S mid).
      { destruct (lookup_lt_is_Some metas (S mid)) as [_ Hs].
        destruct (decide (S mid < length metas)) as [Hs'|Hs'].
        - destruct (Hs Hs') as [m' Hm']. apply (first_index_le _ metas (S mid) m' Hm').
          apply bytes_cmp_eq in C. rewrite bytes_cmp_gt_lt, <- C.
          apply (ssorted_lookup _ metas mid (S mid) m m' Hsorted Hm Hm'). lia.
        - pose proof (first_index_le_length (fun m => bytes_cmp (first_key m) key = Gt) metas).
          subst ub. lia. }
      f_equal. lia.
    + assert (mid < lb) by (apply (first_index_gt _ metas mid m); [apply lb_upward|done|congruence]).
      apply IH; lia.
    + assert (ub <= mid) by (apply (first_index_le _ metas mid m Hm C)).
      apply IH; lia.
  - f_equal. case_decide; lia.
Qed.
End find.

(** C10: on a table whose first keys are strictly ascending,
    [find_block_idx] returns the block before the first one whose first
    key exceeds the key: the last block whose first key is [<=] the key,
    or block 0 when every first key is greater. *)
Theorem find_block_idx_spec (t : SsTable) (key : bytes) :
  first_keys_sorted (block_metas t) ->
  find_block_idx t key =
  Some (Nat.pred (first_index (fun m => bytes_cmp (first_key m) key = Gt) (block_metas t))).
Proof.
  intros Hs. unfold find_block_idx. apply find_loop_spec; [done|lia|..|lia|lia].
  apply first_index_le_length.
Qed.

Lemma find_block_idx_spec_witness :
  first_keys_sorted (block_metas (mkTable (mkFile [] 0)
    [mkMeta 0 [Byte.x01]; mkMeta 20 [Byte.x05]; mkMeta 40 [Byte.x09]] 60 0 false)) /\
  find_block_idx (mkTable (mkFile [] 0)
    [mkMeta 0 [Byte.x01]; mkMeta 20 [Byte.x05]; mkMeta 40 [Byte.x09]] 60 0 false) [Byte.x06] =
  Some (Nat.pred (first_index (fun m => bytes_cmp (first_key m) [Byte.x06] = Gt)
    [mkMeta 0 [Byte.x01]; mkMeta 20 [Byte.x05]; mkMeta 40 [Byte.x09]])).
Proof.
  assert (Hs : first_keys_sorted (block_metas (mkTable (mkFile [] 0)
    [mkMeta 0 [Byte.x01]; mkMeta 20 [Byte.x05]; mkMeta 40 [Byte.x09]] 60 0 false)))
    by decide_by_eval.
  split; [exact Hs|]. exact (find_block_idx_spec _ [Byte.x06] Hs).
Defined.

(** ** The block cache *)

(** Every block the cache holds for this table is the block [read_block]
    reads. *)
Definition cache_coherent (t : SsTable) (cache : BlockCache) : Prop :=
  forall idx b, cache !! (id t, idx) = Some b -> read_block t idx = Ok b.

(** The map laws the cache is used through, at the cache's type. *)
Lemma cache_lookup_insert_eq (cache : BlockCache) k b : <[k := b]> cache !! k = Some b.
Proof. apply lookup_insert_eq. Qed.

Lemma cache_lookup_insert_ne (cache : BlockCache) k k' b :
  k <> k' -> <[k := b]> cache !! k' = cache !! k'.
Proof. apply lookup_insert_ne. Qed.

Lemma cache_lookup_empty k : (∅ : BlockCache) !! k = None.
Proof. apply lookup_empty. Qed.

Lemma cache_insert_subseteq (cache : BlockCache) k b :
  cache !! k = None -> cache ⊆ <[k := b]> cache.
Proof. apply insert_subseteq. Qed.

(** Storing a block [read_block] returned keeps the cache coherent. *)
Lemma coherent_insert t cache idx b :
  cache_coherent t cache -> read_block t idx = Ok b ->
  cache_coherent t (<[(id t, idx) := b]> cache).
Proof.
  intros Hc Hr idx' b' Hl'. destruct (decide (idx' = idx)) as [->|Hne].
  - rewrite cache_lookup_insert_eq in Hl'. congruence.
  - rewrite cache_lookup_insert_ne in Hl' by congruence. by apply Hc.
Qed.

(** From a coherent cache, [read_block_cached] reads what [read_block]
    reads and leaves a coherent cache. *)
Lemma read_block_cached_coherent t cache idx :
  cache_coherent t cache ->
  (read_block_cached t cache idx).1 = read_block t idx /\
  cache_coherent t (read_block_cached t cache idx).2.
Proof.
  intros Hc. unfold read_block_cached. destruct (block_cache t); [|done].
  destruct (cache !! (id t, idx)) as [b|] eqn:Hl; [by split; [symmetry; apply Hc|]|].
  destruct (read_block t idx) as [b|e] eqn:Hr; [|done]. split; [done|].
  by apply coherent_insert.
Qed.

(** C11: [read_block_cached] refines [read_block]: from a coherent cache
    it returns what [read_block] returns, the cache stays coherent, it
    only grows, and a successful read leaves the block cached when the
    table has a cache. *)
Theorem read_block_cached_refines (t : SsTable) (cache : BlockCache) (idx : nat) :
  cache_coherent t cache ->
  let '(r, cache') := read_block_cached t cache idx in
  r = read_block t idx /\ cache_coherent t cache' /\ cache ⊆ cache' /\
  (forall b, r = Ok b -> block_cache t = true -> cache' !! (id t, idx) = Some b).
Proof.
  intros Hc. unfold read_block_cached.
  destruct (block_cache t) eqn:Hbc; [|repeat split; try done; congruence].
  destruct (cache !! (id t, idx)) as [b|] eqn:Hl.
  - split; [symmetry; by apply Hc|]. repeat split; try done. by intros ? [= <-].
  - destruct (read_block t idx) as [b|e] eqn:Hr; [|repeat split; done].
    split; [done|]. split; [by apply coherent_insert|split].
    + by apply cache_insert_subseteq.
    + intros b' [= <-] _. apply cache_lookup_insert_eq.
Qed.

Lemma read_block_cached_refines_witness :
  cache_coherent (mkTable (mkFile [] 0) [] 0 0 true) ∅ /\
  let '(r, cache') := read_block_cached (mkTable (mkFile [] 0) [] 0 0 true) ∅ 0 in
  r = read_block (mkTable (mkFile [] 0) [] 0 0 true) 0 /\
  cache_coherent (mkTable (mkFile [] 0) [] 0 0 true) cache' /\ ∅ ⊆ cache' /\
  (forall b, r = Ok b -> block_cache (mkTable (mkFile [] 0) [] 0 0 true) = true ->
             cache' !! (id (mkTable (mkFile [] 0) [] 0 0 true), 0) = Some b).
Proof.
  assert (Hc : cache_coherent (mkTable (mkFile [] 0) [] 0 0 true) ∅)
    by (intros ? ? H; by rewrite cache_lookup_empty in H).
  split; [exact Hc|]. exact (read_block_cached_refines _ _ 0 Hc).
Defined.

End Table.
