(* ===== verification/TableBuilder.v ===== *)
(** * TableBuilder: building an SSTable file
      (src/mini-lsm-starter/src/table/builder.rs)

    The builder's state is the Rust struct: the block budget, the block
    builder of the block in progress, the index entries of the finished
    blocks, the encoded finished blocks ([data]) and the first key of the
    block in progress.  [add] tries the block builder; on refusal
    [build_block] finishes the block (index entry at the current data
    length, encoded block appended, first key taken) and the entry is
    added to a fresh block, the [assert!] on that second add being a
    panic ([None]).  [build] finishes the last block, appends the index
    and its offset with [encode_block_meta], and creates the file.

    The abstract view ([tb_repr]) is the list of finished blocks, each a
    list of entries, and the entries of the block in progress.
    Theorems: [add] appends the entry to the block in progress or starts
    a new block with it, and panics exactly when the entry does not fit
    an empty block; [build] produces a file that [SsTable::open] reads
    back as the same table, whose blocks [read_block] returns. *)

From stdpp Require Import gmap.
From S2P Require Import Prelude Codec Block BlockBuilder Table.

Module TableBuilder.

Record SsTableBuilder := mkTB {
  block_size : nat;
  block_builder : BlockBuilder.BlockBuilder;
  meta : list Table.BlockMeta;
  data : bytes;
  first_key : bytes;
}.

(** [SsTableBuilder::new] *)
Definition new (block_size : nat) : SsTableBuilder :=
  mkTB block_size (BlockBuilder.new block_size) [] [] [].

(** [SsTableBuilder::build_block]: replace the block builder by a fresh
    one, encode the old one's block, record its index entry at the
    current data length with the first key (taken, leaving it empty). *)
Definition build_block (tb : SsTableBuilder) : SsTableBuilder :=
  let block_data := Block.encode (BlockBuilder.build (block_builder tb)) in
  let m := Table.mkMeta (length (data tb)) (first_key tb) in
  mkTB (block_size tb) (BlockBuilder.new (block_size tb))
       (meta tb ++ [m]) (data tb ++ block_data) [].

(** [SsTableBuilder::add]: [None] is the panic of the [assert!]. *)
Definition add (tb : SsTableBuilder) (key value : bytes) : option SsTableBuilder :=
  let tb := if decide (first_key tb = []) then
              mkTB (block_size tb) (block_builder tb) (meta tb) (data tb) key
            else tb in
  let '(bb, ok) := BlockBuilder.add (block_builder tb) key value in
  if ok then Some (mkTB (block_size tb) bb (meta tb) (data tb) (first_key tb))
  else
    let tb := build_block tb in
    let tb := mkTB (block_size tb) (block_builder tb) (meta tb) (data tb) key in
    let '(bb, ok) := BlockBuilder.add (block_builder tb) key value in
    if ok then Some (mkTB (block_size tb) bb (meta tb) (data tb) (first_key tb))
    else None.

(** [SsTableBuilder::estimated_size] *)
Definition estimated_size (tb : SsTableBuilder) : nat := length (data tb).

(** [SsTableBuilder::build]: the file is the blocks, the index and the
    index offset; the table keeps the same index. *)
Definition build (tb : SsTableBuilder) (id : nat) (block_cache : bool) : res Table.SsTable :=
  let tb := build_block tb in
  let buf := data tb in
  let meta_offset := length buf in
  buf ← of_panic (Table.encode_block_meta (meta tb) buf);
  file ← Table.create buf;
  Ok (Table.mkTable file (meta tb) meta_offset id block_cache).

(** [SsTableBuilder::build_for_test] (test builds only). *)
Definition build_for_test (tb : SsTableBuilder) : res Table.SsTable := build tb 0 false.

(** The caller's loop: [add] each entry in turn; [None] when one panics. *)
Fixpoint add_all (tb : SsTableBuilder) (kvs : list entry) : option SsTableBuilder :=
  match kvs with
  | [] => Some tb
  | (k, v) :: kvs => tb ← add tb k v; add_all tb kvs
  end.

(** ** The blocks a table builder holds *)

(** The first key of a block's entries, as [first_key] records it. *)
Definition block_first_key (es : list entry) : bytes :=
  match es with [] => [] | e :: _ => e.1 end.

(** The bytes of a finished block. *)
Definition block_bytes (es : list entry) : bytes := Block.encode (BlockBuilder.of_entries es).

Definition blocks_data (blocks : list (list entry)) : bytes := mjoin (block_bytes <$> blocks).

(** The index entries of [blocks] laid out from byte [off]. *)
Fixpoint metas_of (off : nat) (blocks : list (list entry)) : list Table.BlockMeta :=
  match blocks with
  | [] => []
  | b :: bs => Table.mkMeta off (block_first_key b) :: metas_of (off + length (block_bytes b)) bs
  end.

(** A table builder holds the finished [blocks] and the entries [cur]
    of the block in progress; finished blocks are non-empty, keys are
    non-empty and entries are representable. *)
Definition tb_repr (tb : SsTableBuilder) (blocks : list (list entry)) (cur : list entry) : Prop :=
  BlockBuilder.builder_inv (block_size tb) (block_builder tb) cur /\
  meta tb = metas_of 0 blocks /\
  data tb = blocks_data blocks /\
  first_key tb = block_first_key cur /\
  Forall (fun e => e.1 <> []) cur /\
  Forall (fun b => b <> [] /\ Forall (fun e => e.1 <> []) b /\ BlockBuilder.entries_ok b) blocks.

(** The entry fits the 16-bit sums of a block builder with this budget. *)
Definition entry_fits (bs : nat) (key value : bytes) : Prop :=
  (Z.of_nat (bs + length key + length value + 6) < 2 ^ 16)%Z.

#[export] Instance entry_fits_dec bs k v : Decision (entry_fits bs k v).
Proof. unfold entry_fits. apply _. Defined.

Arguments block_bytes : simpl never.

Lemma blocks_data_cons b blocks : blocks_data (b :: blocks) = block_bytes b ++ blocks_data blocks.
Proof. done. Qed.

Lemma blocks_data_snoc blocks b :
  blocks_data (blocks ++ [b]) = blocks_data blocks ++ block_bytes b.
Proof. unfold blocks_data. rewrite fmap_app, join_app. simpl. by rewrite app_nil_r. Qed.

Lemma metas_of_snoc off blocks b :
  metas_of off (blocks ++ [b]) =
  metas_of off blocks ++ [Table.mkMeta (off + length (blocks_data blocks)) (block_first_key b)].
Proof.
  revert off; induction blocks as [|b' bs IH]; intros off; cbn [metas_of app].
  - by rewrite Nat.add_0_r.
  - rewrite IH, blocks_data_cons, length_app, Nat.add_assoc. done.
Qed.

Lemma tb_repr_new bs : tb_repr (new bs) [] [].
Proof.
  split; [|repeat split; constructor].
  split; [done|]. split; [done|]. split; [|by left]. split; [constructor|simpl; lia].
Qed.

Lemma fits_of_inv n bb es key value :
  BlockBuilder.builder_inv n bb es -> entry_fits n key value ->
  BlockBuilder.fits_u16 bb key value.
Proof.
  intros ((Hd & _) & _ & _ & [->|Hb]) Hf; unfold entry_fits, BlockBuilder.fits_u16 in *.
  - rewrite Hd. simpl. lia.
  - lia.
Qed.

Lemma builder_inv_new_block n : BlockBuilder.builder_inv n (BlockBuilder.new n) [].
Proof. split; [done|]. split; [done|]. split; [|by left]. split; [constructor|simpl; lia]. Qed.

(** The block in progress is the block its builder builds. *)
Lemma build_of_repr bb es :
  BlockBuilder.repr bb es -> BlockBuilder.build bb = BlockBuilder.of_entries es.
Proof. intros (Hd & Ho & _). unfold BlockBuilder.build. by rewrite Hd, Ho. Qed.

(** [add] records the first key of a block when the block starts. *)
Lemma add_first_key tb cur key value :
  first_key tb = block_first_key cur -> Forall (fun e => e.1 <> []) cur ->
  (if decide (first_key tb = []) then
     mkTB (block_size tb) (block_builder tb) (meta tb) (data tb) key else tb) =
  mkTB (block_size tb) (block_builder tb) (meta tb) (data tb) (block_first_key (cur ++ [(key, value)])).
Proof.
  intros Hf Hne. destruct tb as [a b c d e]; cbn [first_key block_size block_builder meta data] in *.
  subst e. destruct cur as [|e0 cur]; cbn; [done|].
  rewrite decide_False; [done|]. by apply Forall_cons in Hne as [? _].
Qed.

Lemma block_first_key_app cur x : cur <> [] -> block_first_key (cur ++ x) = block_first_key cur.
Proof. by destruct cur. Qed.

(** [add] on the fresh builder of a new block. *)
Lemma fresh_add n key value :
  entry_fits n key value ->
  let '(bb, ok) := BlockBuilder.add (BlockBuilder.new n) key value in
  (ok = true <-> BlockBuilder.entry_len (key, value) + 2 < n) /\
  (ok = true -> BlockBuilder.builder_inv n bb [(key, value)]).
Proof.
  intros Hfit.
  assert (Hfu0 : BlockBuilder.fits_u16 (BlockBuilder.new n) key value)
    by (unfold entry_fits, BlockBuilder.fits_u16 in *; simpl; lia).
  assert (Hr0 : BlockBuilder.repr (BlockBuilder.new n) []) by done.
  pose proof (BlockBuilder.add_step _ _ _ _ Hr0 Hfu0) as Hadd0.
  pose proof (BlockBuilder.builder_inv_add _ _ _ _ _ (builder_inv_new_block n) Hfu0) as Hinv0.
  destruct (BlockBuilder.add (BlockBuilder.new n) key value) as [bb2 ok2].
  cbn [fst snd app] in Hinv0. destruct Hadd0 as (Hiff0 & _ & _).
  unfold BlockBuilder.new in Hiff0. cbn [BlockBuilder.data BlockBuilder.block_size length] in Hiff0.
  split; [|by intros ->]. rewrite Hiff0. lia.
Qed.

Lemma add_cases (tb : SsTableBuilder) (blocks : list (list entry)) (cur : list entry)
    (key value : bytes) :
  tb_repr tb blocks cur -> key <> [] -> entry_fits (block_size tb) key value ->
  match add tb key value with
  | None => block_size tb <= BlockBuilder.entry_len (key, value) + 2
  | Some tb' =>
      BlockBuilder.entry_len (key, value) + 2 < block_size tb /\
      block_size tb' = block_size tb /\
      ((length (BlockBuilder.entries_data cur) + BlockBuilder.entry_len (key, value) + 2
          < block_size tb /\ tb_repr tb' blocks (cur ++ [(key, value)])) \/
       (block_size tb <= length (BlockBuilder.entries_data cur) + BlockBuilder.entry_len (key, value) + 2 /\
        cur <> [] /\ tb_repr tb' (blocks ++ [cur]) [(key, value)]))
  end.
Proof.
  intros (Hinv & Hm & Hd & Hf & Hne & Hbl) Hk Hfit.
  pose proof (fits_of_inv _ _ _ _ _ Hinv Hfit) as Hfu. pose proof Hinv as (Hr & Hbs & Hok & Hb).
  unfold add. rewrite (add_first_key tb cur key value Hf Hne). cbn [block_builder block_size meta data first_key].
  pose proof (BlockBuilder.add_step _ _ _ _ Hr Hfu) as Hadd.
  pose proof (BlockBuilder.builder_inv_add _ _ _ _ _ Hinv Hfu) as Hinv'.
  destruct (BlockBuilder.add (block_builder tb) key value) as [bb ok] eqn:E.
  cbn [fst snd] in Hinv'. destruct Hadd as (Hiff & Htrue & Hfalse). destruct ok.
  - pose proof (proj1 Hiff eq_refl) as Hc. split; [lia|]. split; [done|]. left.
    split; [rewrite <- (proj1 Hr), <- Hbs; exact Hc|]. split; [done|]. split; [done|]. split; [done|]. split; [done|].
    split; [apply Forall_app; split; [done|by constructor]|done].
  - rewrite (Hfalse eq_refl) in *. unfold build_block. cbn [block_builder block_size meta data first_key].
    pose proof (fresh_add (block_size tb) key value Hfit) as Hfresh.
    destruct (BlockBuilder.add (BlockBuilder.new (block_size tb)) key value) as [bb2 ok2].
    destruct Hfresh as [Hiff0 Hinv0]. destruct ok2.
    + split; [by apply Hiff0|]. split; [reflexivity|]. right.
      split; [destruct (decide (length (BlockBuilder.entries_data cur) + BlockBuilder.entry_len (key, value) + 2
                  < block_size tb)) as [Hc|Hc]; [|lia];
              assert (false = true) by (apply Hiff; rewrite (proj1 Hr), Hbs; lia); done|].
      assert (cur <> []) as Hcur.
      { intros ->. destruct Hr as (Hd0 & _). rewrite Hd0, Hbs in Hiff. pose proof (proj1 Hiff0 eq_refl).
        assert (false = true) by (apply Hiff; change (length (BlockBuilder.entries_data [])) with 0; lia).
        done. }
      split; [done|]. split; [by apply Hinv0|]. split; [|split; [|split; [|split]]].
      * by rewrite Hm, metas_of_snoc, Hd, block_first_key_app.
      * rewrite Hd, blocks_data_snoc. unfold block_bytes. by rewrite (build_of_repr _ _ Hr).
      * done.
      * by constructor.
      * apply Forall_app. split; [done|]. by constructor; [split|constructor].
    + destruct (decide (block_size tb <= BlockBuilder.entry_len (key, value) + 2)); [done|].
      assert (false = true) by (apply Hiff0; lia). done.
Qed.

(** C15: [SsTableBuilder::add] with a non-empty key whose sums fit 16
    bits panics exactly when the entry does not fit an empty block;
    otherwise it appends the entry to the block in progress exactly when
    the block's data, the entry and the 2-byte count stay under the
    budget, and else finishes that (non-empty) block and starts a new one
    with the entry. *)
Theorem add_spec (tb : SsTableBuilder) (blocks : list (list entry)) (cur : list entry)
    (key value : bytes) :
  tb_repr tb blocks cur -> key <> [] -> entry_fits (block_size tb) key value ->
  match add tb key value with
  | None => block_size tb <= BlockBuilder.entry_len (key, value) + 2
  | Some tb' =>
      BlockBuilder.entry_len (key, value) + 2 < block_size tb /\
      block_size tb' = block_size tb /\
      ((length (BlockBuilder.entries_data cur) + BlockBuilder.entry_len (key, value) + 2
          < block_size tb /\ tb_repr tb' blocks (cur ++ [(key, value)])) \/
       (block_size tb <= length (BlockBuilder.entries_data cur) + BlockBuilder.entry_len (key, value) + 2 /\
        cur <> [] /\ tb_repr tb' (blocks ++ [cur]) [(key, value)]))
  end.
Proof. apply add_cases. Qed.

Lemma add_spec_witness :
  tb_repr (new 20) [] [] /\ [Byte.x01] <> [] /\ entry_fits (block_size (new 20)) [Byte.x01] [Byte.x02] /\
  match add (new 20) [Byte.x01] [Byte.x02] with
  | None => block_size (new 20) <= BlockBuilder.entry_len ([Byte.x01], [Byte.x02]) + 2
  | Some tb' =>
      BlockBuilder.entry_len ([Byte.x01], [Byte.x02]) + 2 < block_size (new 20) /\
      block_size tb' = block_size (new 20) /\
      ((length (BlockBuilder.entries_data []) + BlockBuilder.entry_len ([Byte.x01], [Byte.x02]) + 2
          < block_size (new 20) /\ tb_repr tb' [] ([] ++ [([Byte.x01], [Byte.x02])])) \/
       (block_size (new 20) <= length (BlockBuilder.entries_data []) + BlockBuilder.entry_len ([Byte.x01], [Byte.x02]) + 2 /\
        [] <> @nil entry /\ tb_repr tb' ([] ++ [[]]) [([Byte.x01], [Byte.x02])]))
  end.
Proof.
  assert (Hf : entry_fits (block_size (new 20)) [Byte.x01] [Byte.x02]) by decide_by_eval.
  assert (Hk : [Byte.x01] <> []) by discriminate.
  split; [apply tb_repr_new|]. split; [exact Hk|]. split; [exact Hf|].
  exact (add_spec (new 20) [] [] [Byte.x01] [Byte.x02] (tb_repr_new 20) Hk Hf).
Defined.

(** ** Reading the built table *)

Lemma length_metas_of off blocks : length (metas_of off blocks) = length blocks.
Proof. revert off; induction blocks; intros off; simpl; auto. Qed.

Lemma blocks_data_take_S blocks i es :
  blocks !! i = Some es ->
  blocks_data (take (S i) blocks) = blocks_data (take i blocks) ++ block_bytes es.
Proof. intros H. by rewrite (take_S_r _ _ _ H), blocks_data_snoc. Qed.

Lemma blocks_data_take_drop blocks i :
  blocks_data blocks = blocks_data (take i blocks) ++ blocks_data (drop i blocks).
Proof. unfold blocks_data. by rewrite <- join_app, <- fmap_app, take_drop. Qed.

(** The index entry of block [i] is at the length of the blocks before it. *)
Lemma lookup_metas_of off blocks i es :
  blocks !! i = Some es ->
  metas_of off blocks !! i =
  Some (Table.mkMeta (off + length (blocks_data (take i blocks))) (block_first_key es)).
Proof.
  revert off i; induction blocks as [|b bs IH]; intros off [|i] H; try done.
  - injection H as ->. simpl. by rewrite Nat.add_0_r.
  - cbn [metas_of lookup list_lookup]. simpl in H. rewrite (IH _ _ H).
    rewrite firstn_cons, blocks_data_cons, length_app, Nat.add_assoc. done.
Qed.

(** The blocks' index entries fit the 4-byte offset and 2-byte key
    length fields when all the blocks fit 32 bits. *)
Lemma metas_ok_of off blocks :
  Forall BlockBuilder.entries_ok blocks ->
  (Z.of_nat (off + length (blocks_data blocks)) < 2 ^ 32)%Z ->
  Table.metas_ok (metas_of off blocks).
Proof.
  revert off; induction blocks as [|b bs IH]; intros off Hok Hlen; [constructor|].
  apply Forall_cons in Hok as [Hb Hok]. rewrite blocks_data_cons, length_app in Hlen.
  constructor.
  - split; cbn [Table.offset Table.first_key]; [lia|].
    destruct b as [|e b]; [simpl; lia|]. destruct Hb as [Hb _].
    apply Forall_cons in Hb as [[? _] _]. done.
  - apply IH; [done|]. lia.
Qed.

(** [build]: the file is the blocks, finished block included, then the
    index of the blocks and its offset. *)
Lemma build_eq tb blocks cur id bc :
  tb_repr tb blocks cur ->
  let bs := blocks ++ [cur] in
  let out := blocks_data bs ++ Table.encode_metas (metas_of 0 bs) ++
             put_u32 (wrap32 (Z.of_nat (length (blocks_data bs)))) in
  build tb id bc =
  Ok (Table.mkTable (Table.mkFile out (length out)) (metas_of 0 bs) (length (blocks_data bs)) id bc).
Proof.
  intros (Hinv & Hm & Hd & Hf & _) bs out. destruct Hinv as (Hr & _).
  unfold build, build_block. cbn [meta data].
  assert (Hmeta : meta tb ++ [Table.mkMeta (length (data tb)) (first_key tb)] = metas_of 0 bs)
    by (subst bs; by rewrite metas_of_snoc, Hm, Hd, Hf).
  assert (Hdata : data tb ++ Block.encode (BlockBuilder.build (block_builder tb)) = blocks_data bs)
    by (subst bs; by rewrite blocks_data_snoc, Hd, (build_of_repr _ _ Hr)).
  rewrite Hmeta, Hdata, Table.encode_block_meta_eq. done.
Qed.

(** [read_block] on the table of [blocks] whose file starts with their
    bytes returns block [i]. *)
Lemma read_block_of_blocks blocks rest i es id bc :
  Forall BlockBuilder.entries_ok blocks -> blocks !! i = Some es ->
  let out := blocks_data blocks ++ rest in
  Table.read_block (Table.mkTable (Table.mkFile out (length out)) (metas_of 0 blocks)
                      (length (blocks_data blocks)) id bc) i =
  Ok (BlockBuilder.of_entries es).
Proof.
  intros Hok Hi out. unfold Table.read_block. cbn [Table.block_metas Table.block_meta_offset Table.file].
  rewrite (lookup_metas_of 0 blocks i es Hi). cbn [of_panic]. rewrite res_bind_Ok.
  cbn [Table.offset]. rewrite Nat.add_0_l.
  set (off := length (blocks_data (take i blocks))).
  assert (Hend : match metas_of 0 blocks !! (i + 1) with
                 | Some m => Table.offset m | None => length (blocks_data blocks) end =
                 off + length (block_bytes es)).
  { destruct (blocks !! (i + 1)) as [es'|] eqn:E.
    - rewrite (lookup_metas_of 0 blocks _ es' E). cbn [Table.offset].
      rewrite Nat.add_1_r, (blocks_data_take_S _ _ _ Hi), length_app. done.
    - rewrite (proj2 (lookup_ge_None _ _)) by (rewrite length_metas_of; by apply lookup_ge_None).
      apply lookup_ge_None in E. pose proof (lookup_lt_Some _ _ _ Hi).
      assert (Htk : take (S i) blocks = blocks) by (apply take_ge; lia).
      by rewrite <- Htk, (blocks_data_take_S _ _ _ Hi), length_app. }
  rewrite Hend, decide_False by lia.
  replace (off + length (block_bytes es) - off) with (length (block_bytes es)) by lia.
  assert (Hsplit : out = blocks_data (take i blocks) ++ block_bytes es ++
                         blocks_data (drop (S i) blocks) ++ rest).
  { subst out. rewrite (blocks_data_take_drop blocks i), <- app_assoc.
    rewrite (drop_S _ _ _ Hi), blocks_data_cons, <- app_assoc. done. }
  unfold Table.read. cbn [Table.contents].
  rewrite decide_False by (subst off; rewrite Hsplit, !length_app; lia).
  rewrite res_bind_Ok, Hsplit. subst off. rewrite drop_app_length, take_app_length.
  unfold block_bytes, BlockBuilder.of_entries.
  rewrite Block.decode_encode_mk; [done|].
  apply BlockBuilder.of_entries_wf. by eapply Forall_lookup_1.
Qed.

Lemma tb_repr_blocks_ok tb blocks cur :
  tb_repr tb blocks cur -> Forall BlockBuilder.entries_ok (blocks ++ [cur]).
Proof.
  intros ((_ & _ & Hok & _) & _ & _ & _ & _ & Hbl). apply Forall_app. split.
  - eapply Forall_impl; [exact Hbl|]. by intros ? (_ & _ & ?).
  - by constructor.
Qed.

(** [build] and [open] of the builder's blocks. *)
Lemma build_open_blocks (tb : SsTableBuilder) (blocks : list (list entry)) (cur : list entry)
    (id : nat) (bc : bool) :
  tb_repr tb blocks cur ->
  (Z.of_nat (length (blocks_data (blocks ++ [cur]))) < 2 ^ 32)%Z ->
  exists t, build tb id bc = Ok t /\ Table.open id bc (Table.file t) = Ok t /\
    Table.block_metas t = metas_of 0 (blocks ++ [cur]) /\
    forall i es, (blocks ++ [cur]) !! i = Some es ->
      Table.read_block t i = Ok (BlockBuilder.of_entries es).
Proof.
  intros Hr Hlen. pose proof (tb_repr_blocks_ok _ _ _ Hr) as Hok.
  eexists. split; [exact (build_eq tb blocks cur id bc Hr)|]. cbn [Table.file Table.block_metas].
  split; [|split; [done|]].
  - apply Table.open_encoded; [|done]. apply metas_ok_of; [done|]. lia.
  - intros i es Hi. by apply read_block_of_blocks.
Qed.

(** C16: [SsTableBuilder::build] finishes the block in progress and
    writes a file that [SsTable::open] reads back as the very table
    [build] returns (same index, same index offset); its index lists the
    blocks in order and [read_block] returns each block the builder
    filled, provided the blocks' bytes fit the 32-bit offsets. *)
Theorem build_open_read (tb : SsTableBuilder) (blocks : list (list entry)) (cur : list entry)
    (id : nat) (bc : bool) :
  tb_repr tb blocks cur ->
  (Z.of_nat (length (blocks_data (blocks ++ [cur]))) < 2 ^ 32)%Z ->
  exists t, build tb id bc = Ok t /\ Table.open id bc (Table.file t) = Ok t /\
    Table.block_metas t = metas_of 0 (blocks ++ [cur]) /\
    forall i es, (blocks ++ [cur]) !! i = Some es ->
      Table.read_block t i = Ok (BlockBuilder.of_entries es).
Proof. apply build_open_blocks. Qed.

Lemma build_open_read_witness :
  tb_repr (new 20) [] [] /\ (Z.of_nat (length (blocks_data ([] ++ [[]]))) < 2 ^ 32)%Z /\
  exists t, build (new 20) 3 false = Ok t /\ Table.open 3 false (Table.file t) = Ok t /\
    Table.block_metas t = metas_of 0 ([] ++ [[]]) /\
    forall i es, ([] ++ [[]]) !! i = Some es ->
      Table.read_block t i = Ok (BlockBuilder.of_entries es).
Proof.
  assert (Hb : (Z.of_nat (length (blocks_data ([] ++ [[]]))) < 2 ^ 32)%Z) by (vm_compute; reflexivity).
  split; [apply tb_repr_new|]. split; [exact Hb|].
  exact (build_open_read (new 20) [] [] 3 false (tb_repr_new 20) Hb).
Defined.

(** ** Building a table from a list of entries *)

(** Entries the builder accepts with budget [bs]: a non-empty key, sums
    that fit 16 bits, and an entry that fits an empty block. *)
Definition entry_ok (bs : nat) (kv : entry) : Prop :=
  kv.1 <> [] /\ entry_fits bs kv.1 kv.2 /\ BlockBuilder.entry_len kv + 2 < bs.

#[export] Instance entry_ok_dec bs kv : Decision (entry_ok bs kv).
Proof. unfold entry_ok. apply _. Defined.

Lemma add_all_repr tb blocks cur kvs :
  tb_repr tb blocks cur -> Forall (entry_ok (block_size tb)) kvs ->
  exists tb' blocks' cur', add_all tb kvs = Some tb' /\ block_size tb' = block_size tb /\
    tb_repr tb' blocks' cur' /\ mjoin blocks' ++ cur' = mjoin blocks ++ cur ++ kvs /\
    (cur <> [] \/ kvs <> [] -> cur' <> []).
Proof.
  revert tb blocks cur; induction kvs as [|[k v] kvs IH]; intros tb blocks cur Hr Hok.
  - exists tb, blocks, cur. rewrite app_nil_r. split_and!; try done. by intros [?|?].
  - apply Forall_cons in Hok as [(Hk & Hfit & Hlt) Hok].
    pose proof (add_cases tb blocks cur k v Hr Hk Hfit) as Hadd. cbn [add_all].
    destruct (add tb k v) as [tb1|]; [|simpl in *; lia].
    destruct Hadd as (_ & Hbs & [[_ Hr1] | (_ & _ & Hr1)]); rewrite <- Hbs in Hok;
      destruct (IH _ _ _ Hr1 Hok) as (tb' & blocks' & cur' & Ha & Hbs' & Hr' & Hj & Hc');
      exists tb', blocks', cur'; (split; [done|]); (split; [congruence|]); (split; [done|]);
      (split; [|intros _; apply Hc'; left; by destruct cur]);
      rewrite Hj; [by rewrite <- !app_assoc|].
    rewrite join_app. simpl. by rewrite !app_nil_r, <- !app_assoc.
Qed.

(** Bytes an entry takes in a block: the entry and its offset. *)
Definition entry_size (e : entry) : nat := BlockBuilder.entry_len e + 2.

Lemma length_block_bytes es :
  length (block_bytes es) = sum_list_with entry_size es + 2.
Proof.
  unfold block_bytes, BlockBuilder.of_entries. rewrite Block.length_encode. cbn [Block.data Block.offsets].
  rewrite BlockBuilder.length_entries_data, BlockBuilder.length_entry_offsets.
  induction es as [|e es IH]; [done|]. rewrite fmap_cons. cbn [sum_list sum_list_with length] in *.
  unfold entry_size at 1. change (id (BlockBuilder.entry_len e)) with (BlockBuilder.entry_len e). lia.
Qed.

Lemma sum_list_with_ge es : 2 * length es <= sum_list_with entry_size es.
Proof. induction es as [|e es IH]; cbn [sum_list_with length]; [lia|]. unfold entry_size at 1. lia. Qed.

(** Non-empty blocks take at most four bytes per entry beyond the entries. *)
Lemma length_blocks_data_le blocks :
  Forall (fun b => b <> []) blocks ->
  length (blocks_data blocks) <= sum_list_with (fun e => entry_size e + 2) (mjoin blocks).
Proof.
  induction blocks as [|b bs IH]; intros Hne; [simpl; lia|].
  apply Forall_cons in Hne as [Hb Hne]. rewrite blocks_data_cons, length_app, length_block_bytes.
  change (mjoin (b :: bs)) with (b ++ mjoin bs). rewrite sum_list_with_app. specialize (IH Hne).
  destruct b as [|e b]; [done|]. clear -IH. cbn [sum_list_with length] in *.
  pose proof (sum_list_with_ge b).
  assert (sum_list_with (fun e => entry_size e + 2) b = sum_list_with entry_size b + 2 * length b)
    by (clear; induction b; cbn [sum_list_with length]; lia).
  lia.
Qed.

(** The bytes of the finished blocks and the last block. *)
Lemma length_table_blocks_le blocks cur :
  Forall (fun b => b <> []) blocks ->
  length (blocks_data (blocks ++ [cur])) <=
  sum_list_with (fun e => entry_size e + 2) (mjoin blocks ++ cur) + 2.
Proof.
  intros Hne. rewrite blocks_data_snoc, length_app, length_block_bytes, sum_list_with_app.
  pose proof (length_blocks_data_le _ Hne).
  assert (sum_list_with entry_size cur <= sum_list_with (fun e => entry_size e + 2) cur)
    by (clear; induction cur; cbn [sum_list_with]; lia).
  lia.
Qed.

(** C17: starting from [SsTableBuilder::new], adding entries the builder
    accepts never panics; [build] then writes a file that [SsTable::open]
    reads back as the table [build] returned, and the table's blocks,
    read with [read_block] in index order, hold exactly the entries
    added, in order, provided the file's blocks fit 32-bit offsets. *)
Theorem build_table_from_entries (bs : nat) (kvs : list entry) (id : nat) (bc : bool) :
  Forall (entry_ok bs) kvs ->
  (Z.of_nat (sum_list_with (fun e => entry_size e + 2) kvs + 2)%nat < 2 ^ 32)%Z ->
  exists tb blks t,
    add_all (new bs) kvs = Some tb /\ build tb id bc = Ok t /\
    Table.open id bc (Table.file t) = Ok t /\
    length (Table.block_metas t) = length blks /\ mjoin blks = kvs /\
    forall i es, blks !! i = Some es -> Table.read_block t i = Ok (BlockBuilder.of_entries es).
Proof.
  intros Hok Hlen.
  destruct (add_all_repr (new bs) [] [] kvs (tb_repr_new bs) Hok)
    as (tb & blocks & cur & Ha & _ & Hr & Hj0 & _).
  assert (Hj : mjoin blocks ++ cur = kvs) by (rewrite Hj0; done).
  assert (Hne : Forall (fun b => b <> []) blocks)
    by (eapply Forall_impl; [apply Hr|]; by intros ? [? _]).
  pose proof (length_table_blocks_le _ cur Hne) as Hle. rewrite Hj in Hle.
  destruct (build_open_blocks tb blocks cur id bc Hr ltac:(lia)) as (t & Hb & Ho & Hm & Hrd).
  exists tb, (blocks ++ [cur]), t. split; [done|]. split; [done|]. split; [done|].
  split; [by rewrite Hm, length_metas_of|]. split; [|done].
  rewrite join_app. simpl. by rewrite app_nil_r.
Qed.

Lemma build_table_from_entries_witness :
  let kvs := [([Byte.x01], [Byte.x0a]); ([Byte.x02], [Byte.x0b]); ([Byte.x03], [Byte.x0c]);
              ([Byte.x04], [Byte.x0d]); ([Byte.x05], [Byte.x0e])] in
  Forall (entry_ok 20) kvs /\
  (Z.of_nat (sum_list_with (fun e => entry_size e + 2) kvs + 2)%nat < 2 ^ 32)%Z /\
  exists tb blks t,
    add_all (new 20) kvs = Some tb /\ build tb 1 true = Ok t /\
    Table.open 1 true (Table.file t) = Ok t /\
    length (Table.block_metas t) = length blks /\ mjoin blks = kvs /\
    forall i es, blks !! i = Some es -> Table.read_block t i = Ok (BlockBuilder.of_entries es).
Proof.
  intros kvs.
  assert (Hok : Forall (entry_ok 20) kvs) by decide_by_eval.
  assert (Hb : (Z.of_nat (sum_list_with (fun e => entry_size e + 2) kvs + 2)%nat < 2 ^ 32)%Z)
    by (vm_compute; reflexivity).
  split; [exact Hok|]. split; [exact Hb|].
  exact (build_table_from_entries 20 kvs 1 true Hok Hb).
Defined.

(** [add] records a block's first key only while [first_key] is empty, so
    a block that starts with the empty key is indexed under the key of
    its second entry: the index entry is not the block's first key. *)
Example empty_key_first_indexed_late :
  (tb ← of_panic (add_all (new 100) [([], [Byte.x61]); ([Byte.x02], [Byte.x62])]);
   t ← build tb 1 false;
   Ok (Table.block_metas t)) = Ok [Table.mkMeta 0 [Byte.x02]].
Proof. vm_compute. reflexivity. Qed.

End TableBuilder.
