(* ===== verification/StorageIterator.v ===== *)
(** * StorageIterator: the iterator capability contract

    The [StorageIterator] trait (src/mini-lsm-starter/src/iterators.rs
    is not among the sources; the contract is spec §6) is a class with
    the trait's [key], [value], [is_valid] and [next]; [next] returns the
    new state with the [Result] of the call, so the state an error
    leaves behind is part of the model.  The class has one more member,
    [remaining], the entries from the current one to the end: the
    abstract view of the iterator.  It is what the merge iterators are
    proved against, and it bounds their loops.

    [IterSpec] states what an iterator promises under its invariant:
    valid exactly when entries remain, [key]/[value] show the first of
    them, a successful [next] drops it and keeps the invariant, and the
    keys remain strictly ascending.  [IterReliable] adds that [next] on a
    valid iterator succeeds.  [collect] is a caller's loop, proved to
    return the remaining entries of a reliable iterator; [advance n]
    calls [next] [n] times, proved to reach the end of a reliable
    iterator after exactly as many calls as it has entries left.

    Instances: the block iterator of [BlockIterator] (its [next] never
    fails on a block made of entries) and [VecIterator], a vector of
    entries that can be told to fail at a position, the test double the
    merge theorems' examples use; its invariant asks it never to fail.
    [FlakyVec] is the same vector with sorted keys as its only invariant,
    the source that fails while keeping [IterSpec]. *)

From S2P Require Import Prelude Codec Block BlockBuilder BlockIterator.

Module StorageIterator.

Class StorageIterator (I : Type) := {
  key : I -> bytes;
  value : I -> bytes;
  is_valid : I -> bool;
  next : I -> I * res unit;
  remaining : I -> list entry;
}.

Class IterSpec (I : Type) `{!StorageIterator I} := {
  iter_inv : I -> Prop;
  inv_valid it : iter_inv it -> is_valid it = bool_decide (remaining it <> []);
  inv_head it e rest : iter_inv it -> remaining it = e :: rest -> key it = e.1 /\ value it = e.2;
  inv_next it it' : iter_inv it -> is_valid it = true -> next it = (it', Ok ()) ->
    iter_inv it' /\ remaining it' = tail (remaining it);
  inv_sorted it : iter_inv it -> keys_sorted (remaining it);
}.

Class IterReliable (I : Type) `{IterSpec I} : Prop :=
  next_reliable it : iter_inv it -> is_valid it = true -> (next it).2 = Ok ().

(** A caller's loop: collect the entries while the iterator is valid. *)
Fixpoint collect {I} `{!StorageIterator I} (fuel : nat) (it : I) : res (list entry) :=
  match fuel with
  | O => Err EFuel
  | S fuel' =>
      if is_valid it then
        let '(it', r) := next it in
        _ ← r;
        rest ← collect fuel' it';
        Ok ((key it, value it) :: rest)
      else Ok []
  end.

(** A caller that calls [next] [n] times, propagating the first error
    with [?]: the loop of a scan that skips [n] entries. *)
Fixpoint advance {I} `{!StorageIterator I} (n : nat) (it : I) : I * res unit :=
  match n with
  | O => (it, Ok ())
  | S n' =>
      let '(it', r) := next it in
      match r with
      | Ok _ => advance n' it'
      | Err e => (it', Err e)
      end
  end.

(** ** The block iterator as a storage iterator *)

Section block.
Import BlockBuilder BlockIterator.

(** [next] of [BlockIterator] cannot fail; a panic of the model's
    [seek_to_offset] is [Err EPanic]. *)
Definition block_next (it : BlockIterator) : BlockIterator * res unit :=
  match BlockIterator.next it with
  | Some it' => (it', Ok ())
  | None => (it, Err EPanic)
  end.

Definition block_remaining (it : BlockIterator) : list entry :=
  match scan (S (length (Block.offsets (block it)))) it with Some es => es | None => [] end.

#[export] Instance block_storage_iterator : StorageIterator BlockIterator := {
  key := BlockIterator.key;
  value := BlockIterator.value;
  is_valid := BlockIterator.is_valid;
  next := block_next;
  remaining := block_remaining;
}.

(** A block iterator over a block made of sorted, representable entries
    with non-empty keys, standing at one of them or at the end. *)
Definition block_inv (it : BlockIterator) : Prop :=
  exists es i, entries_ok es /\ keys_nonempty es /\ keys_sorted es /\
               at_index es it i /\ i <= length es.

End block.

(** ** A vector of entries *)

(** The test double: the entries, the position, and the position at
    which [next] fails, if any. *)
Record VecIterator := mkVec {
  data : list entry;
  index : nat;
  error_when : option nat;
}.

Definition vec_next (it : VecIterator) : VecIterator * res unit :=
  let i := if decide (index it < length (data it)) then S (index it) else index it in
  let it' := mkVec (data it) i (error_when it) in
  if decide (error_when it = Some i) then (it', Err EIo) else (it', Ok ()).

#[export] Instance vec_storage_iterator : StorageIterator VecIterator := {
  key it := match data it !! index it with Some e => e.1 | None => [] end;
  value it := match data it !! index it with Some e => e.2 | None => [] end;
  is_valid it := bool_decide (index it < length (data it));
  next := vec_next;
  remaining it := drop (index it) (data it);
}.

(** A source over [es] that never fails. *)
Definition vec_of (es : list entry) : VecIterator := mkVec es 0 None.

(** ** Lemmas *)

Lemma keys_sorted_drop i es : keys_sorted es -> keys_sorted (drop i es).
Proof.
  revert es; induction i as [|i IH]; intros es Hs; [done|].
  destruct es as [|e es]; [constructor|]. apply IH. by apply StronglySorted_inv in Hs as [? _].
Qed.

Lemma tail_drop {A} i (l : list A) : tail (drop i l) = drop (S i) l.
Proof. revert l; induction i as [|i IH]; intros [|x l]; simpl; auto. Qed.

Lemma drop_nonempty {A} i (l : list A) : drop i l <> [] <-> i < length l.
Proof. rewrite <- length_zero_iff_nil, length_drop. lia. Qed.

Lemma drop_cons_lookup {A} i (l : list A) x rest : drop i l = x :: rest -> l !! i = Some x.
Proof. intros H. by rewrite <- (Nat.add_0_r i), <- lookup_drop, H. Qed.

Section spec.
Context {I : Type} `{IterSpec I}.

Lemma valid_remaining it :
  iter_inv it -> is_valid it = true ->
  exists e rest, remaining it = e :: rest /\ key it = e.1 /\ value it = e.2.
Proof.
  intros Hi Hv. rewrite (inv_valid it Hi) in Hv. apply bool_decide_eq_true in Hv.
  destruct (remaining it) as [|e rest] eqn:E; [done|].
  exists e, rest. split; [done|]. by apply (inv_head it e rest Hi).
Qed.

Lemma invalid_remaining it : iter_inv it -> is_valid it = false -> remaining it = [].
Proof.
  intros Hi Hv. rewrite (inv_valid it Hi) in Hv. apply bool_decide_eq_false in Hv.
  by apply dec_stable in Hv.
Qed.

(** A successful step consumes exactly one entry. *)
Lemma next_length it it' :
  iter_inv it -> is_valid it = true -> next it = (it', Ok ()) ->
  S (length (remaining it')) = length (remaining it).
Proof.
  intros Hi Hv Hn. destruct (inv_next it it' Hi Hv Hn) as [_ ->].
  destruct (valid_remaining it Hi Hv) as (e & rest & -> & _). done.
Qed.

End spec.

Section collect.
Context {I : Type} `{IterSpec I} {HR : IterReliable I}.

(** A reliable iterator's entries come out of the caller's loop, given
    one unit of fuel per entry and one for the final test. *)
Lemma collect_remaining fuel it :
  iter_inv it -> length (remaining it) < fuel -> collect fuel it = Ok (remaining it).
Proof using HR.
  revert it; induction fuel as [|fuel IH]; intros it Hi Hf; [lia|]. cbn [collect].
  rewrite (inv_valid it Hi). case_bool_decide as Hv.
  - assert (Hval : is_valid it = true) by (rewrite (inv_valid it Hi); by apply bool_decide_true).
    pose proof (next_reliable it Hi Hval) as Hok.
    destruct (next it) as [it' r] eqn:En. cbn in Hok. subst r. rewrite res_bind_Ok.
    destruct (inv_next it it' Hi Hval En) as [Hi' Hr].
    destruct (remaining it) as [|e rest] eqn:Er; [done|].
    destruct (inv_head it e rest Hi Er) as [-> ->]. cbn in Hr.
    rewrite (IH it' Hi') by (rewrite Hr; simpl in Hf; lia). rewrite Hr. by destruct e.
  - by rewrite Hv.
Qed.
(** Liveness of the caller's loop: along the [n] successful steps of a
    reliable iterator, for [n] up to the number of entries left, every
    state keeps the invariant and any property [P] that each successful
    step preserves, and exactly the first [n] entries are consumed.  The
    measure is the length of [remaining], which every step decreases. *)
Lemma advance_live (P : I -> Prop) n it :
  (forall x x', P x -> iter_inv x -> is_valid x = true -> next x = (x', Ok ()) -> P x') ->
  iter_inv it -> P it -> n <= length (remaining it) ->
  exists it', advance n it = (it', Ok ()) /\ iter_inv it' /\ P it' /\
    remaining it' = drop n (remaining it).
Proof using HR.
  intros HP. revert it; induction n as [|n IH]; intros it Hi Hp Hn; [by exists it|].
  assert (Hv : is_valid it = true).
  { rewrite (inv_valid it Hi). apply bool_decide_true. intros E. rewrite E in Hn. cbn in Hn. lia. }
  pose proof (next_reliable it Hi Hv) as Hok. cbn [advance].
  destruct (next it) as [it' r] eqn:En. cbn in Hok. subst r.
  destruct (inv_next it it' Hi Hv En) as [Hi' Hr].
  pose proof (next_length it it' Hi Hv En) as Hl.
  destruct (IH it' Hi' (HP it it' Hp Hi Hv En)) as (it'' & E & Hi'' & Hp'' & Hr''); [lia|].
  exists it''. split_and!; [done..|]. rewrite Hr'', Hr.
  destruct (remaining it); cbn; [by rewrite drop_nil|done].
Qed.

(** After as many steps as entries were left, the iterator is at the end;
    before that it is still valid. *)
Lemma advance_end_valid it n it' :
  iter_inv it' -> remaining it' = drop n (remaining it) ->
  is_valid it' = bool_decide (n < length (remaining it)).
Proof.
  intros Hi Hr. rewrite (inv_valid it' Hi), Hr. apply bool_decide_ext. apply drop_nonempty.
Qed.
End collect.

Section block.
Import BlockBuilder BlockIterator.

Lemma scan_more_fuel fuel fuel' it es :
  scan fuel it = Some es -> fuel <= fuel' -> scan fuel' it = Some es.
Proof.
  revert fuel' it es; induction fuel as [|fuel IH]; intros [|fuel'] it es Hs Hle; try done; [lia|].
  rewrite scan_S in *. destruct (is_valid it); [|done].
  destruct (next it) as [it'|]; [|done]. rewrite bind_Some in *.
  destruct (scan fuel it') as [rest|] eqn:E; [|done].
  by rewrite (IH fuel' it' rest E) by lia.
Qed.

Lemma block_remaining_at es it i :
  entries_ok es -> keys_nonempty es -> at_index es it i -> i <= length es ->
  block_remaining it = drop i es.
Proof.
  intros Hok Hne Hat Hi. unfold block_remaining.
  pose proof (scan_at es it i Hok Hne Hat Hi) as Hs. destruct Hat as [Hb _].
  rewrite Hb. cbn [of_entries Block.offsets]. rewrite length_entry_offsets.
  by rewrite (scan_more_fuel _ _ _ _ Hs) by lia.
Qed.

Lemma block_inv_valid it :
  block_inv it -> is_valid it = bool_decide (block_remaining it <> []).
Proof.
  intros (es & i & Hok & Hne & _ & Hat & Hi). rewrite (block_remaining_at es it i) by done.
  rewrite (at_index_valid es it i Hne Hat). apply bool_decide_ext. by rewrite drop_nonempty.
Qed.

Lemma block_inv_head it e rest :
  block_inv it -> block_remaining it = e :: rest ->
  BlockIterator.key it = e.1 /\ BlockIterator.value it = e.2.
Proof.
  intros (es & i & Hok & Hne & _ & Hat & Hi). rewrite (block_remaining_at es it i) by done.
  intros Hd. apply drop_cons_lookup in Hd. destruct Hat as [_ Hat]. rewrite Hd in Hat. by destruct Hat as (_ & ? & ?).
Qed.

Lemma block_inv_next it it' :
  block_inv it -> is_valid it = true -> block_next it = (it', Ok ()) ->
  block_inv it' /\ block_remaining it' = tail (block_remaining it).
Proof.
  intros (es & i & Hok & Hne & Hs & Hat & Hi) Hv Hn.
  rewrite (at_index_valid es it i Hne Hat) in Hv. apply bool_decide_eq_true in Hv.
  destruct (next_at es it i Hok Hat) as (it'' & Hn' & Hat'). unfold block_next in Hn.
  rewrite Hn' in Hn. injection Hn as <-.
  split; [exists es, (S i); do 4 (split; [done|]); lia|].
  rewrite (block_remaining_at es it'' (S i)), (block_remaining_at es it i) by (done || lia).
  by rewrite tail_drop.
Qed.

Lemma block_inv_sorted it : block_inv it -> keys_sorted (block_remaining it).
Proof.
  intros (es & i & Hok & Hne & Hs & Hat & Hi). rewrite (block_remaining_at es it i) by done.
  by apply keys_sorted_drop.
Qed.

Lemma block_next_ok it : block_inv it -> (block_next it).2 = Ok ().
Proof.
  intros (es & i & Hok & _ & _ & Hat & _). unfold block_next.
  by destruct (next_at es it i Hok Hat) as (it' & -> & _).
Qed.

End block.

#[export] Instance block_iter_spec : IterSpec BlockIterator.BlockIterator := {|
  iter_inv := block_inv;
  inv_valid := block_inv_valid;
  inv_head := block_inv_head;
  inv_next := block_inv_next;
  inv_sorted := block_inv_sorted;
|}.

#[export] Instance block_iter_reliable : IterReliable BlockIterator.BlockIterator.
Proof. intros it Hi _. by apply block_next_ok. Qed.

Section vec.

(** Sorted entries, and no failure planned: the invariant of a source
    that behaves. *)
Definition vec_inv (it : VecIterator) : Prop := keys_sorted (data it) /\ error_when it = None.

(** A vector is valid while entries remain and shows the first of them,
    whatever it was told about failing. *)
Lemma vec_valid it : is_valid it = bool_decide (remaining it <> []).
Proof. cbn. apply bool_decide_ext. by rewrite drop_nonempty. Qed.

Lemma vec_head it e rest : remaining it = e :: rest -> key it = e.1 /\ value it = e.2.
Proof. cbn. intros Hd. apply drop_cons_lookup in Hd. by rewrite Hd. Qed.

Lemma vec_inv_valid it :
  vec_inv it -> is_valid it = bool_decide (remaining it <> []).
Proof. intros _. apply vec_valid. Qed.

Lemma vec_inv_head it e rest :
  vec_inv it -> remaining it = e :: rest -> key it = e.1 /\ value it = e.2.
Proof. intros _. apply vec_head. Qed.

(** A successful step of a valid vector keeps its data and drops one entry. *)
Lemma vec_next_step it it' :
  is_valid it = true -> vec_next it = (it', Ok ()) ->
  data it' = data it /\ error_when it' = error_when it /\ remaining it' = tail (remaining it).
Proof.
  cbn. intros Hv Hn. apply bool_decide_eq_true in Hv. unfold vec_next in Hn.
  rewrite (decide_True (P := index it < length (data it))) in Hn by done.
  destruct (decide _) in Hn; [discriminate|]. injection Hn as <-. cbn. by rewrite tail_drop.
Qed.

Lemma vec_inv_next it it' :
  vec_inv it -> is_valid it = true -> next it = (it', Ok ()) ->
  vec_inv it' /\ remaining it' = tail (remaining it).
Proof.
  intros [Hs He] Hv Hn. destruct (vec_next_step it it' Hv Hn) as (Hd & He' & Hr).
  split; [unfold vec_inv; by rewrite Hd, He'|done].
Qed.

Lemma vec_inv_sorted it : vec_inv it -> keys_sorted (remaining it).
Proof. intros [Hs _]. by apply keys_sorted_drop. Qed.

(** A vector told not to fail never fails. *)
Lemma vec_next_ok it : vec_inv it -> (next it).2 = Ok ().
Proof. cbn. unfold vec_next. intros [_ ->]. by rewrite decide_False. Qed.

End vec.

#[export] Instance vec_iter_spec : IterSpec VecIterator := {|
  iter_inv := vec_inv;
  inv_valid := vec_inv_valid;
  inv_head := vec_inv_head;
  inv_next := vec_inv_next;
  inv_sorted := vec_inv_sorted;
|}.

#[export] Instance vec_iter_reliable : IterReliable VecIterator.
Proof. intros it Hi _. by apply vec_next_ok. Qed.

(** ** A source that may fail

    [FlakyVec] is the same vector, whose invariant asks only for sorted
    keys: it keeps [IterSpec] and may fail at the position it is told, so
    the merges' error theorems have sources that fail while keeping
    their invariant.  It has no [IterReliable] instance. *)
Record FlakyVec := flaky { vec : VecIterator }.

#[export] Instance flaky_storage_iterator : StorageIterator FlakyVec := {
  key it := key (vec it);
  value it := value (vec it);
  is_valid it := is_valid (vec it);
  next it := let '(v, r) := vec_next (vec it) in (flaky v, r);
  remaining it := remaining (vec it);
}.

Definition flaky_inv (it : FlakyVec) : Prop := keys_sorted (data (vec it)).

Lemma flaky_inv_next it it' :
  flaky_inv it -> is_valid it = true -> next it = (it', Ok ()) ->
  flaky_inv it' /\ remaining it' = tail (remaining it).
Proof.
  unfold flaky_inv. cbn. intros Hs Hv Hn. destruct (vec_next (vec it)) as [v r] eqn:E.
  injection Hn as <- ->. destruct (vec_next_step (vec it) v Hv E) as (Hd & _ & Hr).
  cbn [vec]. split; [by rewrite Hd|exact Hr].
Qed.

#[export] Instance flaky_iter_spec : IterSpec FlakyVec := {|
  iter_inv := flaky_inv;
  inv_valid it _ := vec_valid (vec it);
  inv_head it e rest _ := vec_head (vec it) e rest;
  inv_next := flaky_inv_next;
  inv_sorted it Hs := keys_sorted_drop (index (vec it)) (data (vec it)) Hs;
|}.

End StorageIterator.
