(* ===== verification/Union.v ===== *)
(** * Union: what the merge iterators promise

    The merge iterators (src/mini-lsm-starter/src/iterators/) show the
    sorted union of sorted sources in which, for a key several sources
    hold, the entry of the first source wins ("newest wins" when the
    sources are ordered newest first).  [lunion] is that union for two
    sources, the left one winning ([TwoMergeIterator]); [kunion] folds it
    over a list of sources in priority order ([MergeIterator]).

    Lemmas: the equations of [lunion], that it keeps key order and any
    property of all the entries, that a right entry with the key of the
    left head is dropped, and that [kunion] takes its head from the
    first source holding the smallest key. *)

From S2P Require Import Prelude.

Module Union.

(** Left-biased union of two key-sorted lists. *)
Fixpoint lunion (xs ys : list entry) : list entry :=
  match xs with
  | [] => ys
  | x :: xs' =>
      (fix go (ys : list entry) : list entry :=
         match ys with
         | [] => xs
         | y :: ys' =>
             match bytes_cmp x.1 y.1 with
             | Lt => x :: lunion xs' ys
             | Eq => x :: lunion xs' ys'
             | Gt => y :: go ys'
             end
         end) ys
  end.

(** The union of sources in priority order. *)
Definition kunion (vs : list (list entry)) : list entry := foldr lunion [] vs.

(** A source with its first entry dropped when that entry has key [k]. *)
Definition dropk (k : bytes) (v : list entry) : list entry :=
  match v with
  | e :: v' => if decide (e.1 = k) then v' else v
  | [] => []
  end.

(** The value of the first source whose first entry has key [k]. *)
Fixpoint first_head (k : bytes) (vs : list (list entry)) : option bytes :=
  match vs with
  | [] => None
  | (e :: _) :: vs' => if decide (e.1 = k) then Some e.2 else first_head k vs'
  | [] :: vs' => first_head k vs'
  end.

(** Every entry of [v] has a key [>=] [k]. *)
Definition heads_ge (k : bytes) (v : list entry) : Prop :=
  match v with e :: _ => bytes_cmp k e.1 <> Gt | [] => True end.

(** ** Equations *)

Lemma lunion_nil_r xs : lunion xs [] = xs.
Proof. by destruct xs. Qed.

Lemma lunion_cons x xs y ys :
  lunion (x :: xs) (y :: ys) =
  match bytes_cmp x.1 y.1 with
  | Lt => x :: lunion xs (y :: ys)
  | Eq => x :: lunion xs ys
  | Gt => y :: lunion (x :: xs) ys
  end.
Proof. reflexivity. Qed.

#[export] Hint Rewrite lunion_nil_r lunion_cons : lsm_rw.

(** ** Order and contents *)

Lemma Forall_lunion (P : entry -> Prop) xs ys :
  Forall P xs -> Forall P ys -> Forall P (lunion xs ys).
Proof.
  revert ys; induction xs as [|x xs IH]; intros ys Hx Hy; [done|].
  induction ys as [|y ys IHy]; [by rewrite lunion_nil_r|].
  apply Forall_cons in Hx as [Px Hx]. apply Forall_cons in Hy as [Py Hy].
  rewrite lunion_cons. destruct (bytes_cmp x.1 y.1); constructor; auto.
Qed.

(** Every key of a sorted list is above its head's. *)
Lemma sorted_cons_Forall e es : keys_sorted (e :: es) -> Forall (key_lt e) es.
Proof. by intros [_ ?]%StronglySorted_inv. Qed.

Lemma Forall_key_lt_trans e e' es :
  key_lt e e' -> Forall (key_lt e') es -> Forall (key_lt e) es.
Proof. intros H Hf. eapply Forall_impl; [exact Hf|]. intros x ?. by transitivity e'. Qed.

Lemma Forall_key_lt_eq e e' es :
  e.1 = e'.1 -> Forall (key_lt e') es -> Forall (key_lt e) es.
Proof. intros H Hf. eapply Forall_impl; [exact Hf|]. intros x. unfold key_lt. by rewrite H. Qed.

Lemma lunion_sorted xs ys :
  keys_sorted xs -> keys_sorted ys -> keys_sorted (lunion xs ys).
Proof.
  revert ys; induction xs as [|x xs IH]; intros ys Hx Hy; [done|].
  induction ys as [|y ys IHy]; [by rewrite lunion_nil_r|].
  pose proof (sorted_cons_Forall _ _ Hx) as Fx. pose proof (sorted_cons_Forall _ _ Hy) as Fy.
  pose proof Hx as [Hx' _]%StronglySorted_inv. pose proof Hy as [Hy' _]%StronglySorted_inv.
  rewrite lunion_cons. destruct (bytes_cmp x.1 y.1) eqn:C; constructor.
  - by apply IH.
  - apply Forall_lunion; [done|]. apply bytes_cmp_eq in C. by apply (Forall_key_lt_eq _ y).
  - by apply IH.
  - apply Forall_lunion; [done|]. constructor; [done|]. by apply (Forall_key_lt_trans _ y).
  - by apply IHy.
  - apply Forall_lunion; [|done]. apply bytes_cmp_gt_lt in C. constructor; [done|].
    by apply (Forall_key_lt_trans _ x).
Qed.

Lemma kunion_sorted vs : Forall keys_sorted vs -> keys_sorted (kunion vs).
Proof.
  induction 1 as [|v vs Hv _ IH]; [constructor|]. cbn. fold (kunion vs).
  by apply lunion_sorted.
Qed.

(** A right entry with the key of the left head is dropped. *)
Lemma lunion_skip x xs y ys :
  x.1 = y.1 -> keys_sorted (y :: ys) -> lunion (x :: xs) (y :: ys) = lunion (x :: xs) ys.
Proof.
  intros E Hy. rewrite lunion_cons, E, bytes_cmp_refl.
  destruct ys as [|y' ys]; [by rewrite !lunion_nil_r|].
  rewrite lunion_cons. apply sorted_cons_Forall, Forall_cons in Hy as [Hlt _].
  unfold key_lt, bytes_lt in Hlt. by rewrite E, Hlt.
Qed.

(** ** The k-way union, one key at a time *)

Lemma sorted_tail_gt e v : keys_sorted (e :: v) -> Forall (fun e' => bytes_cmp e.1 e'.1 = Lt) v.
Proof. intros Hs. apply sorted_cons_Forall in Hs. eapply Forall_impl; [exact Hs|]. done. Qed.

(** With every source sorted and starting at [k] or above, the union
    starts with the first source's entry for [k], if one holds [k], and
    continues with the union of the sources that [dropk k] leaves, all
    of whose keys are above [k]. *)
Lemma kunion_dropk k vs :
  Forall keys_sorted vs -> Forall (heads_ge k) vs ->
  kunion vs = match first_head k vs with
              | Some x => (k, x) :: kunion (dropk k <$> vs)
              | None => kunion (dropk k <$> vs)
              end /\
  Forall (fun e => bytes_cmp k e.1 = Lt) (kunion (dropk k <$> vs)).
Proof.
  induction vs as [|v vs IH]; intros Hs Hh; [split; [done|constructor]|].
  apply Forall_cons in Hs as [Hv Hs]. apply Forall_cons in Hh as [Hhv Hh].
  destruct (IH Hs Hh) as [Hk Hgt]. cbn [fmap list_fmap kunion foldr] in *. fold (kunion vs) in *.
  fold (kunion (dropk k <$> vs)) in *.
  destruct v as [|[k' x] v]; cbn [first_head dropk].
  - done.
  - cbn [fst snd] in *. pose proof (sorted_tail_gt _ _ Hv) as Hvt. cbn in Hvt.
    destruct (decide (k' = k)) as [->|Hne].
    + split.
      * rewrite Hk. destruct (first_head k vs).
        -- rewrite lunion_cons. cbn [fst]. by rewrite bytes_cmp_refl.
        -- destruct (kunion (dropk k <$> vs)) as [|r rs] eqn:Er; [by rewrite !lunion_nil_r|].
           apply Forall_cons in Hgt as [Hr _]. by rewrite lunion_cons; cbn [fst]; rewrite Hr.
      * apply Forall_lunion; [|done]. done.
    + assert (Hlt : bytes_cmp k k' = Lt).
      { destruct (bytes_cmp k k') eqn:C; [|done|done]. apply bytes_cmp_eq in C. congruence. }
      assert (Hall : Forall (fun e => bytes_cmp k e.1 = Lt) ((k', x) :: v)).
      { constructor; [done|]. eapply Forall_impl; [exact Hvt|]. intros e He.
        by eapply bytes_cmp_lt_trans. }
      split.
      * rewrite Hk. destruct (first_head k vs); [|done].
        rewrite lunion_cons. cbn [fst]. rewrite (bytes_cmp_antisym k k'), Hlt. done.
      * apply Forall_lunion; done.
Qed.

(** Sources that are all empty add nothing. *)
Lemma kunion_app_nil vs ws : Forall (fun w => w = []) ws -> kunion (vs ++ ws) = kunion vs.
Proof.
  intros Hw. unfold kunion. rewrite foldr_app. f_equal.
  induction Hw as [|w ws -> _ IH]; [done|]. simpl. by rewrite IH.
Qed.

Lemma kunion_all_nil vs : Forall (fun w => w = []) vs -> kunion vs = [].
Proof. intros H. exact (kunion_app_nil [] vs H). Qed.

Lemma first_head_app_skip k vs ws :
  Forall (fun v => match v with e :: _ => e.1 <> k | [] => True end) vs ->
  first_head k (vs ++ ws) = first_head k ws.
Proof.
  induction 1 as [|v vs Hv _ IH]; [done|]. destruct v as [|e v]; cbn; [done|].
  by rewrite decide_False.
Qed.

(** [dropk] does nothing more to a source it has already handled. *)
Lemma dropk_idem k v : keys_sorted v -> dropk k (dropk k v) = dropk k v.
Proof.
  intros Hs. destruct v as [|e v]; [done|]. cbn [dropk].
  destruct (decide (e.1 = k)) as [<-|Hne].
  - destruct v as [|e' v]; [done|]. cbn [dropk]. rewrite decide_False; [done|].
    intros E. apply sorted_tail_gt, Forall_cons in Hs as [Hlt _].
    rewrite E, bytes_cmp_refl in Hlt. discriminate.
  - cbn [dropk]. by rewrite decide_False.
Qed.

End Union.
