(* ===== verification/TwoMergeIterator.v ===== *)
(** * TwoMergeIterator: merging two iterators of different types
      (src/mini-lsm-starter/src/iterators/two_merge_iterator.rs)

    The state is the Rust struct: the two iterators [a] and [b] and the
    flag [use_a].  [select_ab] and [skip_b] are the source's private
    methods; the [while] loop of [skip_b] is [skip_b_loop], bounded by
    the entries [b] has left plus one (each turn of the loop moves [b]
    one entry on).  [create] runs [skip_b] then [select_ab]; [next]
    advances the active side, then runs both again.  Errors of the
    sources are returned with the state reached.

    The merge is a [StorageIterator] whose abstract view is the
    left-biased union [Union.lunion] of the views of [a] and [b].  Its
    invariant: both sources keep theirs, [use_a] is what [select_ab]
    computes, and two valid sources never show the same key ([skip_b]
    has run).  Theorems: [create] and [next] refine the union (so the
    merge is itself an [IterSpec] instance, and composes), the merge
    never fails when its sources do not, the caller's loop yields the
    union, ties go to [a], and an error of the active source is the
    merge's error. *)

From S2P Require Import Prelude StorageIterator Union.

Module TwoMergeIterator.

Import StorageIterator.

Record TwoMergeIterator (A B : Type) := mkTwo {
  a : A;
  b : B;
  use_a : bool;
}.
Arguments mkTwo {A B}.
Arguments a {A B}.
Arguments b {A B}.
Arguments use_a {A B}.

Section two.
Context {A B : Type} `{!StorageIterator A} `{!StorageIterator B}.

Abbreviation T := (TwoMergeIterator A B).

(** [select_ab]: [a] when it is valid and [b] is not, or both are and
    [a]'s key is the smaller. *)
Definition select_ab (t : T) : T :=
  if negb (is_valid (a t)) then mkTwo (a t) (b t) false
  else if negb (is_valid (b t)) then mkTwo (a t) (b t) true
  else mkTwo (a t) (b t) (bool_decide (bytes_lt (key (a t)) (key (b t)))).

(** The [while self.b.is_valid() && self.b.key() == self.a.key()] loop;
    [b.next()?] returns its error. *)
Fixpoint skip_b_loop (fuel : nat) (t : T) : T * res unit :=
  match fuel with
  | O => (t, Err EFuel)
  | S fuel' =>
      if is_valid (b t) && bool_decide (key (b t) = key (a t)) then
        let '(b', r) := next (b t) in
        let t' := mkTwo (a t) b' (use_a t) in
        match r with
        | Ok _ => skip_b_loop fuel' t'
        | Err e => (t', Err e)
        end
      else (t, Ok ())
  end.

(** [skip_b]: the loop runs only when [a] is valid. *)
Definition skip_b (t : T) : T * res unit :=
  if is_valid (a t) then skip_b_loop (S (length (remaining (b t)))) t else (t, Ok ()).

(** [TwoMergeIterator::create] *)
Definition create (a : A) (b : B) : res T :=
  let '(t, r) := skip_b (mkTwo a b false) in
  _ ← r;
  Ok (select_ab t).

Definition two_key (t : T) : bytes := if use_a t then key (a t) else key (b t).
Definition two_value (t : T) : bytes := if use_a t then value (a t) else value (b t).
Definition two_is_valid (t : T) : bool := if use_a t then is_valid (a t) else is_valid (b t).

(** [next]: advance the active side ([?] returns its error), then
    [skip_b] and [select_ab]. *)
Definition two_next (t : T) : T * res unit :=
  let '(t1, r) :=
    if use_a t then let '(a', r) := next (a t) in (mkTwo a' (b t) (use_a t), r)
    else let '(b', r) := next (b t) in (mkTwo (a t) b' (use_a t), r) in
  match r with
  | Err e => (t1, Err e)
  | Ok _ =>
      let '(t2, r2) := skip_b t1 in
      match r2 with
      | Err e => (t2, Err e)
      | Ok _ => (select_ab t2, Ok ())
      end
  end.

Definition two_remaining (t : T) : list entry :=
  Union.lunion (remaining (a t)) (remaining (b t)).

#[export] Instance two_storage_iterator : StorageIterator T := {
  key := two_key;
  value := two_value;
  is_valid := two_is_valid;
  next := two_next;
  remaining := two_remaining;
}.

End two.

(** ** The invariant and the refinement *)

Section spec.
Context {A B : Type} `{IterSpec A} `{IterSpec B}.

Abbreviation T := (TwoMergeIterator A B).

(** Both sources keep their invariants, [use_a] is what [select_ab]
    computes, and [skip_b] has run. *)
Definition two_inv (t : T) : Prop :=
  iter_inv (a t) /\ iter_inv (b t) /\ select_ab t = t /\
  (is_valid (a t) = true -> is_valid (b t) = true -> key (a t) <> key (b t)).

Lemma select_ab_fields (t : T) : a (select_ab t) = a t /\ b (select_ab t) = b t.
Proof. unfold select_ab. by destruct (is_valid (a t)), (is_valid (b t)). Qed.

Lemma select_ab_idem (t : T) : select_ab (select_ab t) = select_ab t.
Proof.
  destruct t as [x y u]. unfold select_ab; cbn [a b].
  destruct (is_valid x) eqn:Ex, (is_valid y) eqn:Ey; simpl; by rewrite ?Ex, ?Ey.
Qed.

Lemma skip_b_loop_ok fuel (t t' : T) :
  iter_inv (a t) -> iter_inv (b t) -> is_valid (a t) = true ->
  skip_b_loop fuel t = (t', Ok ()) ->
  a t' = a t /\ use_a t' = use_a t /\ iter_inv (b t') /\
  two_remaining t' = two_remaining t /\
  (is_valid (b t') = true -> key (b t') <> key (a t)).
Proof.
  revert t; induction fuel as [|fuel IH]; intros t Ha Hb Hva Hl; [done|]. cbn [skip_b_loop] in Hl.
  destruct (is_valid (b t) && bool_decide (key (b t) = key (a t))) eqn:C.
  - apply andb_true_iff in C as [Hvb Hk%bool_decide_eq_true].
    destruct (next (b t)) as [b' [[]|e]] eqn:En; [|done].
    destruct (inv_next (b t) b' Hb Hvb En) as [Hb' Hr].
    destruct (IH (mkTwo (a t) b' (use_a t)) Ha Hb' Hva Hl) as (-> & -> & ? & -> & ?). do 3 (split; [done|]). split; [|done].
    unfold two_remaining. cbn [a b]. rewrite Hr.
    destruct (valid_remaining (a t) Ha Hva) as (x & xs & Ex & Hkx & _).
    destruct (valid_remaining (b t) Hb Hvb) as (y & ys & Ey & Hky & _).
    assert (Hs : keys_sorted (y :: ys)) by (rewrite <- Ey; by apply inv_sorted).
    rewrite Ex, Ey. cbn [tail]. symmetry. by apply Union.lunion_skip; [congruence|].
  - injection Hl as <-. do 4 (split; [done|]). intros Hvb Hk.
    rewrite Hvb, bool_decide_true in C by done. done.
Qed.

Lemma skip_b_ok (t t' : T) :
  iter_inv (a t) -> iter_inv (b t) -> skip_b t = (t', Ok ()) ->
  a t' = a t /\ use_a t' = use_a t /\ iter_inv (b t') /\
  two_remaining t' = two_remaining t /\
  (is_valid (a t) = true -> is_valid (b t') = true -> key (b t') <> key (a t)).
Proof.
  intros Ha Hb. unfold skip_b. destruct (is_valid (a t)) eqn:Hva.
  - intros Hl. destruct (skip_b_loop_ok _ t t' Ha Hb Hva Hl) as (? & ? & ? & ? & ?). auto.
  - intros [= <-]. do 4 (split; [done|]). done.
Qed.

(** The merged view under the invariant: the active side shows its
    first entry, which heads the union. *)
Lemma two_view (t : T) :
  two_inv t ->
  (use_a t = true /\ is_valid (a t) = true /\
   exists x xs, remaining (a t) = x :: xs /\ key (a t) = x.1 /\ value (a t) = x.2 /\
     two_remaining t = x :: Union.lunion xs (remaining (b t))) \/
  (use_a t = false /\
   ((is_valid (b t) = false /\ two_remaining t = []) \/
    (is_valid (b t) = true /\
     exists y ys, remaining (b t) = y :: ys /\ key (b t) = y.1 /\ value (b t) = y.2 /\
       two_remaining t = y :: Union.lunion (remaining (a t)) ys))).
Proof.
  intros (Ha & Hb & Hsel & Hd). unfold two_remaining.
  assert (Hu : use_a t = use_a (select_ab t)) by (by rewrite Hsel). unfold select_ab in Hu.
  destruct (is_valid (a t)) eqn:Hva, (is_valid (b t)) eqn:Hvb; simpl in Hu.
  - destruct (valid_remaining _ Ha Hva) as (x & xs & Ex & Hkx & Hvx).
    destruct (valid_remaining _ Hb Hvb) as (y & ys & Ey & Hky & Hvy).
    rewrite Ex, Ey, Union.lunion_cons. specialize (Hd eq_refl eq_refl).
    destruct (bytes_cmp x.1 y.1) eqn:C.
    + apply bytes_cmp_eq in C. congruence.
    + left. rewrite Hu, bool_decide_true by (unfold bytes_lt; congruence).
      split; [done|]. split; [done|]. by exists x, xs.
    + right. rewrite Hu, bool_decide_false
        by (unfold bytes_lt; rewrite Hkx, Hky, C; discriminate).
      split; [done|]. right. split; [done|]. by exists y, ys.
  - left. split; [done|]. split; [done|].
    destruct (valid_remaining _ Ha Hva) as (x & xs & Ex & Hkx & Hvx).
    rewrite (invalid_remaining _ Hb Hvb), Ex, Union.lunion_nil_r. exists x, xs. by rewrite Union.lunion_nil_r.
  - right. split; [done|]. right. split; [done|].
    destruct (valid_remaining _ Hb Hvb) as (y & ys & Ey & Hky & Hvy).
    rewrite (invalid_remaining _ Ha Hva), Ey. by exists y, ys.
  - right. split; [done|]. left. split; [done|].
    by rewrite (invalid_remaining _ Ha Hva), (invalid_remaining _ Hb Hvb).
Qed.

(** [skip_b] then [select_ab] establish the invariant and keep the view. *)
Lemma skip_select_ok (t1 t2 : T) :
  iter_inv (a t1) -> iter_inv (b t1) -> skip_b t1 = (t2, Ok ()) ->
  two_inv (select_ab t2) /\ two_remaining (select_ab t2) = two_remaining t1.
Proof.
  intros Ha Hb Hs. destruct (skip_b_ok t1 t2 Ha Hb Hs) as (Ea & _ & Hb2 & Er & Hd).
  destruct (select_ab_fields t2) as [Esa Esb]. split.
  - unfold two_inv. rewrite Esa, Esb, Ea. split; [done|]. split; [done|].
    split; [apply select_ab_idem|]. intros Hva Hvb. apply not_eq_sym. auto.
  - unfold two_remaining in *. rewrite Esa, Esb. exact Er.
Qed.

Lemma two_inv_valid (t : T) : two_inv t -> two_is_valid t = bool_decide (two_remaining t <> []).
Proof.
  intros Hi. unfold two_is_valid.
  destruct (two_view t Hi) as [(-> & Hv & x & xs & _ & _ & _ & ->)|(-> & [[Hv ->]|(Hv & y & ys & _ & _ & _ & ->)])];
    cbv iota; rewrite Hv; symmetry;
    [apply bool_decide_eq_true; discriminate|apply bool_decide_eq_false; by intros []|
     apply bool_decide_eq_true; discriminate].
Qed.

Lemma two_inv_head (t : T) e rest :
  two_inv t -> two_remaining t = e :: rest -> two_key t = e.1 /\ two_value t = e.2.
Proof.
  intros Hi. unfold two_key, two_value.
  destruct (two_view t Hi) as [(-> & _ & x & xs & _ & Hk & Hv & ->)|(-> & [[_ ->]|(_ & y & ys & _ & Hk & Hv & ->)])];
    intros [= <- <-]; done.
Qed.

Lemma two_inv_next (t t' : T) :
  two_inv t -> two_is_valid t = true -> two_next t = (t', Ok ()) ->
  two_inv t' /\ two_remaining t' = tail (two_remaining t).
Proof.
  intros Hi Hv. pose proof Hi as (Ha & Hb & _). unfold two_next.
  destruct (two_view t Hi) as [(Hu & Hva & x & xs & Ex & _ & _ & Er)|(Hu & [[Hvb _]|(Hvb & y & ys & Ey & _ & _ & Er)])];
    rewrite Hu.
  - destruct (next (a t)) as [a' [[]|e]] eqn:En; [|done].
    destruct (inv_next (a t) a' Ha Hva En) as [Ha' Hr].
    destruct (skip_b (mkTwo a' (b t) true)) as [t2 [[]|e]] eqn:Es; [|intros [=]]. intros [= <-].
    destruct (skip_select_ok (mkTwo a' (b t) true) t2 Ha' Hb Es) as [? ->]. split; [done|].
    unfold two_remaining in *. cbn [a b]. by rewrite Hr, Er, Ex.
  - unfold two_is_valid in Hv. rewrite Hu in Hv. congruence.
  - destruct (next (b t)) as [b' [[]|e]] eqn:En; [|done].
    destruct (inv_next (b t) b' Hb Hvb En) as [Hb' Hr].
    destruct (skip_b (mkTwo (a t) b' false)) as [t2 [[]|e]] eqn:Es; [|intros [=]]. intros [= <-].
    destruct (skip_select_ok (mkTwo (a t) b' false) t2 Ha Hb' Es) as [? ->]. split; [done|].
    unfold two_remaining in *. cbn [a b]. by rewrite Hr, Er, Ey.
Qed.

Lemma two_inv_sorted (t : T) : two_inv t -> keys_sorted (two_remaining t).
Proof. intros (Ha & Hb & _). apply Union.lunion_sorted; by apply inv_sorted. Qed.

#[export] Instance two_iter_spec : IterSpec T := {|
  iter_inv := two_inv;
  inv_valid := two_inv_valid;
  inv_head := two_inv_head;
  inv_next := two_inv_next;
  inv_sorted := two_inv_sorted;
|}.

End spec.

(** ** Reliability and creation *)

Section reliable.
Context {A B : Type} `{IterSpec A} `{IterSpec B} {RA : IterReliable A} {RB : IterReliable B}.

Abbreviation T := (TwoMergeIterator A B).

Lemma skip_b_loop_reliable fuel (t : T) :
  iter_inv (a t) -> iter_inv (b t) -> length (remaining (b t)) < fuel ->
  (skip_b_loop fuel t).2 = Ok ().
Proof using RB.
  revert t; induction fuel as [|fuel IH]; intros t Ha Hb Hf; [lia|]. cbn [skip_b_loop].
  destruct (is_valid (b t) && bool_decide (key (b t) = key (a t))) eqn:C; [|done].
  apply andb_true_iff in C as [Hvb _].
  pose proof (next_reliable (b t) Hb Hvb) as Hr.
  destruct (next (b t)) as [b' r] eqn:En. cbn in Hr. subst r.
  pose proof (next_length _ _ Hb Hvb En). destruct (inv_next _ _ Hb Hvb En) as [Hb' _].
  apply (IH (mkTwo (a t) b' (use_a t))); [done|done|cbn; lia].
Qed.

Lemma skip_b_reliable (t : T) :
  iter_inv (a t) -> iter_inv (b t) -> (skip_b t).2 = Ok ().
Proof using RB.
  intros Ha Hb. unfold skip_b. destruct (is_valid (a t)); [|done].
  apply skip_b_loop_reliable; [done|done|lia].
Qed.

Lemma skip_b_reliable_eq (t : T) :
  iter_inv (a t) -> iter_inv (b t) -> exists t2, skip_b t = (t2, Ok ()).
Proof using RB.
  intros Ha Hb. pose proof (skip_b_reliable t Ha Hb) as Hs.
  destruct (skip_b t) as [t2 r]. cbn in Hs. subst r. by exists t2.
Qed.

Lemma two_next_reliable (t : T) :
  two_inv t -> two_is_valid t = true -> (two_next t).2 = Ok ().
Proof using RA RB.
  intros Hi Hv. pose proof Hi as (Ha & Hb & _). unfold two_next.
  destruct (two_view t Hi) as [(Hu & Hva & _)|(Hu & [[Hvb _]|(Hvb & _)])]; rewrite Hu.
  - pose proof (next_reliable _ Ha Hva) as Hr. destruct (next (a t)) as [a' r] eqn:En.
    cbn in Hr. subst r. destruct (inv_next _ _ Ha Hva En) as [Ha' _].
    by destruct (skip_b_reliable_eq (mkTwo a' (b t) true) Ha' Hb) as [t2 ->].
  - unfold two_is_valid in Hv. rewrite Hu in Hv. congruence.
  - pose proof (next_reliable _ Hb Hvb) as Hr. destruct (next (b t)) as [b' r] eqn:En.
    cbn in Hr. subst r. destruct (inv_next _ _ Hb Hvb En) as [Hb' _].
    by destruct (skip_b_reliable_eq (mkTwo (a t) b' false) Ha Hb') as [t2 ->].
Qed.

#[export] Instance two_iter_reliable : IterReliable T.
Proof using RA RB. intros t Hi Hv. by apply two_next_reliable. Qed.

(** [create] on two sources keeping their invariants succeeds, with the
    union as its view. *)
Lemma two_create_ok (x : A) (y : B) :
  iter_inv x -> iter_inv y ->
  exists t, create x y = Ok t /\ two_inv t /\ two_remaining t = Union.lunion (remaining x) (remaining y).
Proof using RB.
  intros Hx Hy. unfold create.
  destruct (skip_b_reliable_eq (mkTwo x y false) Hx Hy) as [t2 Es]. rewrite Es.
  destruct (skip_select_ok (mkTwo x y false) t2 Hx Hy Es) as [? ?]. by eexists.
Qed.

End reliable.

(** ** What the merge promises *)

(** C18: over two sources that keep their invariants and never fail,
    [create] succeeds and the caller's loop over the merge yields the
    left-biased union of what the sources hold: each key once, in
    ascending order, with [a]'s entry when both hold the key. *)
Theorem two_merge_yields_union {A B : Type} `{IterSpec A} `{IterSpec B}
    `{!IterReliable A} `{!IterReliable B} (x : A) (y : B) :
  iter_inv x -> iter_inv y ->
  exists t, create x y = Ok t /\
    collect (S (length (Union.lunion (remaining x) (remaining y)))) t =
    Ok (Union.lunion (remaining x) (remaining y)).
Proof.
  intros Hx Hy. destruct (two_create_ok x y Hx Hy) as (t & Hc & Hi & Hr).
  exists t. split; [done|]. rewrite <- Hr.
  exact (collect_remaining (I := TwoMergeIterator A B) _ t Hi (Nat.lt_succ_diag_r _)).
Qed.

Lemma two_merge_yields_union_witness :
  iter_inv (vec_of [([Byte.x6b], [Byte.x61]); ([Byte.x6d], [Byte.x31])]) /\
  iter_inv (vec_of [([Byte.x6b], [Byte.x62]); ([Byte.x6c], [Byte.x32])]) /\
  exists t, create (vec_of [([Byte.x6b], [Byte.x61]); ([Byte.x6d], [Byte.x31])])
                   (vec_of [([Byte.x6b], [Byte.x62]); ([Byte.x6c], [Byte.x32])]) = Ok t /\
    collect (S (length (Union.lunion (remaining (vec_of [([Byte.x6b], [Byte.x61]); ([Byte.x6d], [Byte.x31])]))
                                     (remaining (vec_of [([Byte.x6b], [Byte.x62]); ([Byte.x6c], [Byte.x32])]))))) t =
    Ok (Union.lunion (remaining (vec_of [([Byte.x6b], [Byte.x61]); ([Byte.x6d], [Byte.x31])]))
                     (remaining (vec_of [([Byte.x6b], [Byte.x62]); ([Byte.x6c], [Byte.x32])]))).
Proof.
  assert (Hx : iter_inv (vec_of [([Byte.x6b], [Byte.x61]); ([Byte.x6d], [Byte.x31])]))
    by (split; [decide_by_eval|reflexivity]).
  assert (Hy : iter_inv (vec_of [([Byte.x6b], [Byte.x62]); ([Byte.x6c], [Byte.x32])]))
    by (split; [decide_by_eval|reflexivity]).
  split; [exact Hx|]. split; [exact Hy|]. exact (two_merge_yields_union _ _ Hx Hy).
Defined.

(** C19: one step of the merge refines one step of the union: a valid
    merge shows the first entry of its view, and a successful [next]
    keeps the invariant and leaves the rest of the view. *)
Theorem two_next_step {A B : Type} `{IterSpec A} `{IterSpec B} (t : TwoMergeIterator A B) :
  two_inv t -> two_is_valid t = true ->
  exists e rest, two_remaining t = e :: rest /\ two_key t = e.1 /\ two_value t = e.2 /\
    forall t', two_next t = (t', Ok ()) -> two_inv t' /\ two_remaining t' = rest.
Proof.
  intros Hi Hv. pose proof Hv as Hv'. rewrite (two_inv_valid t Hi) in Hv'.
  apply bool_decide_eq_true in Hv'.
  destruct (two_remaining t) as [|e rest] eqn:Er; [done|].
  destruct (two_inv_head t e rest Hi Er) as [Hk Hval].
  exists e, rest. do 3 (split; [done|]). intros t' Hn.
  destruct (two_inv_next t t' Hi Hv Hn) as [? ->]. by rewrite Er.
Qed.

Lemma two_next_step_witness :
  two_inv (mkTwo (vec_of [([Byte.x01], [Byte.x0a])]) (vec_of [([Byte.x02], [Byte.x0b])]) true) /\
  two_is_valid (mkTwo (vec_of [([Byte.x01], [Byte.x0a])]) (vec_of [([Byte.x02], [Byte.x0b])]) true) = true /\
  exists e rest,
    two_remaining (mkTwo (vec_of [([Byte.x01], [Byte.x0a])]) (vec_of [([Byte.x02], [Byte.x0b])]) true) = e :: rest /\
    two_key (mkTwo (vec_of [([Byte.x01], [Byte.x0a])]) (vec_of [([Byte.x02], [Byte.x0b])]) true) = e.1 /\
    two_value (mkTwo (vec_of [([Byte.x01], [Byte.x0a])]) (vec_of [([Byte.x02], [Byte.x0b])]) true) = e.2 /\
    forall t', two_next (mkTwo (vec_of [([Byte.x01], [Byte.x0a])]) (vec_of [([Byte.x02], [Byte.x0b])]) true) =
                 (t', Ok ()) -> two_inv t' /\ two_remaining t' = rest.
Proof.
  assert (Hi : two_inv (mkTwo (vec_of [([Byte.x01], [Byte.x0a])]) (vec_of [([Byte.x02], [Byte.x0b])]) true)).
  { split; [split; [decide_by_eval|reflexivity]|]. split; [split; [decide_by_eval|reflexivity]|].
    split; [reflexivity|]. intros _ _. discriminate. }
  assert (Hv : two_is_valid (mkTwo (vec_of [([Byte.x01], [Byte.x0a])]) (vec_of [([Byte.x02], [Byte.x0b])]) true) = true)
    by reflexivity.
  split; [exact Hi|]. split; [exact Hv|]. exact (two_next_step _ Hi Hv).
Defined.

(** C20: an error of the active source's [next] is the merge's error,
    returned at once with the failed source in place; an error of [b]'s
    [next] inside [skip_b] is returned the same way. *)
Theorem two_next_error {A B : Type} `{StorageIterator A} `{StorageIterator B}
    (t : TwoMergeIterator A B) (e : error) :
  (forall a', use_a t = true -> next (a t) = (a', Err e) ->
     two_next t = (mkTwo a' (b t) true, Err e)) /\
  (forall b', use_a t = false -> next (b t) = (b', Err e) ->
     two_next t = (mkTwo (a t) b' false, Err e)) /\
  (forall a' b', use_a t = true -> next (a t) = (a', Ok ()) -> is_valid a' = true ->
     is_valid (b t) = true -> key (b t) = key a' -> next (b t) = (b', Err e) ->
     two_next t = (mkTwo a' b' true, Err e)).
Proof.
  split; [|split].
  - intros a' Hu En. unfold two_next. by rewrite Hu, En.
  - intros b' Hu En. unfold two_next. by rewrite Hu, En.
  - intros a' b' Hu En Hva Hvb Hk Enb. unfold two_next. rewrite Hu, En.
    unfold skip_b. cbn [a b]. rewrite Hva. cbn [skip_b_loop a b use_a].
    rewrite Hvb, bool_decide_true by done. cbn [andb]. by rewrite Enb.
Qed.

Lemma two_next_error_witness :
  exists e,
  (forall a', use_a (mkTwo (mkVec [([Byte.x01], [])] 0 (Some 1)) (vec_of []) true) = true ->
     next (a (mkTwo (mkVec [([Byte.x01], [])] 0 (Some 1)) (vec_of []) true)) = (a', Err e) ->
     two_next (mkTwo (mkVec [([Byte.x01], [])] 0 (Some 1)) (vec_of []) true) =
       (mkTwo a' (b (mkTwo (mkVec [([Byte.x01], [])] 0 (Some 1)) (vec_of []) true)) true, Err e)) /\
  two_next (mkTwo (mkVec [([Byte.x01], [])] 0 (Some 1)) (vec_of []) true) =
    (mkTwo (mkVec [([Byte.x01], [])] 1 (Some 1)) (vec_of []) true, Err e).
Proof.
  exists EIo. split.
  - exact (proj1 (two_next_error (mkTwo (mkVec [([Byte.x01], [])] 0 (Some 1)) (vec_of []) true) EIo)).
  - vm_compute. reflexivity.
Defined.

(** The tie-break example of spec §8: merging A = [k -> va] with
    B = [k -> vb] yields the single entry [k -> va]. *)
Example two_merge_tie_break :
  (t ← create (vec_of [([Byte.x6b], [Byte.x76; Byte.x61])]) (vec_of [([Byte.x6b], [Byte.x76; Byte.x62])]);
   collect 3 t) = Ok [([Byte.x6b], [Byte.x76; Byte.x61])].
Proof. vm_compute. reflexivity. Qed.

End TwoMergeIterator.
