(* ===== verification/MergeIterator.v ===== *)
(** * MergeIterator: the k-way merge
      (src/mini-lsm-starter/src/iterators/merge_iterator.rs)

    The state is the Rust struct: the heap [iters] of [HeapWrapper]s
    (source index, iterator) and the [current] wrapper.  [HeapWrapper]'s
    [partial_cmp] compares keys, then indices, and reverses the result,
    so that the max-heap [BinaryHeap] pops the smallest (key, index);
    its [eq] ([hw_eq]) holds exactly on equal index and key.
    [BinaryHeap] (the standard library) is modelled by what the code
    uses of it, as a priority queue: a list in which [heap_top] finds the
    greatest element under [hw_cmp] (its position and value), [pop]
    removes it, and [PeekMut] replaces it in place (the sift on drop
    only restores the heap order, which a list does not need).

    [next] is the source's: the [while let Some(mut iter) = peek_mut()]
    loop ([skip_loop], one turn per unit of fuel; each turn pops a
    wrapper or moves one iterator one entry on, so the number of entries
    the heap's iterators hold plus the heap's size bounds it), then
    [curr.next()?], then the pop when the current iterator is exhausted
    or the swap when the heap's top is now smaller.  An error is
    returned with the state reached.  [create] pushes the valid sources
    with their indices and pops the current one; its [unwrap] on a heap
    it has just filled cannot fail, and is [None] in the model.  [key]
    and [value] of a merge with no current wrapper (an [unwrap] on
    [None]) are the empty slice.

    The abstract view is [Union.kunion] of the sources' views in index
    order: the merge shows each key once, ascending, with the entry of
    the lowest-indexed source holding it. *)

From S2P Require Import Prelude StorageIterator Union.

Module MergeIterator.

Import StorageIterator.

(** [HeapWrapper(usize, Box<I>)] *)
Abbreviation HeapWrapper I := (nat * I)%type.

Record MergeIterator (I : Type) := mkMerge {
  iters : list (HeapWrapper I);
  current : option (HeapWrapper I);
}.
Arguments mkMerge {I}.
Arguments iters {I}.
Arguments current {I}.

Section merge.
Context {I : Type} `{!StorageIterator I}.

(** [PartialOrd for HeapWrapper]: keys, then indices, reversed. *)
Definition hw_partial_cmp (x y : HeapWrapper I) : option comparison :=
  option_map CompOpp
    match bytes_cmp (key x.2) (key y.2) with
    | Gt => Some Gt
    | Lt => Some Lt
    | Eq => Some (Nat.compare x.1 y.1)
    end.

(** [Ord for HeapWrapper]: [partial_cmp(..).unwrap()]. *)
Definition hw_cmp (x y : HeapWrapper I) : comparison :=
  match hw_partial_cmp x y with Some c => c | None => Eq end.

(** [PartialEq for HeapWrapper]: [partial_cmp(..).unwrap() == Equal];
    the [unwrap] on [None] is a panic, [None]. *)
Definition hw_eq (x y : HeapWrapper I) : option bool :=
  c ← hw_partial_cmp x y; Some (bool_decide (c = Eq)).

(** The greatest wrapper under [hw_cmp] and its position; of equal
    ones, the first. *)
Fixpoint heap_top (h : list (HeapWrapper I)) : option (nat * HeapWrapper I) :=
  match h with
  | [] => None
  | x :: h' =>
      match heap_top h' with
      | None => Some (0, x)
      | Some (j, y) => if hw_cmp y x is Gt then Some (S j, y) else Some (0, x)
      end
  end.

(** [BinaryHeap::pop] *)
Definition heap_pop (h : list (HeapWrapper I)) : option (HeapWrapper I * list (HeapWrapper I)) :=
  '(j, x) ← heap_top h;
  Some (x, delete j h).

(** [BinaryHeap::push] *)
Definition heap_push (h : list (HeapWrapper I)) (x : HeapWrapper I) : list (HeapWrapper I) :=
  h ++ [x].

(** [MergeIterator::create]: no current wrapper when there is no valid
    source; otherwise the valid sources with their indices (the
    [enumerate] is the [zip] with [0 .. n-1]), the smallest popped as the
    current one. *)
Definition create (srcs : list I) : option (MergeIterator I) :=
  if (match srcs with [] => true | _ => false end) || forallb (fun x => negb (is_valid x)) srcs
  then Some (mkMerge [] None)
  else
    let heap := foldl (fun h '(idx, it) => if is_valid it then heap_push h (idx, it) else h)
                      [] (zip (seq 0 (length srcs)) srcs) in
    '(cur, heap) ← heap_pop heap;
    Some (mkMerge heap (Some cur)).

Definition merge_key (m : MergeIterator I) : bytes :=
  match current m with Some c => key c.2 | None => [] end.

Definition merge_value (m : MergeIterator I) : bytes :=
  match current m with Some c => value c.2 | None => [] end.

Definition merge_is_valid (m : MergeIterator I) : bool :=
  match current m with Some c => is_valid c.2 | None => false end.

(** The [while let Some(mut iter) = self.iters.peek_mut()] loop: while
    the top has the current key, move it on; an error pops it and is
    returned; an exhausted iterator is popped. *)
Fixpoint skip_loop (fuel : nat) (heap : list (HeapWrapper I)) (curr : HeapWrapper I)
    : list (HeapWrapper I) * res unit :=
  match fuel with
  | O => (heap, Err EFuel)
  | S fuel' =>
      match heap_top heap with
      | None => (heap, Ok ())
      | Some (j, (i, it)) =>
          if bool_decide (key it = key curr.2) then
            let '(it', r) := next it in
            match r with
            | Err e => (delete j heap, Err e)
            | Ok _ =>
                if is_valid it' then skip_loop fuel' (<[j := (i, it')]> heap) curr
                else skip_loop fuel' (delete j heap) curr
            end
          else (heap, Ok ())
      end
  end.

(** The loop's bound: one turn per entry the heap's iterators hold and
    per wrapper, and one for the exit. *)
Definition heap_fuel (heap : list (HeapWrapper I)) : nat :=
  S (sum_list_with (fun x => S (length (remaining x.2))) heap).

(** [MergeIterator::next].  Without a current wrapper the source's
    [unwrap_unchecked] is undefined behaviour, [Err EPanic] here. *)
Definition merge_next (m : MergeIterator I) : MergeIterator I * res unit :=
  match current m with
  | None => (m, Err EPanic)
  | Some curr =>
      let '(heap, r) := skip_loop (heap_fuel (iters m)) (iters m) curr in
      match r with
      | Err e => (mkMerge heap (Some curr), Err e)
      | Ok _ =>
          let '(it', r2) := next curr.2 in
          let curr := (curr.1, it') in
          match r2 with
          | Err e => (mkMerge heap (Some curr), Err e)
          | Ok _ =>
              if negb (is_valid curr.2) then
                match heap_pop heap with
                | Some (x, heap') => (mkMerge heap' (Some x), Ok ())
                | None => (mkMerge heap (Some curr), Ok ())
                end
              else
                match heap_top heap with
                | Some (j, inner) =>
                    if hw_cmp curr inner is Lt then (mkMerge (<[j := curr]> heap) (Some inner), Ok ())
                    else (mkMerge heap (Some curr), Ok ())
                | None => (mkMerge heap (Some curr), Ok ())
                end
          end
      end
  end.

(** ** The abstract view *)

(** The view of source [i]: its iterator's, if the merge still holds it. *)
Fixpoint src_view (xs : list (HeapWrapper I)) (i : nat) : list entry :=
  match xs with
  | [] => []
  | x :: xs' => if decide (x.1 = i) then remaining x.2 else src_view xs' i
  end.

Definition wrappers (m : MergeIterator I) : list (HeapWrapper I) :=
  match current m with Some c => c :: iters m | None => iters m end.

(** The union of the sources' views, in index order. *)
Definition merge_remaining (m : MergeIterator I) : list entry :=
  let ws := wrappers m in
  Union.kunion (src_view ws <$> seq 0 (S (list_max (fst <$> ws)))).

#[export] Instance merge_storage_iterator : StorageIterator (MergeIterator I) := {
  key := merge_key;
  value := merge_value;
  is_valid := merge_is_valid;
  next := merge_next;
  remaining := merge_remaining;
}.

End merge.

(** ** The order of the wrappers and the heap *)

Section heap.
Context {I : Type} `{!StorageIterator I}.

(** The order the heap pops in: keys, then indices. *)
Definition hw_lex (x y : HeapWrapper I) : comparison :=
  match bytes_cmp (key x.2) (key y.2) with Eq => Nat.compare x.1 y.1 | c => c end.

Lemma hw_cmp_lex x y : hw_cmp x y = CompOpp (hw_lex x y).
Proof. unfold hw_cmp, hw_partial_cmp, hw_lex. by destruct (bytes_cmp _ _). Qed.

Lemma hw_lex_antisym x y : hw_lex y x = CompOpp (hw_lex x y).
Proof.
  unfold hw_lex. rewrite (bytes_cmp_antisym (key x.2) (key y.2)).
  destruct (bytes_cmp (key x.2) (key y.2)); simpl; [|done|done]. apply Nat.compare_antisym.
Qed.

Lemma hw_lex_refl x : hw_lex x x = Eq.
Proof. unfold hw_lex. rewrite bytes_cmp_refl. apply Nat.compare_refl. Qed.

(** The pop order ties only a wrapper with itself: same index, same key. *)
Lemma hw_lex_eq x y : hw_lex x y = Eq <-> x.1 = y.1 /\ key x.2 = key y.2.
Proof.
  unfold hw_lex. destruct (bytes_cmp (key x.2) (key y.2)) eqn:C.
  - apply bytes_cmp_eq in C. rewrite Nat.compare_eq_iff. split; [by split|by intros []].
  - split; [done|]. intros [_ Hk]. by rewrite Hk, bytes_cmp_refl in C.
  - split; [done|]. intros [_ Hk]. by rewrite Hk, bytes_cmp_refl in C.
Qed.

(** [eq] never panics and is [cmp(..) == Equal]. *)
Lemma hw_eq_cmp x y : hw_eq x y = Some (bool_decide (hw_cmp x y = Eq)).
Proof. unfold hw_eq, hw_cmp, hw_partial_cmp. by destruct (bytes_cmp _ _). Qed.

Lemma hw_cmp_eq x y : hw_cmp x y = Eq <-> x.1 = y.1 /\ key x.2 = key y.2.
Proof. rewrite hw_cmp_lex, <- hw_lex_eq. by destruct (hw_lex x y). Qed.

Lemma hw_lex_le_trans x y z : hw_lex x y <> Gt -> hw_lex y z <> Gt -> hw_lex x z <> Gt.
Proof.
  unfold hw_lex.
  destruct (bytes_cmp (key x.2) (key y.2)) eqn:C1; try congruence;
  destruct (bytes_cmp (key y.2) (key z.2)) eqn:C2; try congruence; intros H1 H2.
  - apply bytes_cmp_eq in C1, C2. rewrite C1, C2, bytes_cmp_refl.
    rewrite Nat.compare_le_iff in *. lia.
  - apply bytes_cmp_eq in C1. by rewrite C1, C2.
  - apply bytes_cmp_eq in C2. by rewrite <- C2, C1.
  - by rewrite (bytes_cmp_lt_trans _ _ _ C1 C2).
Qed.

(** C37: [HeapWrapper]'s comparison is the total order [BinaryHeap]
    requires of its elements, in the direction the merge needs:
    [partial_cmp] is always [Some] of [cmp] (so [cmp]'s and [eq]'s
    [unwrap]s never panic), [cmp] is the reverse of the lexicographic
    order on (key, index), so the heap's greatest element is the
    smallest key held by the lowest index, [cmp] is antisymmetric
    and transitive, [eq] agrees with [cmp], and two wrappers compare
    equal only when they have the same index and the same key, which
    wrappers of distinct sources never have. *)
Theorem hw_ord_lawful (x y z : HeapWrapper I) :
  hw_partial_cmp x y = Some (hw_cmp x y) /\
  hw_cmp x y = CompOpp (match bytes_cmp (key x.2) (key y.2) with
                        | Eq => Nat.compare x.1 y.1 | c => c end) /\
  hw_cmp y x = CompOpp (hw_cmp x y) /\
  (hw_cmp x y <> Lt -> hw_cmp y z <> Lt -> hw_cmp x z <> Lt) /\
  hw_eq x y = Some (bool_decide (hw_cmp x y = Eq)) /\
  (hw_cmp x y = Eq <-> x.1 = y.1 /\ key x.2 = key y.2).
Proof.
  assert (Hopp : forall a b, hw_cmp a b <> Lt <-> hw_lex a b <> Gt).
  { intros a b. rewrite hw_cmp_lex. by destruct (hw_lex a b). }
  split; [unfold hw_cmp, hw_partial_cmp; by destruct (bytes_cmp _ _)|].
  split; [apply hw_cmp_lex|].
  split; [by rewrite !hw_cmp_lex, hw_lex_antisym, CompOpp_involutive|].
  split; [rewrite !Hopp; apply hw_lex_le_trans|].
  split; [apply hw_eq_cmp|apply hw_cmp_eq].
Qed.

(** The wrapper [c] comes strictly before [x]. *)
Definition hw_lt (c x : HeapWrapper I) : Prop := hw_lex c x = Lt.

Lemma hw_lt_key c x : hw_lt c x -> bytes_cmp (key c.2) (key x.2) <> Gt.
Proof. unfold hw_lt, hw_lex. by destruct (bytes_cmp _ _). Qed.

Lemma hw_lt_eq_key c x : hw_lt c x -> key c.2 = key x.2 -> c.1 < x.1.
Proof.
  unfold hw_lt, hw_lex. intros H E. rewrite E, bytes_cmp_refl in H.
  by apply Nat.compare_lt_iff.
Qed.

Lemma heap_top_None h : heap_top h = None -> h = [].
Proof. destruct h as [|x h]; [done|]. cbn. by destruct (heap_top h) as [[j y]|]; [case_match|]. Qed.

Lemma heap_top_spec h j y :
  heap_top h = Some (j, y) -> h !! j = Some y /\ Forall (fun x => hw_lex y x <> Gt) h.
Proof.
  revert j y; induction h as [|x h IH]; intros j y Ht; [done|]. cbn in Ht.
  destruct (heap_top h) as [[j' y']|] eqn:E.
  - destruct (IH j' y' eq_refl) as [Hl Hf]. rewrite hw_cmp_lex in Ht.
    destruct (hw_lex y' x) eqn:C; simpl in Ht; injection Ht as <- <-.
    + split; [done|]. constructor; [rewrite hw_lex_refl; done|].
      eapply Forall_impl; [exact Hf|]. intros z Hz. apply (hw_lex_le_trans _ y'); [|done].
      by rewrite hw_lex_antisym, C.
    + split; [done|]. constructor; [by rewrite C|done].
    + split; [done|]. constructor; [rewrite hw_lex_refl; done|].
      eapply Forall_impl; [exact Hf|]. intros z Hz. apply (hw_lex_le_trans _ y'); [|done].
      by rewrite hw_lex_antisym, C.
  - apply heap_top_None in E as ->. injection Ht as <- <-.
    split; [done|]. constructor; [rewrite hw_lex_refl; done|constructor].
Qed.

(** ** The sources' views *)

Lemma src_view_notin xs i : i ∉ fst <$> xs -> src_view xs i = [].
Proof.
  induction xs as [|x xs IH]; intros Hn; [done|]. cbn. rewrite fmap_cons, elem_of_cons in Hn.
  rewrite decide_False by (intros <-; tauto). apply IH. tauto.
Qed.

Lemma src_view_lookup xs j x :
  NoDup (fst <$> xs) -> xs !! j = Some x -> src_view xs x.1 = remaining x.2.
Proof.
  revert j; induction xs as [|y xs IH]; intros [|j] Hnd Hj; try done; cbn.
  - injection Hj as ->. by rewrite decide_True.
  - rewrite fmap_cons in Hnd. apply NoDup_cons in Hnd as [Hy Hnd].
    rewrite decide_False; [by apply (IH j)|]. intros E. apply Hy. rewrite E.
    apply list_elem_of_fmap_2. by eapply list_elem_of_lookup_2.
Qed.

(** On wrappers with distinct indices the view of each source does not
    depend on the order of the wrappers. *)
Lemma src_view_perm xs ys i :
  NoDup (fst <$> xs) -> xs ≡ₚ ys -> src_view xs i = src_view ys i.
Proof.
  intros Hnd Hp. revert Hnd. induction Hp as [|x xs ys Hp IH|x y xs|xs ys zs Hp1 IH1 Hp2 IH2];
    intros Hnd; cbn; try done.
  - rewrite fmap_cons in Hnd. apply NoDup_cons in Hnd as [_ Hnd]. by rewrite IH.
  - rewrite !fmap_cons in Hnd. apply NoDup_cons in Hnd as [Hy Hnd]. rewrite elem_of_cons in Hy.
    destruct (decide (y.1 = i)), (decide (x.1 = i)); try done. exfalso. apply Hy. left. congruence.
  - rewrite IH1 by done. apply IH2. by rewrite <- Hp1.
Qed.

Lemma insert_Permutation {A} (l : list A) j x y :
  l !! j = Some x -> <[j := y]> l ≡ₚ y :: delete j l.
Proof.
  intros Hj. pose proof (lookup_lt_Some _ _ _ Hj).
  rewrite insert_take_drop, delete_take_drop by done. by rewrite <- Permutation_middle.
Qed.

Lemma delete_insert_same {A} (l : list A) j y : delete j (<[j := y]> l) = delete j l.
Proof. revert j; induction l as [|x l IH]; intros [|j]; cbn; try done. by rewrite IH. Qed.

Lemma NoDup_fst_delete (h : list (HeapWrapper I)) j :
  NoDup (fst <$> h) -> NoDup (fst <$> delete j h).
Proof. intros Hnd. rewrite list_fmap_delete. eapply sublist_NoDup; [exact Hnd|apply sublist_delete]. Qed.

Lemma fst_insert_same (h : list (HeapWrapper I)) j x y :
  h !! j = Some x -> y.1 = x.1 -> fst <$> <[j := y]> h = fst <$> h.
Proof. intros Hj E. rewrite list_fmap_insert, E. apply list_insert_id. by rewrite list_lookup_fmap, Hj. Qed.

(** The view of a source, taking the wrapper at [j] apart. *)
Lemma src_view_split h j x i :
  NoDup (fst <$> h) -> h !! j = Some x ->
  src_view h i = if decide (x.1 = i) then remaining x.2 else src_view (delete j h) i.
Proof.
  intros Hnd Hj. rewrite (src_view_perm h (x :: delete j h)); [done|done|].
  by apply delete_Permutation.
Qed.

Lemma src_view_cases xs i :
  src_view xs i = [] \/ exists x, x ∈ xs /\ x.1 = i /\ src_view xs i = remaining x.2.
Proof.
  induction xs as [|x xs IH]; [by left|]. cbn. case_decide as E.
  - right. exists x. split; [constructor|done].
  - destruct IH as [?|(y & Hy & ? & ?)]; [by left|]. right. exists y. split; [by constructor|done].
Qed.

Lemma hw_lt_key_lt c x : hw_lt c x -> key c.2 <> key x.2 -> bytes_cmp (key c.2) (key x.2) = Lt.
Proof.
  unfold hw_lt, hw_lex. intros H E. destruct (bytes_cmp _ _) eqn:C; [|done|done].
  apply bytes_cmp_eq in C. contradiction.
Qed.

Lemma hw_lex_key_le x y : hw_lex x y <> Gt -> bytes_cmp (key x.2) (key y.2) <> Gt.
Proof. unfold hw_lex. by destruct (bytes_cmp _ _). Qed.

(** Of two wrappers with distinct indices, the one not after the other
    is before it. *)
Lemma hw_lex_lt x y : hw_lex x y <> Gt -> x.1 <> y.1 -> hw_lt x y.
Proof.
  unfold hw_lt, hw_lex. destruct (bytes_cmp _ _); try done.
  intros H E. destruct (Nat.compare_spec x.1 y.1); [lia|done|done].
Qed.

Lemma notin_delete (h : list (HeapWrapper I)) j x :
  NoDup (fst <$> h) -> h !! j = Some x -> x.1 ∉ fst <$> delete j h.
Proof.
  intros Hnd Hj. rewrite (delete_Permutation h j x Hj), fmap_cons in Hnd.
  by apply NoDup_cons in Hnd as [? _].
Qed.

End heap.

(** ** The invariant *)

Section spec.
Context {I : Type} `{IterSpec I}.

(** The heap holds valid iterators that keep their invariant, each after
    the wrapper [c] in the heap's order. *)
Definition heap_ok (c : HeapWrapper I) (h : list (HeapWrapper I)) : Prop :=
  Forall (fun x => iter_inv x.2 /\ is_valid x.2 = true /\ hw_lt c x) h.

(** The current wrapper is the smallest, the indices are distinct, and
    an exhausted current iterator leaves nothing in the heap. *)
Definition merge_inv (m : MergeIterator I) : Prop :=
  match current m with
  | None => iters m = []
  | Some c =>
      iter_inv c.2 /\ NoDup (fst <$> c :: iters m) /\
      (is_valid c.2 = false -> iters m = []) /\ heap_ok c (iters m)
  end.

Lemma dropk_gt k v :
  match v with e :: _ => bytes_cmp k e.1 = Lt | [] => True end -> Union.dropk k v = v.
Proof.
  destruct v as [|e v]; [done|]. cbn. intros Hlt. rewrite decide_False; [done|].
  intros <-. by rewrite bytes_cmp_refl in Hlt.
Qed.

(** A valid iterator's view starts with its key. *)
Lemma view_head (it : I) :
  iter_inv it -> is_valid it = true ->
  exists rest, remaining it = (key it, value it) :: rest /\
    Forall (fun e => bytes_cmp (key it) e.1 = Lt) rest.
Proof.
  intros Hi Hv. destruct (valid_remaining it Hi Hv) as ([k v] & rest & Er & -> & ->).
  exists rest. split; [done|]. apply (Union.sorted_tail_gt (k, v)). rewrite <- Er. by apply inv_sorted.
Qed.

(** One turn of the loop on a top at the current key whose iterator
    stays valid: the heap keeps its shape, and the iterator holds one
    entry less. *)
Lemma skip_step_valid c h j i it it' :
  heap_ok c h -> NoDup (fst <$> c :: h) -> h !! j = Some (i, it) -> key it = key c.2 ->
  next it = (it', Ok ()) -> is_valid it' = true ->
  heap_ok c (<[j := (i, it')]> h) /\ NoDup (fst <$> c :: <[j := (i, it')]> h) /\
  bytes_cmp (key c.2) (key it') = Lt /\ iter_inv it' /\
  remaining it' = tail (remaining it).
Proof.
  intros Hok Hnd Hj Ck En Cv. pose proof (Forall_lookup_1 _ _ _ _ Hok Hj) as (Hinv & Hv & _).
  destruct (inv_next it it' Hinv Hv En) as [Hinv' Hr'].
  destruct (view_head it Hinv Hv) as (rest & Er & Hrest). rewrite Er in Hr'. cbn [tail] in Hr'.
  assert (Hkey : bytes_cmp (key c.2) (key it') = Lt).
  { destruct (view_head it' Hinv' Cv) as (rest' & Er' & _). rewrite Hr' in Er'.
    rewrite Er' in Hrest. apply Forall_cons in Hrest as [Hk _]. by rewrite <- Ck. }
  split; [|split; [|split; [done|split; [done|by rewrite Er]]]].
  - apply Forall_insert; [done|]. split; [done|]. split; [done|].
    unfold hw_lt, hw_lex. cbn. by rewrite Hkey.
  - rewrite fmap_cons, (fst_insert_same h j (i, it) (i, it') Hj eq_refl). exact Hnd.
Qed.

(** One turn that pops the top. *)
Lemma skip_step_delete c h j :
  heap_ok c h -> NoDup (fst <$> c :: h) ->
  heap_ok c (delete j h) /\ NoDup (fst <$> c :: delete j h).
Proof.
  intros Hok Hnd. split; [by apply Forall_delete|]. exact (NoDup_fst_delete (c :: h) (S j) Hnd).
Qed.

(** The loop moves on every heap iterator at the current key, and drops
    those it exhausts: afterwards every heap key is above the current
    key, and each source's view has lost its entry at that key. *)
Lemma skip_loop_ok fuel h c h' :
  heap_ok c h -> NoDup (fst <$> c :: h) -> skip_loop fuel h c = (h', Ok ()) ->
  Forall (fun x => iter_inv x.2 /\ is_valid x.2 = true /\ bytes_cmp (key c.2) (key x.2) = Lt) h' /\
  NoDup (fst <$> c :: h') /\
  (forall i, src_view h' i = Union.dropk (key c.2) (src_view h i)).
Proof.
  revert h; induction fuel as [|fuel IH]; intros h Hok Hnd Hs; [done|]. cbn [skip_loop] in Hs.
  destruct (heap_top h) as [[j [i it]]|] eqn:Ht.
  2:{ apply heap_top_None in Ht as ->. injection Hs as <-. by repeat split. }
  destruct (heap_top_spec _ _ _ Ht) as [Hj Hmin].
  pose proof Hnd as Hnd'. rewrite fmap_cons in Hnd'. apply NoDup_cons in Hnd' as [Hc Hndh].
  pose proof (Forall_lookup_1 _ _ _ _ Hok Hj) as (Hinv & Hv & Hlt). cbn [fst snd] in *.
  destruct (view_head it Hinv Hv) as (rest & Er & Hrest).
  assert (Hsplit : forall i', src_view h i' =
            if decide (i = i') then remaining it else src_view (delete j h) i')
    by (intros i'; exact (src_view_split h j (i, it) i' Hndh Hj)).
  case_bool_decide as Ck.
  - destruct (next it) as [it' [[]|e]] eqn:En; [|discriminate].
    destruct (inv_next it it' Hinv Hv En) as [Hinv' Hr']. rewrite Er in Hr'. cbn [tail] in Hr'.
    assert (Hdrop : Union.dropk (key c.2) (remaining it) = rest)
      by (rewrite Er, Ck; cbn; by rewrite decide_True).
    assert (Hrest' : Union.dropk (key c.2) rest = rest).
    { apply dropk_gt. destruct rest as [|e rest]; [done|]. rewrite <- Ck.
      by apply Forall_cons in Hrest as [? _]. }
    destruct (is_valid it') eqn:Cv.
    + destruct (skip_step_valid c h j i it it' Hok Hnd Hj Ck En Cv) as (Hok1 & Hnd1 & _).
      destruct (IH _ Hok1 Hnd1 Hs) as (Hf & Hnd2 & Hview). split; [done|]. split; [done|].
      intros i'. rewrite Hview, Hsplit.
      rewrite (src_view_split _ j (i, it') i'), delete_insert_same;
        [|by rewrite (fst_insert_same h j (i, it) (i, it') Hj eq_refl)
         |apply list_lookup_insert_eq, (lookup_lt_Some _ _ _ Hj)].
      cbn [fst snd]. destruct (decide (i = i')); [|done]. rewrite Hdrop, Hr'.
      by rewrite Hrest'.
    + assert (Hnil : rest = []) by (rewrite <- Hr'; by apply invalid_remaining).
      destruct (skip_step_delete c h j Hok Hnd) as [Hok1 Hnd1].
      destruct (IH (delete j h) Hok1 Hnd1 Hs) as (Hf & Hnd2 & Hview).
      split; [done|]. split; [done|]. intros i'. rewrite Hview, Hsplit.
      destruct (decide (i = i')) as [<-|]; [|done].
      rewrite src_view_notin by exact (notin_delete h j (i, it) Hndh Hj). by rewrite Hdrop, Hnil.
  - injection Hs as <-.
    assert (Hall : Forall (fun x => bytes_cmp (key c.2) (key x.2) = Lt) h).
    { rewrite Forall_forall. intros x Hx.
      pose proof (proj1 (Forall_forall _ _) Hmin x Hx) as Hle.
      apply (bytes_cmp_lt_le_trans _ (key it)); [by apply (hw_lt_key_lt c (i, it))|].
      by apply (hw_lex_key_le (i, it) x). }
    split.
    + rewrite Forall_forall. intros x Hx. pose proof (proj1 (Forall_forall _ _) Hok x Hx) as (? & ? & _).
      split; [done|]. split; [done|]. by apply (proj1 (Forall_forall _ _) Hall x Hx).
    + split; [done|]. intros i'. destruct (src_view_cases h i') as [->|(x & Hx & _ & ->)]; [done|].
      symmetry. apply dropk_gt. pose proof (proj1 (Forall_forall _ _) Hok x Hx) as (Hxi & Hxv & _).
      destruct (view_head x.2 Hxi Hxv) as (rest' & -> & _). by apply (proj1 (Forall_forall _ _) Hall x Hx).
Qed.

(** The top of a heap of valid iterators with distinct indices is
    before every other wrapper of the heap. *)
Lemma top_heap_ok h j x :
  heap_top h = Some (j, x) -> NoDup (fst <$> h) ->
  Forall (fun z => iter_inv z.2 /\ is_valid z.2 = true) h -> heap_ok x (delete j h).
Proof.
  intros Ht Hnd Hf. destruct (heap_top_spec _ _ _ Ht) as [Hj Hmin].
  pose proof (notin_delete h j x Hnd Hj) as Hx.
  apply (Forall_delete _ _ j) in Hf, Hmin. unfold heap_ok. rewrite Forall_forall in Hf, Hmin |- *.
  intros z Hz. destruct (Hf z Hz) as [? ?]. split; [done|]. split; [done|].
  apply hw_lex_lt; [by apply Hmin|]. intros E. apply Hx. rewrite E.
  by apply list_elem_of_fmap_2.
Qed.

(** After the loop and the step of the current iterator, the sources'
    views have lost their entries at the current key. *)
Lemma next_views c it' h h' i :
  iter_inv c.2 -> is_valid c.2 = true -> remaining it' = tail (remaining c.2) ->
  (forall i, src_view h' i = Union.dropk (key c.2) (src_view h i)) ->
  src_view ((c.1, it') :: h') i = Union.dropk (key c.2) (src_view (c :: h) i).
Proof.
  intros Hci Hv Hr Hview. cbn [src_view fst snd]. destruct (decide (c.1 = i)); [|done].
  destruct (view_head c.2 Hci Hv) as (rest & Er & _). rewrite Hr, Er. cbn. by rewrite decide_True.
Qed.

(** The valid branch: keep the current wrapper, or swap it with the top
    of the heap when the top is now smaller. *)
Lemma reselect_ok (c : HeapWrapper I) h m' :
  iter_inv c.2 -> is_valid c.2 = true -> NoDup (fst <$> c :: h) ->
  Forall (fun z => iter_inv z.2 /\ is_valid z.2 = true) h ->
  match heap_top h with
  | Some (j, inner) =>
      if hw_cmp c inner is Lt then (mkMerge (<[j := c]> h) (Some inner), Ok ())
      else (mkMerge h (Some c), Ok ())
  | None => (mkMerge h (Some c), Ok ())
  end = (m', Ok ()) ->
  merge_inv m' /\ forall i, src_view (wrappers m') i = src_view (c :: h) i.
Proof.
  intros Hci Hv Hnd Hf Hm. rewrite fmap_cons in Hnd. pose proof Hnd as [Hc Hndh]%NoDup_cons.
  destruct (heap_top h) as [[j inner]|] eqn:Ht.
  2:{ injection Hm as <-. apply heap_top_None in Ht as ->. split; [|done]. split; [done|].
      split; [done|]. split; [congruence|constructor]. }
  destruct (heap_top_spec _ _ _ Ht) as [Hj Hmin].
  pose proof (top_heap_ok h j inner Ht Hndh Hf) as Hok.
  assert (Hperm : inner :: <[j := c]> h ≡ₚ c :: h).
  { etrans; [apply perm_skip, (insert_Permutation h j inner c Hj)|].
    etrans; [apply perm_swap|]. apply perm_skip. symmetry. by apply delete_Permutation. }
  assert (Hkeep : hw_lex c inner <> Gt -> merge_inv (mkMerge h (Some c))).
  { intros Hle. split; [done|]. split; [by rewrite fmap_cons|]. split; [congruence|].
    unfold heap_ok. rewrite Forall_forall in Hf, Hmin |- *. intros z Hz. destruct (Hf z Hz) as [? ?].
    split; [done|]. split; [done|]. apply hw_lex_lt.
    + apply (hw_lex_le_trans _ inner); [done|by apply Hmin].
    + intros E. apply Hc. rewrite E. by apply list_elem_of_fmap_2. }
  rewrite hw_cmp_lex in Hm. destruct (hw_lex c inner) eqn:Cmp; cbn [CompOpp] in Hm;
    injection Hm as <-; cbn [wrappers current iters].
  - split; [|done]. by apply Hkeep.
  - split; [|done]. by apply Hkeep.
  - destruct (Forall_lookup_1 _ _ _ _ Hf Hj) as [? ?]. split.
    + split; [done|]. split; [rewrite Hperm; exact Hnd|]. split; [congruence|].
      unfold heap_ok; cbn [iters]. rewrite (insert_Permutation h j inner c Hj). constructor; [|done].
      split; [done|]. split; [done|]. unfold hw_lt. by rewrite hw_lex_antisym, Cmp.
    + intros i. apply src_view_perm; [|done]. rewrite Hperm; exact Hnd.
Qed.

(** The exhausted branch: pop the heap's top as the current wrapper, or
    keep the exhausted one when the heap is empty. *)
Lemma pop_ok (c : HeapWrapper I) h m' :
  iter_inv c.2 -> is_valid c.2 = false -> NoDup (fst <$> c :: h) ->
  Forall (fun z => iter_inv z.2 /\ is_valid z.2 = true) h ->
  match heap_pop h with
  | Some (x, h'') => (mkMerge h'' (Some x), Ok ())
  | None => (mkMerge h (Some c), Ok ())
  end = (m', Ok ()) ->
  merge_inv m' /\ forall i, src_view (wrappers m') i = src_view (c :: h) i.
Proof.
  intros Hci Hv Hnd Hf Hm. rewrite fmap_cons in Hnd. pose proof Hnd as [Hc Hndh]%NoDup_cons.
  unfold heap_pop in Hm. destruct (heap_top h) as [[j x]|] eqn:Ht; cbn in Hm; injection Hm as <-.
  - destruct (heap_top_spec _ _ _ Ht) as [Hj _]. destruct (Forall_lookup_1 _ _ _ _ Hf Hj) as [? ?].
    split.
    + split; [done|]. split; [by rewrite <- (delete_Permutation h j x Hj)|].
      split; [congruence|]. exact (top_heap_ok h j x Ht Hndh Hf).
    + intros i. cbn [wrappers current iters].
      rewrite <- (src_view_perm h (x :: delete j h) i Hndh (delete_Permutation h j x Hj)).
      cbn [src_view]. destruct (decide (c.1 = i)) as [<-|]; [|done].
      rewrite (invalid_remaining _ Hci Hv). by apply src_view_notin.
  - apply heap_top_None in Ht as ->. split; [|done]. split; [done|]. split; [by rewrite fmap_cons|].
    split; [done|constructor].
Qed.

(** Whatever the loop returns, the heap it leaves is sound around the
    current wrapper: a failing source is dropped, the others are moved
    on or left as they were. *)
Lemma skip_loop_heap_ok fuel h c h' r :
  heap_ok c h -> NoDup (fst <$> c :: h) -> skip_loop fuel h c = (h', r) ->
  heap_ok c h' /\ NoDup (fst <$> c :: h').
Proof.
  revert h; induction fuel as [|fuel IH]; intros h Hok Hnd Hs; cbn [skip_loop] in Hs;
    [by injection Hs as <- _|].
  destruct (heap_top h) as [[j [i it]]|] eqn:Ht; [|by injection Hs as <- _].
  destruct (heap_top_spec _ _ _ Ht) as [Hj _].
  case_bool_decide as Ck; [|by injection Hs as <- _].
  destruct (next it) as [it' [[]|e]] eqn:En.
  - destruct (is_valid it') eqn:Cv.
    + destruct (skip_step_valid c h j i it it' Hok Hnd Hj Ck En Cv) as (Hok' & Hnd' & _).
      exact (IH _ Hok' Hnd' Hs).
    + destruct (skip_step_delete c h j Hok Hnd) as [Hok' Hnd']. exact (IH _ Hok' Hnd' Hs).
  - injection Hs as <- _. exact (skip_step_delete c h j Hok Hnd).
Qed.

(** Heap iterators whose keys are above the current key come after it. *)
Lemma heap_ok_above c h :
  Forall (fun x => iter_inv x.2 /\ is_valid x.2 = true /\ bytes_cmp (key c.2) (key x.2) = Lt) h ->
  heap_ok c h.
Proof.
  intros Hf. eapply Forall_impl; [exact Hf|]. intros x (Hi & Hv & Hk).
  split_and!; [done|done|]. unfold hw_lt, hw_lex. by rewrite Hk.
Qed.

(** One successful step of the merge: the invariant is kept, and each
    source's view loses its entry at the merge's current key. *)
Lemma merge_next_ok (m m' : MergeIterator I) :
  merge_inv m -> merge_is_valid m = true -> merge_next m = (m', Ok ()) ->
  merge_inv m' /\
  forall i, src_view (wrappers m') i = Union.dropk (merge_key m) (src_view (wrappers m) i).
Proof.
  destruct m as [h [c|]]; cbn [merge_is_valid current]; [|done].
  intros (Hci & Hnd & _ & Hok) Hv. unfold merge_next. cbn [current iters].
  destruct (skip_loop (heap_fuel h) h c) as [h' [[]|e]] eqn:Hs; [|intros [=]].
  destruct (skip_loop_ok _ _ _ _ Hok Hnd Hs) as (Hf & Hnd' & Hview).
  destruct (next c.2) as [it' [[]|e]] eqn:En; [|intros [=]].
  destruct (inv_next _ _ Hci Hv En) as [Hi' Hr'].
  assert (Hf' : Forall (fun z => iter_inv z.2 /\ is_valid z.2 = true) h')
    by (eapply Forall_impl; [exact Hf|]; by intros ? (? & ? & _)).
  pose proof (next_views c it' h h') as Hv'.
  unfold merge_key; cbn [current wrappers fst snd]. intros Hm.
  destruct (is_valid it') eqn:Cv; cbn [negb] in Hm.
  - destruct (reselect_ok (c.1, it') h' m' Hi' Cv Hnd' Hf' Hm) as [Hinv Hw].
    split; [done|]. intros i. rewrite Hw. by apply Hv'.
  - destruct (pop_ok (c.1, it') h' m' Hi' Cv Hnd' Hf' Hm) as [Hinv Hw].
    split; [done|]. intros i. rewrite Hw. by apply Hv'.
Qed.

(** ** The view *)

(** The union of the views of sources [0 .. N-1]. *)
Definition view_upto (W : list (HeapWrapper I)) (N : nat) : list entry :=
  Union.kunion (src_view W <$> seq 0 N).

Lemma view_upto_add W N k :
  Forall (fun i => i < N) (fst <$> W) -> view_upto W (N + k) = view_upto W N.
Proof.
  intros HN. unfold view_upto. rewrite seq_app, fmap_app. apply Union.kunion_app_nil.
  rewrite Forall_forall. intros v (i & -> & Hi%elem_of_seq)%list_elem_of_fmap.
  apply src_view_notin. intros Hin. rewrite Forall_forall in HN. specialize (HN i Hin). lia.
Qed.

Lemma view_upto_ext W N1 N2 :
  Forall (fun i => i < N1) (fst <$> W) -> Forall (fun i => i < N2) (fst <$> W) ->
  view_upto W N1 = view_upto W N2.
Proof.
  intros H1 H2. destruct (decide (N1 <= N2)).
  - replace N2 with (N1 + (N2 - N1)) by lia. by rewrite view_upto_add.
  - replace N1 with (N2 + (N1 - N2)) by lia. by rewrite view_upto_add.
Qed.

Lemma idx_bound (l : list nat) : Forall (fun i => i < S (list_max l)) l.
Proof.
  pose proof (proj1 (list_max_le l (list_max l)) (le_n _)) as Hle.
  eapply Forall_impl; [exact Hle|]. simpl. lia.
Qed.

Lemma merge_remaining_upto (m : MergeIterator I) N :
  Forall (fun i => i < N) (fst <$> wrappers m) -> merge_remaining m = view_upto (wrappers m) N.
Proof. intros HN. apply view_upto_ext; [apply idx_bound|done]. Qed.

(** Under the invariant every wrapper keeps its iterator's invariant,
    and the heap's are valid and after the current one. *)
Lemma wrappers_ok c h :
  iter_inv c.2 -> heap_ok c h ->
  Forall (fun x => iter_inv x.2 /\ (x = c \/ (is_valid x.2 = true /\ hw_lt c x))) (c :: h).
Proof.
  intros Hci Hok. constructor; [by split; [|left]|].
  eapply Forall_impl; [exact Hok|]. intros x (? & ? & ?). split; [done|]. by right.
Qed.

(** A valid merge's view starts with the current entry, followed by the
    union of the sources' views without their entries at that key. *)
Lemma merge_view_step (m : MergeIterator I) N :
  merge_inv m -> merge_is_valid m = true -> Forall (fun i => i < N) (fst <$> wrappers m) ->
  view_upto (wrappers m) N =
  (merge_key m, merge_value m) ::
    Union.kunion (Union.dropk (merge_key m) <$> (src_view (wrappers m) <$> seq 0 N)).
Proof.
  destruct m as [h [c|]]; cbn [merge_is_valid merge_key merge_value wrappers current iters]; [|done].
  intros (Hci & Hnd & _ & Hok) Hv HN. pose proof (wrappers_ok c h Hci Hok) as Hall.
  rewrite Forall_forall in Hall.
  destruct (view_head c.2 Hci Hv) as (rest & Erc & _).
  assert (Hviews : forall i, src_view (c :: h) i = [] \/
            exists x, x ∈ c :: h /\ x.1 = i /\ src_view (c :: h) i = remaining x.2)
    by (intros i; apply src_view_cases).
  destruct (Union.kunion_dropk (key c.2) (src_view (c :: h) <$> seq 0 N)) as [Hk _].
  - rewrite Forall_forall. intros v (i & -> & _)%list_elem_of_fmap.
    destruct (Hviews i) as [->|(x & Hx & _ & ->)]; [constructor|]. apply inv_sorted, Hall, Hx.
  - rewrite Forall_forall. intros v (i & -> & _)%list_elem_of_fmap.
    destruct (Hviews i) as [->|(x & Hx & _ & ->)]; [done|].
    destruct (Hall x Hx) as [Hxi [->|[Hxv Hlt]]].
    + rewrite Erc. cbn. by rewrite bytes_cmp_refl.
    + destruct (view_head x.2 Hxi Hxv) as (r & -> & _). cbn. by apply hw_lt_key.
  - unfold view_upto. rewrite Hk. f_equal. clear Hk.
    assert (Hc : c.1 < N) by (apply Forall_cons in HN as [? _]; done).
    replace N with (c.1 + S (N - S c.1)) by lia. rewrite seq_app, fmap_app. cbn [seq].
    rewrite Union.first_head_app_skip.
    + cbn [fmap list_fmap Union.first_head]. rewrite Nat.add_0_l. cbn [src_view].
      rewrite decide_True, Erc by done. cbn. by rewrite decide_True.
    + rewrite Forall_forall. intros v (i & -> & Hi%elem_of_seq)%list_elem_of_fmap.
      destruct (Hviews i) as [->|(x & Hx & Hxi & ->)]; [done|].
      destruct (Hall x Hx) as [Hxinv [->|[Hxv Hlt]]]; [lia|].
      destruct (view_head x.2 Hxinv Hxv) as (r & -> & _). cbn. intros E.
      pose proof (hw_lt_eq_key c x Hlt (eq_sym E)). lia.
Qed.

Lemma bound_both (m m' : MergeIterator I) :
  let N := S (list_max (fst <$> wrappers m)) + S (list_max (fst <$> wrappers m')) in
  Forall (fun i => i < N) (fst <$> wrappers m) /\ Forall (fun i => i < N) (fst <$> wrappers m').
Proof.
  split; eapply Forall_impl; try apply idx_bound; simpl; lia.
Qed.

Lemma merge_inv_next (m m' : MergeIterator I) :
  merge_inv m -> merge_is_valid m = true -> merge_next m = (m', Ok ()) ->
  merge_inv m' /\ merge_remaining m' = tail (merge_remaining m).
Proof.
  intros Hi Hv Hn. destruct (merge_next_ok m m' Hi Hv Hn) as [Hi' Hw]. split; [done|].
  destruct (bound_both m m') as [B1 B2].
  rewrite (merge_remaining_upto m _ B1), (merge_remaining_upto m' _ B2).
  rewrite (merge_view_step m _ Hi Hv B1). cbn [tail]. unfold view_upto.
  rewrite <- list_fmap_compose. f_equal. apply list_fmap_ext. intros. apply Hw.
Qed.

(** A merge whose current iterator is exhausted shows nothing. *)
Lemma merge_remaining_invalid (m : MergeIterator I) :
  merge_inv m -> merge_is_valid m = false -> merge_remaining m = [].
Proof.
  destruct m as [h [c|]]; unfold merge_inv, merge_is_valid, merge_remaining, wrappers;
    cbn [current iters].
  - intros (Hci & _ & Hh & _) Hv. rewrite (Hh Hv).
    apply Union.kunion_all_nil. rewrite Forall_forall. intros v (i & -> & _)%list_elem_of_fmap.
    cbn. case_decide; [|done]. by apply invalid_remaining.
  - intros -> _. apply Union.kunion_all_nil.
    rewrite Forall_forall. by intros v (i & -> & _)%list_elem_of_fmap.
Qed.

Lemma merge_remaining_valid (m : MergeIterator I) :
  merge_inv m -> merge_is_valid m = true ->
  exists rest, merge_remaining m = (merge_key m, merge_value m) :: rest.
Proof.
  intros Hi Hv. pose proof (idx_bound (fst <$> wrappers m)) as B.
  rewrite (merge_remaining_upto m _ B), (merge_view_step m _ Hi Hv B). by eexists.
Qed.

Lemma merge_inv_valid (m : MergeIterator I) :
  merge_inv m -> merge_is_valid m = bool_decide (merge_remaining m <> []).
Proof.
  intros Hi. destruct (merge_is_valid m) eqn:Hv.
  - destruct (merge_remaining_valid m Hi Hv) as [rest ->].
    symmetry. apply bool_decide_eq_true. discriminate.
  - rewrite (merge_remaining_invalid m Hi Hv). symmetry. apply bool_decide_eq_false.
    intros Hc. by apply Hc.
Qed.

Lemma merge_inv_head (m : MergeIterator I) e rest :
  merge_inv m -> merge_remaining m = e :: rest -> merge_key m = e.1 /\ merge_value m = e.2.
Proof.
  intros Hi Hr. destruct (merge_is_valid m) eqn:Hv.
  - destruct (merge_remaining_valid m Hi Hv) as [rest' Hr']. rewrite Hr' in Hr.
    by injection Hr as <- _.
  - by rewrite (merge_remaining_invalid m Hi Hv) in Hr.
Qed.

Lemma merge_inv_sorted (m : MergeIterator I) : merge_inv m -> keys_sorted (merge_remaining m).
Proof.
  intros Hi. apply Union.kunion_sorted. rewrite Forall_forall.
  intros v (i & -> & _)%list_elem_of_fmap.
  destruct (src_view_cases (wrappers m) i) as [->|(x & Hx & _ & ->)]; [constructor|].
  apply inv_sorted. unfold merge_inv, wrappers in *. destruct (current m) as [c|].
  - destruct Hi as (Hci & _ & _ & Hok). apply elem_of_cons in Hx as [->|Hx]; [done|].
    by apply (proj1 (Forall_forall _ _) Hok x Hx).
  - rewrite Hi in Hx. by apply not_elem_of_nil in Hx.
Qed.

#[export] Instance merge_iter_spec : IterSpec (MergeIterator I) := {|
  iter_inv := merge_inv;
  inv_valid := merge_inv_valid;
  inv_head := merge_inv_head;
  inv_next := merge_inv_next;
  inv_sorted := merge_inv_sorted;
|}.

(** ** Creation *)

Lemma create_heap (acc l : list (HeapWrapper I)) :
  foldl (fun h '(idx, it) => if is_valid it then heap_push h (idx, it) else h) acc l =
  acc ++ filter (fun x => is_valid x.2 = true) l.
Proof.
  revert acc; induction l as [|[idx it] l IH]; intros acc; cbn [foldl]; [by rewrite app_nil_r|].
  rewrite IH, filter_cons. cbn [snd]. unfold heap_push.
  destruct (is_valid it); [by rewrite decide_True, <- app_assoc|by rewrite decide_False].
Qed.

(** The view of source [i] in the heap [create] builds. *)
Lemma src_view_enum off (srcs : list I) i :
  src_view (filter (fun x => is_valid x.2 = true) (zip (seq off (length srcs)) srcs)) i =
  if decide (off <= i) then
    match srcs !! (i - off) with Some it => if is_valid it then remaining it else [] | None => [] end
  else [].
Proof.
  revert off; induction srcs as [|x srcs IH]; intros off; cbn [length seq zip].
  - by case_decide; [destruct (i - off)|].
  - rewrite filter_cons. cbn [snd fst]. specialize (IH (S off)).
    destruct (lt_eq_lt_dec i off) as [[Hlt|<-]|Hgt].
    + rewrite (decide_False (P := off <= i)) by lia.
      rewrite (decide_False (P := S off <= i)) in IH by lia.
      destruct (is_valid x); [rewrite decide_True by done|rewrite decide_False by done];
        cbn [src_view fst]; rewrite ?(decide_False (P := off = i)) by lia; done.
    + rewrite (decide_True (P := i <= i)), Nat.sub_diag by done. cbn [lookup list_lookup].
      rewrite (decide_False (P := S i <= i)) in IH by lia.
      destruct (is_valid x) eqn:Hx; [rewrite decide_True by done|rewrite decide_False by done];
        cbn [src_view fst]; rewrite ?(decide_True (P := i = i)) by done; done.
    + rewrite (decide_True (P := off <= i)) by lia.
      rewrite (decide_True (P := S off <= i)) in IH by lia.
      replace (i - off) with (S (i - S off)) by lia. cbn [lookup list_lookup].
      destruct (is_valid x); [rewrite decide_True by done|rewrite decide_False by done];
        cbn [src_view fst]; rewrite ?(decide_False (P := off = i)) by lia; done.
Qed.

(** The heap [create] builds: valid iterators keeping their invariant,
    with distinct indices in range. *)
Lemma enum_ok off (srcs : list I) :
  Forall iter_inv srcs ->
  let hp := filter (fun x => is_valid x.2 = true) (zip (seq off (length srcs)) srcs) in
  Forall (fun x => iter_inv x.2 /\ is_valid x.2 = true /\ off <= x.1 < off + length srcs) hp /\
  NoDup (fst <$> hp).
Proof.
  revert off; induction srcs as [|x srcs IH]; intros off Hs hp; subst hp; cbn [length seq zip].
  - split; constructor.
  - apply Forall_cons in Hs as [Hx Hs]. destruct (IH (S off) Hs) as [Hf Hnd].
    assert (Hf' : Forall (fun y => iter_inv y.2 /\ is_valid y.2 = true /\ off <= y.1 < off + S (length srcs))
                    (filter (fun x => is_valid x.2 = true) (zip (seq (S off) (length srcs)) srcs)))
      by (eapply Forall_impl; [exact Hf|]; intros y (? & ? & ?); repeat split; try done; lia).
    rewrite filter_cons. cbn [snd fst]. case_decide as Hv; [|done]. split.
    + constructor; [|done]. cbn [fst snd]. repeat split; try done; lia.
    + rewrite fmap_cons. constructor; [|done]. intros Hin.
      apply list_elem_of_fmap in Hin as (y & Ey & Hy). cbn [fst] in Ey. rewrite Forall_forall in Hf.
      destruct (Hf y Hy) as (_ & _ & ?). lia.
Qed.

Lemma forallb_false_lookup {A} (f : A -> bool) l :
  forallb f l = false -> exists i x, l !! i = Some x /\ f x = false.
Proof.
  induction l as [|x l IH]; [done|]. cbn. destruct (f x) eqn:E; cbn.
  - intros Hl. destruct (IH Hl) as (i & y & ? & ?). by exists (S i), y.
  - intros _. by exists 0, x.
Qed.

(** The sources' views, in index order. *)
Lemma views_of_srcs (srcs : list I) :
  Forall iter_inv srcs ->
  (fun i => src_view (filter (fun x => is_valid x.2 = true) (zip (seq 0 (length srcs)) srcs)) i)
    <$> seq 0 (length srcs) = remaining <$> srcs.
Proof.
  intros Hs. apply list_eq. intros i. rewrite !list_lookup_fmap.
  destruct (decide (i < length srcs)) as [Hi|Hi].
  - rewrite lookup_seq_lt by done. cbn. rewrite src_view_enum, decide_True, Nat.sub_0_r by lia.
    destruct (lookup_lt_is_Some_2 srcs i Hi) as [x Hx]. rewrite Hx. cbn. f_equal.
    destruct (is_valid x) eqn:Hv; [done|]. symmetry. apply invalid_remaining; [|done].
    by apply (Forall_lookup_1 _ _ _ _ Hs Hx).
  - rewrite lookup_seq_ge by lia. by rewrite lookup_ge_None_2 by lia.
Qed.

(** [create] on sources keeping their invariants returns a merge that
    keeps its invariant, with the union of the sources as its view. *)
Lemma merge_create_ok (srcs : list I) :
  Forall iter_inv srcs ->
  exists m, create srcs = Some m /\ merge_inv m /\ merge_remaining m = Union.kunion (remaining <$> srcs).
Proof.
  intros Hs. unfold create. rewrite create_heap. cbn [app].
  set (hp := filter (fun x => is_valid x.2 = true) (zip (seq 0 (length srcs)) srcs)).
  destruct (enum_ok 0 srcs Hs) as [Hf Hnd]. fold hp in Hf, Hnd.
  destruct (match srcs with [] => true | _ => false end || forallb (fun x => negb (is_valid x)) srcs)
    eqn:Hempty.
  - exists (mkMerge [] None). split; [done|]. split; [done|].
    rewrite Union.kunion_all_nil.
    + apply Union.kunion_all_nil. rewrite Forall_forall. by intros v (i & -> & _)%list_elem_of_fmap.
    + apply orb_true_iff in Hempty as [Hn|Ha].
      * by destruct srcs.
      * rewrite Forall_fmap, Forall_forall. intros x Hx. rewrite forallb_forall in Ha. cbn.
        apply invalid_remaining; [by apply (proj1 (Forall_forall _ _) Hs x Hx)|].
        apply negb_true_iff, Ha. by apply list_elem_of_In.
  - apply orb_false_iff in Hempty as [Hn Ha].
    apply forallb_false_lookup in Ha as (i & x & Hx & Hv). apply negb_false_iff in Hv.
    destruct (heap_top hp) as [[j y]|] eqn:Ht.
    2:{ exfalso. apply heap_top_None in Ht.
        pose proof (src_view_enum 0 srcs i) as E. fold hp in E. rewrite Ht in E.
        rewrite decide_True, Nat.sub_0_r, Hx, Hv in E by lia.
        destruct (view_head x (Forall_lookup_1 _ _ _ _ Hs Hx) Hv) as (r & Er & _).
        rewrite Er in E. discriminate. }
    destruct (heap_top_spec _ _ _ Ht) as [Hj _].
    assert (Hf' : Forall (fun z => iter_inv z.2 /\ is_valid z.2 = true) hp)
      by (eapply Forall_impl; [exact Hf|]; by intros ? (? & ? & _)).
    destruct (Forall_lookup_1 _ _ _ _ Hf' Hj) as [? ?].
    eexists. split; [unfold heap_pop; by rewrite Ht|].
    assert (Hperm : y :: delete j hp ≡ₚ hp) by (symmetry; by apply delete_Permutation).
    split.
    + split; [done|]. split; [by rewrite Hperm|]. split; [congruence|].
      exact (top_heap_ok hp j y Ht Hnd Hf').
    + assert (HN : Forall (fun i => i < length srcs) (fst <$> y :: delete j hp)).
      { rewrite Hperm, Forall_fmap. eapply Forall_impl; [exact Hf|]. cbn. lia. }
      rewrite (merge_remaining_upto (mkMerge (delete j hp) (Some y)) (length srcs) HN). unfold view_upto. cbn [wrappers current iters].
      rewrite <- (views_of_srcs srcs Hs). f_equal. apply list_fmap_ext. intros k z _.
      apply src_view_perm; [by rewrite Hperm|done].
Qed.

End spec.

(** ** Reliability *)

Section reliable.
Context {I : Type} `{IterSpec I} {RI : IterReliable I}.

Lemma sum_perm (f : HeapWrapper I -> nat) l1 l2 :
  l1 ≡ₚ l2 -> sum_list_with f l1 = sum_list_with f l2.
Proof. induction 1; cbn; lia. Qed.

(** With sources that never fail, the loop ends by its own test within
    its bound. *)
Lemma skip_loop_reliable fuel h c :
  heap_ok c h -> NoDup (fst <$> c :: h) ->
  sum_list_with (fun x => S (length (remaining x.2))) h < fuel ->
  (skip_loop fuel h c).2 = Ok ().
Proof using RI.
  revert h; induction fuel as [|fuel IH]; intros h Hok Hnd Hf; [lia|]. cbn [skip_loop].
  destruct (heap_top h) as [[j [i it]]|] eqn:Ht; [|done].
  destruct (heap_top_spec _ _ _ Ht) as [Hj _].
  pose proof (Forall_lookup_1 _ _ _ _ Hok Hj) as (Hinv & Hv & _).
  case_bool_decide as Ck; [|done].
  pose proof (next_reliable it Hinv Hv) as Hr.
  destruct (next it) as [it' r] eqn:En. cbn in Hr. subst r.
  rewrite (sum_perm _ _ _ (delete_Permutation h j _ Hj)) in Hf. cbn in Hf.
  pose proof (next_length it it' Hinv Hv En) as Hlen.
  destruct (is_valid it') eqn:Cv.
  - destruct (skip_step_valid c h j i it it' Hok Hnd Hj Ck En Cv) as (Hok1 & Hnd1 & _).
    apply IH; [done|done|].
    rewrite (sum_perm _ _ _ (insert_Permutation h j (i, it) (i, it') Hj)). cbn. lia.
  - destruct (skip_step_delete c h j Hok Hnd) as [Hok1 Hnd1]. apply IH; [done|done|]. lia.
Qed.

Lemma merge_next_reliable (m : MergeIterator I) :
  merge_inv m -> merge_is_valid m = true -> (merge_next m).2 = Ok ().
Proof using RI.
  destruct m as [h [c|]]; cbn [merge_is_valid merge_inv current iters]; [|done].
  intros (Hci & Hnd & _ & Hok) Hv. unfold merge_next. cbn [current iters].
  pose proof (skip_loop_reliable (heap_fuel h) h c Hok Hnd ltac:(unfold heap_fuel; lia)) as Hs.
  destruct (skip_loop (heap_fuel h) h c) as [h' r] eqn:Es. cbn in Hs. subst r.
  pose proof (next_reliable c.2 Hci Hv) as Hr.
  destruct (next c.2) as [it' r] eqn:En. cbn in Hr. subst r.
  cbn [fst snd]. destruct (is_valid it'); cbn [negb].
  - destruct (heap_top h') as [[j inner]|]; [|done]. by destruct (hw_cmp _ _).
  - by destruct (heap_pop h') as [[x h'']|].
Qed.

#[export] Instance merge_iter_reliable : IterReliable (MergeIterator I).
Proof using RI. intros m Hi Hv. by apply merge_next_reliable. Qed.

End reliable.

(** C30: the [peek_mut] loop of [next] terminates: above its bound (one
    turn per wrapper and per entry the heap's iterators still hold) its
    result does not depend on the fuel, whether it stops by its own test
    or on the error of a source; so [heap_fuel] loses nothing. *)
Theorem skip_loop_fuel_irrelevant {I : Type} `{IterSpec I} (fuel1 fuel2 : nat)
    (h : list (HeapWrapper I)) (c : HeapWrapper I) :
  heap_ok c h -> NoDup (fst <$> c :: h) ->
  sum_list_with (fun x => S (length (remaining x.2))) h < fuel1 ->
  sum_list_with (fun x => S (length (remaining x.2))) h < fuel2 ->
  skip_loop fuel1 h c = skip_loop fuel2 h c.
Proof.
  revert fuel2 h; induction fuel1 as [|fuel1 IH]; intros [|fuel2] h Hok Hnd Hf1 Hf2; [lia..|].
  cbn [skip_loop]. destruct (heap_top h) as [[j [i it]]|] eqn:Ht; [|done].
  destruct (heap_top_spec _ _ _ Ht) as [Hj _].
  pose proof (Forall_lookup_1 _ _ _ _ Hok Hj) as (Hinv & Hv & _).
  case_bool_decide as Ck; [|done].
  destruct (next it) as [it' [[]|e]] eqn:En; [|done].
  rewrite (sum_perm _ _ _ (delete_Permutation h j _ Hj)) in Hf1, Hf2. cbn in Hf1, Hf2.
  pose proof (next_length it it' Hinv Hv En) as Hlen.
  destruct (is_valid it') eqn:Cv.
  - destruct (skip_step_valid c h j i it it' Hok Hnd Hj Ck En Cv) as (Hok1 & Hnd1 & _).
    apply IH; [done|done|..];
      rewrite (sum_perm _ _ _ (insert_Permutation h j (i, it) (i, it') Hj)); cbn; lia.
  - destruct (skip_step_delete c h j Hok Hnd) as [Hok1 Hnd1]. apply IH; [done|done|lia|lia].
Qed.

Lemma skip_loop_fuel_irrelevant_witness :
  heap_ok (0, vec_of [([Byte.x01], [Byte.x0a])]) [(1, vec_of [([Byte.x01], [Byte.x0b]); ([Byte.x02], [Byte.x0c])])] /\ NoDup (fst <$> (0, vec_of [([Byte.x01], [Byte.x0a])]) :: [(1, vec_of [([Byte.x01], [Byte.x0b]); ([Byte.x02], [Byte.x0c])])]) /\
  sum_list_with (fun x => S (length (remaining x.2))) [(1, vec_of [([Byte.x01], [Byte.x0b]); ([Byte.x02], [Byte.x0c])])] < 4 /\
  sum_list_with (fun x => S (length (remaining x.2))) [(1, vec_of [([Byte.x01], [Byte.x0b]); ([Byte.x02], [Byte.x0c])])] < 9 /\
  skip_loop 4 [(1, vec_of [([Byte.x01], [Byte.x0b]); ([Byte.x02], [Byte.x0c])])] (0, vec_of [([Byte.x01], [Byte.x0a])]) = skip_loop 9 [(1, vec_of [([Byte.x01], [Byte.x0b]); ([Byte.x02], [Byte.x0c])])] (0, vec_of [([Byte.x01], [Byte.x0a])]).
Proof.
  assert (Hok : heap_ok (0, vec_of [([Byte.x01], [Byte.x0a])]) [(1, vec_of [([Byte.x01], [Byte.x0b]); ([Byte.x02], [Byte.x0c])])]).
  { constructor; [|constructor]. split; [split; [decide_by_eval|reflexivity]|]. split; reflexivity. }
  assert (Hnd : NoDup (fst <$> (0, vec_of [([Byte.x01], [Byte.x0a])]) :: [(1, vec_of [([Byte.x01], [Byte.x0b]); ([Byte.x02], [Byte.x0c])])])) by decide_by_eval.
  assert (H1 : sum_list_with (fun x => S (length (remaining x.2))) [(1, vec_of [([Byte.x01], [Byte.x0b]); ([Byte.x02], [Byte.x0c])])] < 4) by (vm_compute; lia).
  assert (H2 : sum_list_with (fun x => S (length (remaining x.2))) [(1, vec_of [([Byte.x01], [Byte.x0b]); ([Byte.x02], [Byte.x0c])])] < 9) by (vm_compute; lia).
  split; [exact Hok|]. split; [exact Hnd|]. split; [exact H1|]. split; [exact H2|].
  exact (skip_loop_fuel_irrelevant 4 9 _ _ Hok Hnd H1 H2).
Defined.

(** ** What the merge promises *)

(** C22: over sources that keep their invariants and never fail,
    [create] returns a merge, and the caller's loop over it yields the
    union of the sources in index order: each key once, ascending, with
    the entry of the lowest-indexed source that holds it. *)
Theorem merge_yields_union {I : Type} `{IterSpec I} `{!IterReliable I} (srcs : list I) :
  Forall iter_inv srcs ->
  exists m, create srcs = Some m /\
    collect (S (length (Union.kunion (remaining <$> srcs)))) m = Ok (Union.kunion (remaining <$> srcs)).
Proof.
  intros Hs. destruct (merge_create_ok srcs Hs) as (m & Hc & Hi & Hr).
  exists m. split; [done|]. rewrite <- Hr.
  exact (collect_remaining (I := MergeIterator I) _ m Hi (Nat.lt_succ_diag_r _)).
Qed.

Lemma merge_yields_union_witness :
  Forall iter_inv [vec_of [([Byte.x62], [Byte.x31]); ([Byte.x63], [Byte.x33])];
                   vec_of [([Byte.x61], [Byte.x32]); ([Byte.x62], [Byte.x32])]; vec_of []] /\
  exists m, create [vec_of [([Byte.x62], [Byte.x31]); ([Byte.x63], [Byte.x33])];
                    vec_of [([Byte.x61], [Byte.x32]); ([Byte.x62], [Byte.x32])]; vec_of []] = Some m /\
    collect (S (length (Union.kunion (remaining <$> [vec_of [([Byte.x62], [Byte.x31]); ([Byte.x63], [Byte.x33])];
                    vec_of [([Byte.x61], [Byte.x32]); ([Byte.x62], [Byte.x32])]; vec_of []])))) m =
    Ok (Union.kunion (remaining <$> [vec_of [([Byte.x62], [Byte.x31]); ([Byte.x63], [Byte.x33])];
                    vec_of [([Byte.x61], [Byte.x32]); ([Byte.x62], [Byte.x32])]; vec_of []])).
Proof.
  assert (Hs : Forall iter_inv [vec_of [([Byte.x62], [Byte.x31]); ([Byte.x63], [Byte.x33])];
                   vec_of [([Byte.x61], [Byte.x32]); ([Byte.x62], [Byte.x32])]; vec_of []])
    by (repeat constructor; decide_by_eval).
  split; [exact Hs|]. exact (merge_yields_union _ Hs).
Defined.

(** C23: one step of the merge refines one step of the union: a valid
    merge shows the first entry of its view, and a successful [next]
    keeps the invariant and leaves the rest of the view. *)
Theorem merge_next_step {I : Type} `{IterSpec I} (m : MergeIterator I) :
  merge_inv m -> merge_is_valid m = true ->
  exists e rest, merge_remaining m = e :: rest /\ merge_key m = e.1 /\ merge_value m = e.2 /\
    forall m', merge_next m = (m', Ok ()) -> merge_inv m' /\ merge_remaining m' = rest.
Proof.
  intros Hi Hv. destruct (merge_remaining_valid m Hi Hv) as [rest Hr].
  exists (merge_key m, merge_value m), rest. do 3 (split; [done|]). intros m' Hn.
  destruct (merge_inv_next m m' Hi Hv Hn) as [? ->]. by rewrite Hr.
Qed.

Lemma merge_next_step_witness :
  merge_inv (mkMerge [(1, vec_of [([Byte.x02], [])])] (Some (0, vec_of [([Byte.x01], [])]))) /\
  merge_is_valid (mkMerge [(1, vec_of [([Byte.x02], [])])] (Some (0, vec_of [([Byte.x01], [])]))) = true /\
  exists e rest,
    merge_remaining (mkMerge [(1, vec_of [([Byte.x02], [])])] (Some (0, vec_of [([Byte.x01], [])]))) = e :: rest /\
    merge_key (mkMerge [(1, vec_of [([Byte.x02], [])])] (Some (0, vec_of [([Byte.x01], [])]))) = e.1 /\
    merge_value (mkMerge [(1, vec_of [([Byte.x02], [])])] (Some (0, vec_of [([Byte.x01], [])]))) = e.2 /\
    forall m', merge_next (mkMerge [(1, vec_of [([Byte.x02], [])])] (Some (0, vec_of [([Byte.x01], [])]))) =
                 (m', Ok ()) -> merge_inv m' /\ merge_remaining m' = rest.
Proof.
  assert (Hi : merge_inv (mkMerge [(1, vec_of [([Byte.x02], [])])] (Some (0, vec_of [([Byte.x01], [])])))).
  { split; [split; [decide_by_eval|reflexivity]|]. split; [decide_by_eval|]. split; [discriminate|].
    constructor; [|constructor]. split; [split; [decide_by_eval|reflexivity]|].
    split; [reflexivity|]. reflexivity. }
  assert (Hv : merge_is_valid (mkMerge [(1, vec_of [([Byte.x02], [])])] (Some (0, vec_of [([Byte.x01], [])]))) = true)
    by reflexivity.
  split; [exact Hi|]. split; [exact Hv|]. exact (merge_next_step _ Hi Hv).
Defined.

(** The newest-wins example of spec §8: merging the sources [a -> 1]
    (index 0) and [a -> 2] yields the single entry [a -> 1]. *)
Example merge_newest_wins :
  match create [vec_of [([Byte.x61], [Byte.x31])]; vec_of [([Byte.x61], [Byte.x32])]] with
  | Some m => collect 3 m
  | None => Err EPanic
  end = Ok [([Byte.x61], [Byte.x31])].
Proof. vm_compute. reflexivity. Qed.

(** C24: partial failure (spec §7): when [next] of a valid merge fails,
    the heap it leaves is sound around the current wrapper it started
    with.  Either a heap source failed, and then that wrapper is kept and
    the merge keeps its invariant, so a caller may go on reading the
    other sources; or the current source's own [next] failed, and then
    only that iterator is left as its [next] left it. *)
Theorem merge_next_error_state {I : Type} `{IterSpec I} (m m' : MergeIterator I) (e : error) :
  merge_inv m -> merge_is_valid m = true -> merge_next m = (m', Err e) ->
  exists c, current m = Some c /\ merge_inv (mkMerge (iters m') (Some c)) /\
    (current m' = Some c \/ exists it', next c.2 = (it', Err e) /\ current m' = Some (c.1, it')).
Proof.
  destruct m as [h [c|]]; cbn [merge_is_valid current iters]; [|done].
  intros (Hci & Hnd & _ & Hok) Hv Hn. exists c. split; [done|].
  unfold merge_next in Hn. cbn [current iters] in Hn.
  destruct (skip_loop (heap_fuel h) h c) as [h' [[]|e']] eqn:Hs.
  - destruct (skip_loop_ok _ _ _ _ Hok Hnd Hs) as (Hf & Hnd' & _).
    destruct (next c.2) as [it' [[]|e']] eqn:En; [by repeat case_match|].
    injection Hn as <- ->. split; [|right; by exists it'].
    split_and!; [done|done|congruence|by apply heap_ok_above].
  - injection Hn as <- ->. destruct (skip_loop_heap_ok _ _ _ _ _ Hok Hnd Hs) as [Hok' Hnd'].
    split; [|by left]. split_and!; [done|done|congruence|done].
Qed.

Lemma merge_next_error_state_witness :
  let m := mkMerge [(1, flaky (mkVec [([Byte.x01], [])] 0 (Some 1)))]
             (Some (0, flaky (vec_of [([Byte.x01], []); ([Byte.x02], [])]))) in
  let m' := (merge_next m).1 in
  merge_inv m /\ merge_is_valid m = true /\ merge_next m = (m', Err EIo) /\
  exists c, current m = Some c /\ merge_inv (mkMerge (iters m') (Some c)) /\
    (current m' = Some c \/ exists it', next c.2 = (it', Err EIo) /\ current m' = Some (c.1, it')).
Proof.
  intros m m'.
  assert (Hi : merge_inv m).
  { split_and!; [decide_by_eval|decide_by_eval|discriminate|].
    constructor; [|constructor]. split_and!; [decide_by_eval|reflexivity|reflexivity]. }
  assert (Hv : merge_is_valid m = true) by reflexivity.
  assert (Hn : merge_next m = (m', Err EIo)) by (vm_compute; reflexivity).
  split; [exact Hi|]. split; [exact Hv|]. split; [exact Hn|].
  exact (merge_next_error_state m m' EIo Hi Hv Hn).
Defined.

(** C25: a merge over no source, or over sources that are all invalid,
    is itself invalid from the start and yields no entry. *)
Theorem merge_empty_inputs {I : Type} `{StorageIterator I} (srcs : list I) :
  Forall (fun x => is_valid x = false) srcs ->
  exists m, create srcs = Some m /\ merge_is_valid m = false /\ collect 1 m = Ok [].
Proof.
  intros Hs. exists (mkMerge [] None). split; [|done]. unfold create.
  replace (forallb (fun x => negb (is_valid x)) srcs) with true; [by destruct srcs|].
  symmetry. apply forallb_forall. intros x Hx%list_elem_of_In.
  rewrite Forall_forall in Hs. by rewrite (Hs x Hx).
Qed.

Lemma merge_empty_inputs_witness :
  Forall (fun x => is_valid x = false) [vec_of []; mkVec [([Byte.x01], [])] 1 None] /\
  exists m, create [vec_of []; mkVec [([Byte.x01], [])] 1 None] = Some m /\
    merge_is_valid m = false /\ collect 1 m = Ok [].
Proof.
  assert (Hs : Forall (fun x => is_valid x = false) [vec_of []; mkVec [([Byte.x01], [])] 1 None])
    by (repeat constructor).
  split; [exact Hs|]. exact (merge_empty_inputs _ Hs).
Defined.

(** C26: when the heap's top holds the current key and its [next]
    fails, the merge's [next] returns that error at once, with the
    failing source dropped from the heap and the current one kept. *)
Theorem merge_next_error {I : Type} `{StorageIterator I} (m : MergeIterator I) c j i it it' e :
  NoDup (fst <$> iters m) -> current m = Some c -> heap_top (iters m) = Some (j, (i, it)) ->
  key it = key c.2 -> next it = (it', Err e) ->
  exists h', merge_next m = (mkMerge h' (Some c), Err e) /\ i ∉ fst <$> h'.
Proof.
  destruct m as [h cur]. cbn [current iters]. intros Hnd -> Ht Ck En.
  exists (delete j h). unfold merge_next. cbn [current iters]. unfold heap_fuel. cbn [skip_loop].
  rewrite Ht, bool_decide_true, En by done. split; [done|].
  destruct (heap_top_spec _ _ _ Ht) as [Hj _]. exact (notin_delete h j (i, it) Hnd Hj).
Qed.

Lemma merge_next_error_witness :
  NoDup (fst <$> iters (mkMerge [(1, mkVec [([Byte.x01], [])] 0 (Some 1))] (Some (0, vec_of [([Byte.x01], [])])))) /\
  exists h',
  merge_next (mkMerge [(1, mkVec [([Byte.x01], [])] 0 (Some 1))] (Some (0, vec_of [([Byte.x01], [])]))) =
    (mkMerge h' (Some (0, vec_of [([Byte.x01], [])])), Err EIo) /\ 1 ∉ fst <$> h'.
Proof.
  assert (Hnd : NoDup (fst <$> iters (mkMerge [(1, mkVec [([Byte.x01], [])] 0 (Some 1))]
                                       (Some (0, vec_of [([Byte.x01], [])]))))) by decide_by_eval.
  split; [exact Hnd|].
  exact (merge_next_error _ (0, vec_of [([Byte.x01], [])]) 0 1 (mkVec [([Byte.x01], [])] 0 (Some 1))
           (mkVec [([Byte.x01], [])] 1 (Some 1)) EIo Hnd eq_refl eq_refl eq_refl eq_refl).
Defined.

End MergeIterator.
