(* ===== verification/SsTableIterator.v ===== *)
(** * SsTableIterator: a cursor over a whole table
      (src/mini-lsm-starter/src/table/iterator.rs)

    The state is the Rust struct: the table, the block iterator of the
    current block and the block index.  Every block is read through
    [read_block_cached], so the block cache is state the operations
    thread: the constructors and seeks run in the monad [M] (the cache
    in and out, and a [res]); [next], the trait method, returns the new
    iterator and cache with the [Result], so the state an error leaves
    is part of the model.  A panic of the block iterator (out-of-range
    slice of a corrupt block) is [Err EPanic], and so is the [None] of
    [find_block_idx] (which C10 shows does not happen).

    The iterator with its cache is a [StorageIterator]; its view is the
    entries of the current block from the cursor on, then the entries of
    the later blocks.  [table_of] describes a table made of the blocks
    [blocks] (lists of entries): [read_block] decodes each, the index
    records their first keys, the blocks are non-empty and the keys
    ascend across the table.  Theorems: under a cache coherent with the
    file the iterator keeps its invariant and refines its view, so it is
    an [IterSpec] and never fails; a scan from [create_and_seek_to_first]
    yields every entry of the table; [create_and_seek_to_key] lands on
    the first entry whose key is [>=] the target, across blocks; and a
    table built by [SsTableBuilder] from sorted entries scans back to
    exactly those entries. *)

From stdpp Require Import gmap.
From S2P Require Import Prelude Codec Block BlockBuilder BlockIterator Table TableBuilder StorageIterator.

Module SsTableIterator.

Import StorageIterator.

Record SsTableIterator := mkSsIter {
  table : Table.SsTable;
  blk_iter : BlockIterator.BlockIterator;
  blk_idx : nat;
}.

(** ** Threading the block cache *)

(** A computation that reads blocks through the cache. *)
Definition M (A : Type) : Type := Table.BlockCache -> res A * Table.BlockCache.

#[export] Instance M_ret : MRet M := fun A a cache => (Ok a, cache).
#[export] Instance M_bind : MBind M := fun A B f m cache =>
  match m cache with
  | (Ok a, cache') => f a cache'
  | (Err e, cache') => (Err e, cache')
  end.

(** A step that does not touch the cache. *)
Definition lift {A} (r : res A) : M A := fun cache => (r, cache).

(** [table.read_block_cached(idx)?] *)
Definition read_block_m (t : Table.SsTable) (idx : nat) : M Block.Block :=
  fun cache => Table.read_block_cached t cache idx.

(** ** Operations *)

(** [get_first_blk_iter] *)
Definition get_first_blk_iter (t : Table.SsTable) : M (nat * BlockIterator.BlockIterator) :=
  b ← read_block_m t 0;
  it ← lift (of_panic (BlockIterator.create_and_seek_to_first b));
  mret (0, it).

(** [SsTableIterator::create_and_seek_to_first] *)
Definition create_and_seek_to_first (t : Table.SsTable) : M SsTableIterator :=
  '(idx, it) ← get_first_blk_iter t;
  mret (mkSsIter t it idx).

(** [SsTableIterator::seek_to_first] *)
Definition seek_to_first (s : SsTableIterator) : M SsTableIterator :=
  '(idx, it) ← get_first_blk_iter (table s);
  mret (mkSsIter (table s) it idx).

(** [get_key_blk_iter]: the block [find_block_idx] names, sought to the
    key; when the key is past its end, the first entry of the next
    block, if there is one. *)
Definition get_key_blk_iter (t : Table.SsTable) (key : bytes) : M (nat * BlockIterator.BlockIterator) :=
  idx ← lift (of_panic (Table.find_block_idx t key));
  b ← read_block_m t idx;
  it ← lift (of_panic (BlockIterator.create_and_seek_to_key b key));
  if BlockIterator.is_valid it then mret (idx, it)
  else
    let idx := S idx in
    if decide (idx < Table.num_of_blocks t) then
      b ← read_block_m t idx;
      it ← lift (of_panic (BlockIterator.create_and_seek_to_first b));
      mret (idx, it)
    else mret (idx, it).

(** [SsTableIterator::create_and_seek_to_key] *)
Definition create_and_seek_to_key (t : Table.SsTable) (key : bytes) : M SsTableIterator :=
  '(idx, it) ← get_key_blk_iter t key;
  mret (mkSsIter t it idx).

(** [SsTableIterator::seek_to_key] *)
Definition seek_to_key (s : SsTableIterator) (key : bytes) : M SsTableIterator :=
  '(idx, it) ← get_key_blk_iter (table s) key;
  mret (mkSsIter (table s) it idx).

Definition ss_key (s : SsTableIterator) : bytes := BlockIterator.key (blk_iter s).
Definition ss_value (s : SsTableIterator) : bytes := BlockIterator.value (blk_iter s).
Definition ss_is_valid (s : SsTableIterator) : bool := BlockIterator.is_valid (blk_iter s).

(** [next]: move the block iterator on; when it is exhausted, the block
    index moves on and, if a block is left, its first entry is read. *)
Definition ss_next (s : SsTableIterator) (cache : Table.BlockCache)
    : SsTableIterator * Table.BlockCache * res unit :=
  match BlockIterator.next (blk_iter s) with
  | None => (s, cache, Err EPanic)
  | Some bi =>
      let s := mkSsIter (table s) bi (blk_idx s) in
      if BlockIterator.is_valid bi then (s, cache, Ok ())
      else
        let s := mkSsIter (table s) bi (S (blk_idx s)) in
        if decide (blk_idx s < Table.num_of_blocks (table s)) then
          let '(r, cache) := Table.read_block_cached (table s) cache (blk_idx s) in
          match r with
          | Err e => (s, cache, Err e)
          | Ok b =>
              match BlockIterator.create_and_seek_to_first b with
              | None => (s, cache, Err EPanic)
              | Some bi => (mkSsIter (table s) bi (blk_idx s), cache, Ok ())
              end
          end
        else (s, cache, Ok ())
  end.

(** ** The iterator as a storage iterator *)

(** The entries of a block, in order. *)
Definition block_entries (b : Block.Block) : list entry :=
  match BlockIterator.create_and_seek_to_first b with
  | Some it => block_remaining it
  | None => []
  end.

(** The entries of block [i] of the table, read from its file. *)
Definition table_block (t : Table.SsTable) (i : nat) : list entry :=
  match Table.read_block t i with Ok b => block_entries b | Err _ => [] end.

Definition ss_remaining (s : SsTableIterator) : list entry :=
  block_remaining (blk_iter s) ++
  mjoin (table_block (table s) <$> seq (S (blk_idx s)) (Table.num_of_blocks (table s) - S (blk_idx s))).

(** The iterator with the cache it reads through. *)
Abbreviation SsIter := (SsTableIterator * Table.BlockCache)%type.

#[export] Instance ss_storage_iterator : StorageIterator SsIter := {
  key s := ss_key s.1;
  value s := ss_value s.1;
  is_valid s := ss_is_valid s.1;
  next s := let '(s', cache, r) := ss_next s.1 s.2 in ((s', cache), r);
  remaining s := ss_remaining s.1;
}.

(** The states a caller can reach over table [t], starting from the
    cache [cache0]: the two constructors, then any sequence of [next]
    on a valid iterator and of the two seeks. *)
Inductive ss_reachable (t : Table.SsTable) (cache0 : Table.BlockCache) : SsIter -> Prop :=
  | reach_first s cache :
      create_and_seek_to_first t cache0 = (Ok s, cache) -> ss_reachable t cache0 (s, cache)
  | reach_key key s cache :
      create_and_seek_to_key t key cache0 = (Ok s, cache) -> ss_reachable t cache0 (s, cache)
  | reach_next x x' :
      ss_reachable t cache0 x -> ss_is_valid x.1 = true -> StorageIterator.next x = (x', Ok ()) ->
      ss_reachable t cache0 x'
  | reach_seek_first x s cache :
      ss_reachable t cache0 x -> seek_to_first x.1 x.2 = (Ok s, cache) -> ss_reachable t cache0 (s, cache)
  | reach_seek_key x key s cache :
      ss_reachable t cache0 x -> seek_to_key x.1 key x.2 = (Ok s, cache) -> ss_reachable t cache0 (s, cache).

(** ** A table made of known blocks *)

Import BlockBuilder.

(** The table's blocks hold [blocks]: the index has one entry per block
    with the block's first key, [read_block] decodes each, every block is
    non-empty with representable entries and visible keys, and the keys
    ascend across the table. *)
Definition table_of (t : Table.SsTable) (blocks : list (list entry)) : Prop :=
  length (Table.block_metas t) = length blocks /\
  (forall i es, blocks !! i = Some es -> Table.read_block t i = Ok (of_entries es)) /\
  Forall2 (fun m es => Table.first_key m = TableBuilder.block_first_key es)
    (Table.block_metas t) blocks /\
  Forall (fun es => es <> [] /\ entries_ok es /\ BlockIterator.keys_nonempty es) blocks /\
  keys_sorted (mjoin blocks).

#[export] Instance block_eq_dec : EqDecision Block.Block.
Proof. solve_decision. Defined.

(** A property of every indexed element, as a list property. *)
Lemma lookup_forall_imap {A} (P : nat -> A -> Prop) (l : list A) :
  (forall i x, l !! i = Some x -> P i x) <-> Forall (fun ix => P ix.1 ix.2) (imap pair l).
Proof.
  rewrite Forall_lookup. split.
  - intros H j [i x] Hj. rewrite list_lookup_imap in Hj.
    destruct (l !! j) eqn:E; cbn in Hj; [|done]. injection Hj as <- <-. cbn. by apply H.
  - intros H i x Hi. apply (H i (i, x)). by rewrite list_lookup_imap, Hi.
Qed.

#[export] Instance table_of_dec t blocks : Decision (table_of t blocks).
Proof.
  unfold table_of.
  pose proof (lookup_forall_imap (fun i es => Table.read_block t i = Ok (of_entries es)) blocks) as Hiff.
  cbv beta in Hiff.
  destruct (decide (Forall (fun ix => Table.read_block t ix.1 = Ok (of_entries ix.2)) (imap pair blocks)))
    as [H|H]; [pose proof (proj2 Hiff H) as Hr|right; intros (_ & Hr & _); exact (H (proj1 Hiff Hr))].
  destruct (decide ((length (Table.block_metas t) = length blocks) /\ 
    Forall2 (fun m es => Table.first_key m = TableBuilder.block_first_key es) (Table.block_metas t) blocks /\ 
    Forall (fun es => es <> [] /\ entries_ok es /\ BlockIterator.keys_nonempty es) blocks /\ 
    keys_sorted (mjoin blocks))); [left|right]; tauto.
Defined.

Lemma block_entries_of es :
  entries_ok es -> BlockIterator.keys_nonempty es -> block_entries (of_entries es) = es.
Proof.
  intros Hok Hne. destruct (BlockIterator.seek_to_at es (BlockIterator.new (of_entries es)) 0 Hok eq_refl)
    as (it & Hs & Hat); [simpl; lia|].
  unfold block_entries, BlockIterator.create_and_seek_to_first, BlockIterator.seek_to_first.
  rewrite Hs. by rewrite (block_remaining_at es it 0) by (done || lia).
Qed.

Section table_of.
Context (t : Table.SsTable) (blocks : list (list entry)).
Hypothesis Ht : table_of t blocks.

Lemma table_of_block i es :
  blocks !! i = Some es -> entries_ok es /\ BlockIterator.keys_nonempty es /\ es <> [] /\
    Table.read_block t i = Ok (of_entries es).
Proof using Ht.
  intros Hi. destruct Ht as (_ & Hrd & _ & Hall & _).
  destruct (Forall_lookup_1 _ _ _ _ Hall Hi) as (? & ? & ?). auto.
Qed.

Lemma table_block_of i es : blocks !! i = Some es -> table_block t i = es.
Proof using Ht.
  intros Hi. destruct (table_of_block i es Hi) as (Hok & Hne & _ & Hrd).
  unfold table_block. rewrite Hrd. by apply block_entries_of.
Qed.

Lemma table_blocks_seq j :
  table_block t <$> seq j (Table.num_of_blocks t - j) = drop j blocks.
Proof using Ht.
  apply list_eq. intros x. rewrite list_lookup_fmap, lookup_drop. unfold Table.num_of_blocks.
  destruct Ht as (Hn & _).
  destruct (decide (x < length (Table.block_metas t) - j)) as [Hx|Hx].
  - rewrite lookup_seq_lt by done. destruct (lookup_lt_is_Some_2 blocks (j + x)) as [es Hes]; [lia|].
    rewrite Hes. cbn. f_equal. by apply table_block_of.
  - rewrite lookup_seq_ge by lia. rewrite lookup_ge_None_2 by lia. done.
Qed.

(** Block [k] splits the table's entries in three. *)
Lemma mjoin_split k es :
  blocks !! k = Some es ->
  mjoin blocks = mjoin (take k blocks) ++ es ++ mjoin (drop (S k) blocks).
Proof.
  intros Hk. rewrite <- (take_drop_middle blocks k es Hk) at 1. by rewrite join_app.
Qed.

Lemma length_blocks_num : Table.num_of_blocks t = length blocks.
Proof using Ht. apply Ht. Qed.

End table_of.

(** Strictly ascending keys across non-empty blocks make the index's
    first keys strictly ascending. *)
Lemma first_keys_sorted_of t blocks :
  table_of t blocks -> Table.first_keys_sorted (Table.block_metas t).
Proof.
  intros (_ & _ & Hf & Hall & Hs). unfold Table.first_keys_sorted.
  induction Hf as [|m b metas bs Hm Hf IH]; [constructor|].
  apply Forall_cons in Hall as [(Hb & _) Hall]. cbn in Hs.
  pose proof (fun x1 x2 => StronglySorted_app_1_elem_of _ _ _ x1 x2 Hs) as Hlt.
  apply StronglySorted_app_1_r in Hs. constructor; [by apply IH|].
  apply Forall_forall. intros m' Hm'.
  apply list_elem_of_lookup_1 in Hm' as [j Hj].
  destruct (Forall2_lookup_l _ _ _ _ _ Hf Hj) as (b' & Hb' & Hm'').
  destruct (Forall_lookup_1 _ _ _ _ Hall Hb') as (Hb'ne & _).
  destruct b as [|e b]; [done|]. destruct b' as [|e' b']; [done|].
  rewrite Hm, Hm''. apply (Hlt e e'); [by left|].
  apply list_elem_of_join. exists (e' :: b'). split; [by left|]. by eapply list_elem_of_lookup_2.
Qed.

(** ** The iterator's invariant *)

(** Where an iterator over a table made of [blocks] stands: at entry [i]
    of block [blk_idx], or past the last block with the last block
    iterator exhausted. *)
Definition ss_at (blocks : list (list entry)) (s : SsTableIterator) : Prop :=
  exists es i, entries_ok es /\ BlockIterator.keys_nonempty es /\ BlockIterator.at_index es (blk_iter s) i /\
    ((blocks !! blk_idx s = Some es /\ i < length es) \/
     (blk_idx s = length blocks /\ i = length es)).

(** The table is made of known blocks, the cache agrees with the file
    and the iterator stands at an entry or at the end. *)
Definition ss_inv (x : SsIter) : Prop :=
  exists blocks, table_of (table x.1) blocks /\ Table.cache_coherent (table x.1) x.2 /\
                 ss_at blocks x.1.

Lemma ss_remaining_at s blocks es i :
  table_of (table s) blocks -> entries_ok es -> BlockIterator.keys_nonempty es ->
  BlockIterator.at_index es (blk_iter s) i -> i <= length es ->
  ss_remaining s = drop i es ++ mjoin (drop (S (blk_idx s)) blocks).
Proof.
  intros Ht Hok Hne Hat Hi. unfold ss_remaining.
  by rewrite (block_remaining_at es _ i), (table_blocks_seq _ _ Ht).
Qed.

Lemma tail_drop_app (es r : list entry) i :
  i < length es -> tail (drop i es ++ r) = drop (S i) es ++ r.
Proof.
  intros Hi. destruct (lookup_lt_is_Some_2 es i Hi) as [e He]. by rewrite (drop_S es e i He).
Qed.

(** Reading block [j] through a coherent cache. *)
Lemma load_block t blocks cache j es :
  table_of t blocks -> Table.cache_coherent t cache -> blocks !! j = Some es ->
  exists cache', Table.read_block_cached t cache j = (Ok (of_entries es), cache') /\
    Table.cache_coherent t cache'.
Proof.
  intros Ht Hc Hj. destruct (table_of_block _ _ Ht _ _ Hj) as (_ & _ & _ & Hrd).
  destruct (Table.read_block_cached_coherent t cache j Hc) as [Hr Hc'].
  destruct (Table.read_block_cached t cache j) as [r cache'] eqn:E. cbn in Hr, Hc'.
  exists cache'. by rewrite Hr, Hrd.
Qed.

(** ... and seeking to its first entry. *)
Lemma load_first t blocks cache j es :
  table_of t blocks -> Table.cache_coherent t cache -> blocks !! j = Some es ->
  exists cache' it, Table.read_block_cached t cache j = (Ok (of_entries es), cache') /\
    Table.cache_coherent t cache' /\
    BlockIterator.create_and_seek_to_first (of_entries es) = Some it /\
    BlockIterator.at_index es it 0 /\ 0 < length es.
Proof.
  intros Ht Hc Hj. destruct (table_of_block _ _ Ht _ _ Hj) as (Hok & Hne & Hnil & _).
  destruct (load_block t blocks cache j es Ht Hc Hj) as (cache' & Hr & Hc').
  destruct (BlockIterator.seek_to_at es (BlockIterator.new (of_entries es)) 0 Hok eq_refl)
    as (it & Hs & Hat0); [simpl; lia|].
  exists cache', it. split_and!; try done. destruct es; [done|simpl; lia].
Qed.

Section next.
Context (t : Table.SsTable) (blocks : list (list entry)) (cache : Table.BlockCache).
Hypothesis (Ht : table_of t blocks) (Hc : Table.cache_coherent t cache).
Context (k : nat) (es : list entry) (i : nat) (bi bi' : BlockIterator.BlockIterator).
Hypothesis (Hk : blocks !! k = Some es) (Hok : entries_ok es) (Hne : BlockIterator.keys_nonempty es)
  (Hat' : BlockIterator.at_index es bi' (S i)) (Hi : i < length es).

Let rem := ss_remaining (mkSsIter t bi k).
Hypothesis Hrem : rem = drop i es ++ mjoin (drop (S k) blocks).

(** The next entry is in the same block. *)
Lemma next_in_block :
  S i < length es ->
  ss_inv (mkSsIter t bi' k, cache) /\ ss_remaining (mkSsIter t bi' k) = tail rem.
Proof using Ht Hc Hk Hok Hne Hat' Hi Hrem.
  intros HSi. split; [exists blocks; split; [done|]; split; [done|]; exists es, (S i); split_and!; [done..|left; by split]|].
  rewrite Hrem, tail_drop_app by done. by apply (ss_remaining_at (mkSsIter t bi' k) blocks es (S i)).
Qed.

(** The block is done and the next one is loaded. *)
Lemma next_block_load :
  S i = length es -> S k < Table.num_of_blocks t ->
  exists cache' bi'', Table.read_block_cached t cache (S k) = (Ok (of_entries (blocks !!! S k)), cache') /\
    BlockIterator.create_and_seek_to_first (of_entries (blocks !!! S k)) = Some bi'' /\
    ss_inv (mkSsIter t bi'' (S k), cache') /\ ss_remaining (mkSsIter t bi'' (S k)) = tail rem.
Proof using Ht Hc Hk Hok Hne Hi Hrem.
  intros HSi Hn. rewrite (length_blocks_num _ _ Ht) in Hn.
  destruct (lookup_lt_is_Some_2 blocks (S k) Hn) as [es' Hes'].
  rewrite (list_lookup_total_correct _ _ _ Hes').
  destruct (load_first t blocks cache (S k) es' Ht Hc Hes') as (cache' & bi'' & Hr & Hc' & Hs & Hat0 & Hl).
  destruct (table_of_block _ _ Ht _ _ Hes') as (Hok' & Hne' & _).
  exists cache', bi''. do 2 (split; [done|]).
  split; [exists blocks; split; [done|]; split; [done|]; exists es', 0; split_and!; [done..|left; by split]|].
  rewrite (ss_remaining_at _ blocks es' 0) by (done || lia).
  cbn [blk_idx]. rewrite Hrem, (drop_S blocks es' (S k) Hes'), tail_drop_app by done.
  by rewrite HSi, drop_all.
Qed.

(** The last block is done. *)
Lemma next_last :
  S i = length es -> Table.num_of_blocks t <= S k ->
  ss_inv (mkSsIter t bi' (S k), cache) /\ ss_remaining (mkSsIter t bi' (S k)) = tail rem.
Proof using Ht Hc Hk Hok Hne Hat' Hi Hrem.
  intros HSi Hn. rewrite (length_blocks_num _ _ Ht) in Hn. pose proof (lookup_lt_Some _ _ _ Hk).
  split; [exists blocks; split; [done|]; split; [done|]; exists es, (S i); split_and!; auto; right; cbn; lia|].
  rewrite Hrem, tail_drop_app by done. rewrite HSi, !drop_all, (drop_ge blocks) by lia.
  rewrite (ss_remaining_at _ blocks es (S i)) by (done || lia). cbn [blk_idx].
  by rewrite HSi, drop_all, (drop_ge blocks) by lia.
Qed.

End next.

(** From a valid position, [next] succeeds, keeps the invariant and
    shows the rest of the view. *)
Lemma ss_next_step s cache :
  ss_inv (s, cache) -> ss_is_valid s = true ->
  exists s' cache', ss_next s cache = (s', cache', Ok ()) /\ ss_inv (s', cache') /\
                    ss_remaining s' = tail (ss_remaining s).
Proof.
  destruct s as [t bi k]. intros (blocks & Ht & Hc & es & i & Hok & Hne & Hat & Hpos) Hv.
  cbn [table blk_iter blk_idx fst snd] in *. unfold ss_is_valid in Hv. cbn in Hv.
  rewrite (BlockIterator.at_index_valid es bi i Hne Hat) in Hv. apply bool_decide_eq_true in Hv.
  destruct Hpos as [[Hk _]|[_ ->]]; [|lia].
  pose proof (ss_remaining_at (mkSsIter t bi k) blocks es i Ht Hok Hne Hat ltac:(lia)) as Hrem.
  destruct (BlockIterator.next_at es bi i Hok Hat) as (bi' & Hn & Hat'). unfold ss_next. cbn [blk_iter table blk_idx].
  rewrite Hn, (BlockIterator.at_index_valid es bi' (S i) Hne Hat').
  destruct (decide (S i < length es)) as [HSi|HSi].
  - rewrite bool_decide_true by done. exists (mkSsIter t bi' k), cache. split; [done|].
    by apply (next_in_block t blocks cache Ht Hc k es i bi bi').
  - rewrite bool_decide_false by done. cbn [blk_idx table].
    case_decide as Hn'.
    + destruct (next_block_load t blocks cache Ht Hc k es i bi Hk Hok Hne Hv Hrem ltac:(lia) Hn')
        as (cache' & bi'' & -> & -> & Hinv & Hr). by exists (mkSsIter t bi'' (S k)), cache'.
    + exists (mkSsIter t bi' (S k)), cache. split; [done|].
      apply (next_last t blocks cache Ht Hc k es i bi bi'); (done || lia).
Qed.

Lemma ss_inv_valid x : ss_inv x -> ss_is_valid x.1 = bool_decide (ss_remaining x.1 <> []).
Proof.
  intros (blocks & Ht & _ & es & i & Hok & Hne & Hat & Hpos). unfold ss_is_valid.
  rewrite (BlockIterator.at_index_valid es _ i Hne Hat). apply bool_decide_ext.
  destruct Hpos as [[Hk Hi]|[Hk ->]];
    rewrite (ss_remaining_at x.1 blocks es _ Ht Hok Hne Hat) by lia.
  - split; [intros _|lia]. destruct (lookup_lt_is_Some_2 es i Hi) as [e He].
    by rewrite (drop_S es e i He).
  - rewrite drop_all, Hk, drop_ge by lia. cbn. split; [lia|done].
Qed.

Lemma ss_inv_head x e rest :
  ss_inv x -> ss_remaining x.1 = e :: rest -> ss_key x.1 = e.1 /\ ss_value x.1 = e.2.
Proof.
  intros (blocks & Ht & _ & es & i & Hok & Hne & Hat & Hpos) Hr.
  assert (Hi : i < length es).
  { destruct Hpos as [[_ ?]|[Hk ->]]; [done|].
    rewrite (ss_remaining_at x.1 blocks es _ Ht Hok Hne Hat), drop_all, Hk, drop_ge in Hr by lia.
    discriminate. }
  rewrite (ss_remaining_at x.1 blocks es i Ht Hok Hne Hat) in Hr by lia.
  destruct (lookup_lt_is_Some_2 es i Hi) as [e' He']. rewrite (drop_S es e' i He') in Hr.
  injection Hr as <- _. destruct Hat as [_ Hat]. rewrite He' in Hat. by destruct Hat as (_ & ? & ?).
Qed.

(** The view is a suffix of the table's entries, so it is sorted. *)
Lemma ss_remaining_suffix s blocks :
  table_of (table s) blocks -> ss_at blocks s ->
  exists m, ss_remaining s = drop m (mjoin blocks).
Proof.
  intros Ht (es & i & Hok & Hne & Hat & Hpos).
  destruct Hpos as [[Hk Hi]|[Hk ->]].
  - exists (length (mjoin (take (blk_idx s) blocks)) + i).
    rewrite (mjoin_split blocks _ es Hk), drop_app_add by done.
    rewrite drop_app_le by lia. apply (ss_remaining_at s blocks es i); (done || lia).
  - exists (length (mjoin blocks)). rewrite drop_all.
    rewrite (ss_remaining_at s blocks es _ Ht Hok Hne Hat), drop_all, Hk, drop_ge by lia. done.
Qed.

Lemma ss_inv_sorted x : ss_inv x -> keys_sorted (ss_remaining x.1).
Proof.
  intros (blocks & Ht & _ & Hat). destruct (ss_remaining_suffix x.1 blocks Ht Hat) as [m ->].
  apply keys_sorted_drop, Ht.
Qed.

Lemma ss_inv_next x x' :
  ss_inv x -> ss_is_valid x.1 = true -> StorageIterator.next x = (x', Ok ()) ->
  ss_inv x' /\ ss_remaining x'.1 = tail (ss_remaining x.1).
Proof.
  destruct x as [s cache]. intros Hi Hv Hn.
  destruct (ss_next_step s cache Hi Hv) as (s' & cache' & E & Hi' & Hr).
  cbn in Hn. rewrite E in Hn. by injection Hn as <-.
Qed.

#[export] Instance ss_iter_spec : IterSpec SsIter := {|
  iter_inv := ss_inv;
  inv_valid := ss_inv_valid;
  inv_head := ss_inv_head;
  inv_next := ss_inv_next;
  inv_sorted := ss_inv_sorted;
|}.

#[export] Instance ss_iter_reliable : IterReliable SsIter.
Proof.
  intros [s cache] Hi Hv. destruct (ss_next_step s cache Hi Hv) as (s' & cache' & E & _).
  cbn. by rewrite E.
Qed.

(** ** Constructors *)

Lemma M_bind_ok {A B} (m : M A) (f : A -> M B) cache a cache' :
  m cache = (Ok a, cache') -> (m ≫= f) cache = f a cache'.
Proof. intros H. unfold mbind, M_bind. by rewrite H. Qed.

(** [create_and_seek_to_first] stands at the first entry of the table. *)
Lemma ss_create_first t blocks cache :
  table_of t blocks -> blocks <> [] -> Table.cache_coherent t cache ->
  exists s cache', create_and_seek_to_first t cache = (Ok s, cache') /\
    ss_inv (s, cache') /\ ss_remaining s = mjoin blocks /\ table s = t.
Proof.
  destruct blocks as [|es0 bs]; [done|]. intros Ht _ Hc.
  destruct (load_first t (es0 :: bs) cache 0 es0 Ht Hc eq_refl) as (cache' & it & Hr & Hc' & Hs & Hat & Hl).
  destruct (table_of_block _ _ Ht 0 es0 eq_refl) as (Hok & Hne & _).
  exists (mkSsIter t it 0), cache'. split_and!.
  - unfold create_and_seek_to_first, get_first_blk_iter.
    cbv [mbind M_bind mret M_ret lift read_block_m]. rewrite Hr. cbn [of_panic]. by rewrite Hs.
  - exists (es0 :: bs). split; [done|]. split; [done|]. exists es0, 0. split_and!; [done..|left; by split].
  - rewrite (ss_remaining_at (mkSsIter t it 0) (es0 :: bs) es0 0 Ht Hok Hne Hat) by lia. done.
  - done.
Qed.

(** ** The lower bound across blocks *)

Lemma lb_index_app_l xs ys target :
  BlockIterator.lb_index xs target < length xs -> BlockIterator.lb_index (xs ++ ys) target = BlockIterator.lb_index xs target.
Proof.
  unfold BlockIterator.lb_index, BlockIterator.lower_bound. destruct (list_find _ xs) as [[i e]|] eqn:E; [|lia].
  intros _. by rewrite (list_find_app_l _ _ _ _ _ E).
Qed.

Lemma lb_index_app_r xs ys target :
  Forall (fun e => bytes_cmp e.1 target = Lt) xs ->
  BlockIterator.lb_index (xs ++ ys) target = length xs + BlockIterator.lb_index ys target.
Proof.
  intros Hall. unfold BlockIterator.lb_index, BlockIterator.lower_bound. rewrite list_find_app_r.
  - destruct (list_find _ ys) as [[i e]|]; cbn; [lia|by rewrite length_app].
  - apply list_find_None. eapply Forall_impl; [exact Hall|]. intros e He Hn. by apply Hn.
Qed.

Lemma lb_index_all_lt es target :
  BlockIterator.lb_index es target = length es -> Forall (fun e => bytes_cmp e.1 target = Lt) es.
Proof.
  intros H. apply Forall_lookup. intros j e He.
  apply (proj1 (BlockIterator.lb_index_spec es target) j e); [rewrite H; by eapply lookup_lt_Some|done].
Qed.

Lemma lb_index_head e es target : bytes_cmp e.1 target <> Lt -> BlockIterator.lb_index (e :: es) target = 0.
Proof. intros H. unfold BlockIterator.lb_index, BlockIterator.lower_bound. cbn. by rewrite decide_True. Qed.

(** [create_and_seek_to_key] on a block of sorted entries stands at the
    lower bound. *)
Lemma seek_key_at es target :
  keys_sorted es -> entries_ok es ->
  exists it, BlockIterator.create_and_seek_to_key (of_entries es) target = Some it /\
             BlockIterator.at_index es it (BlockIterator.lb_index es target).
Proof.
  intros Hs Hok.
  destruct (BlockIterator.seek_loop_lb (S (length es)) es target (BlockIterator.new (of_entries es)) 0 (length es)
    Hs Hok eq_refl) as (it & Hl & Hat); [pose proof (BlockIterator.lb_index_spec es target); lia|lia..|].
  exists it. split; [|done]. unfold BlockIterator.create_and_seek_to_key, BlockIterator.seek_to_key.
  cbn [BlockIterator.new BlockIterator.block of_entries Block.offsets]. by rewrite length_entry_offsets.
Qed.

Section seek.
Context (t : Table.SsTable) (blocks : list (list entry)) (key : bytes).
Hypothesis (Ht : table_of t blocks) (Hnil : blocks <> []).

(** The first block whose first key is above the key; [find_block_idx]
    names the block before it. *)
Let ub := first_index (fun m => bytes_cmp (Table.first_key m) key = Gt) (Table.block_metas t).

Lemma find_block_idx_eq : Table.find_block_idx t key = Some (Nat.pred ub).
Proof using Ht.
  unfold Table.find_block_idx.
  apply Table.find_loop_spec; [exact (first_keys_sorted_of t blocks Ht)|lia|..|lia|lia].
  apply first_index_le_length.
Qed.

Lemma seek_block_lt : Nat.pred ub < length blocks.
Proof using Ht Hnil.
  pose proof (first_index_le_length (fun m => bytes_cmp (Table.first_key m) key = Gt)
    (Table.block_metas t)). destruct Ht as [Hn _]. destruct blocks; [done|]. simpl in *. lia.
Qed.

Lemma meta_of_block j es :
  blocks !! j = Some es ->
  exists m e rest, Table.block_metas t !! j = Some m /\ es = e :: rest /\ Table.first_key m = e.1.
Proof using Ht.
  intros Hj. destruct (table_of_block _ _ Ht _ _ Hj) as (_ & _ & Hnil' & _).
  destruct Ht as (_ & _ & Hf & _). destruct (Forall2_lookup_r _ _ _ _ _ Hf Hj) as (m & Hm & Hfk).
  destruct es as [|e rest]; [done|]. by exists m, e, rest.
Qed.

(** Every entry of the blocks before the one [find_block_idx] names is
    below the key. *)
Lemma before_lt es :
  blocks !! Nat.pred ub = Some es ->
  Forall (fun e => bytes_cmp e.1 key = Lt) (mjoin (take (Nat.pred ub) blocks)).
Proof using Ht.
  intros Hk. destruct (decide (Nat.pred ub = 0)) as [E|E]; [rewrite E; constructor|].
  destruct (meta_of_block _ _ Hk) as (m & e & rest & Hm & -> & Hfk).
  assert (Hle : bytes_cmp e.1 key <> Gt).
  { rewrite <- Hfk.
    apply (first_index_before (fun m => bytes_cmp (Table.first_key m) key = Gt) (Table.block_metas t) (Nat.pred ub) m);
      [lia|done]. }
  pose proof (mjoin_split blocks _ _ Hk) as Hsplit. destruct Ht as (_ & _ & _ & _ & Hs).
  rewrite Hsplit in Hs. apply Forall_forall. intros x Hx.
  eapply bytes_cmp_lt_le_trans; [|exact Hle].
  apply (StronglySorted_app_1_elem_of _ _ _ x e Hs Hx). by left.
Qed.

(** The block at [ub] starts above the key. *)
Lemma block_at_ub es r : blocks !! ub = Some es -> BlockIterator.lb_index (es ++ r) key = 0.
Proof using Ht.
  intros Hj. destruct (meta_of_block _ _ Hj) as (m & e & rest & Hm & -> & Hfk).
  pose proof (first_index_at (fun m => bytes_cmp (Table.first_key m) key = Gt) _ m Hm) as Hgt.
  apply lb_index_head. cbn in Hgt. by rewrite <- Hfk, Hgt.
Qed.

Lemma block_sorted j es : blocks !! j = Some es -> keys_sorted es.
Proof using Ht.
  intros Hj. pose proof (mjoin_split blocks _ _ Hj) as Hsplit. destruct Ht as (_ & _ & _ & _ & Hs).
  rewrite Hsplit in Hs. by apply StronglySorted_app_1_r, StronglySorted_app_1_l in Hs.
Qed.

Section seek_cases.
Context (cache1 : Table.BlockCache) (es : list entry) (it : BlockIterator.BlockIterator).
Hypothesis (Hc1 : Table.cache_coherent t cache1) (Hk : blocks !! Nat.pred ub = Some es)
  (Hat : BlockIterator.at_index es it (BlockIterator.lb_index es key)).

(** The key's lower bound is in the block [find_block_idx] names. *)
Lemma seek_found :
  BlockIterator.lb_index es key < length es ->
  ss_inv (mkSsIter t it (Nat.pred ub), cache1) /\
  ss_remaining (mkSsIter t it (Nat.pred ub)) =
    drop (BlockIterator.lb_index (mjoin blocks) key) (mjoin blocks).
Proof using Ht Hc1 Hk Hat.
  intros Hlt. destruct (table_of_block _ _ Ht _ _ Hk) as (Hok & Hne & _).
  split; [exists blocks; split; [done|]; split; [done|]; exists es, (BlockIterator.lb_index es key);
          split_and!; [done..|left; by split]|].
  rewrite (ss_remaining_at (mkSsIter t it (Nat.pred ub)) blocks es _ Ht Hok Hne Hat) by lia.
  rewrite (mjoin_split blocks _ _ Hk), lb_index_app_r by exact (before_lt es Hk).
  by rewrite lb_index_app_l, drop_app_add, drop_app_le by lia.
Qed.

(** Past the end of that block, the key's lower bound is the first entry
    of the next block. *)
Lemma ub_not_zero :
  BlockIterator.lb_index es key = length es -> S (Nat.pred ub) = ub.
Proof using Ht Hk.
  intros Hlb. destruct (decide (ub = 0)) as [E|]; [|lia]. exfalso.
  destruct (table_of_block _ _ Ht _ _ Hk) as (_ & _ & Hnil' & _).
  pose proof (block_at_ub es [] ltac:(rewrite E; rewrite E in Hk; exact Hk)) as H0.
  rewrite app_nil_r in H0. apply Hnil', length_zero_iff_nil. lia.
Qed.

Lemma seek_next_block :
  BlockIterator.lb_index es key = length es -> S (Nat.pred ub) < Table.num_of_blocks t ->
  exists cache2 it0,
    Table.read_block_cached t cache1 (S (Nat.pred ub)) =
      (Ok (of_entries (blocks !!! S (Nat.pred ub))), cache2) /\
    BlockIterator.create_and_seek_to_first (of_entries (blocks !!! S (Nat.pred ub))) = Some it0 /\
    ss_inv (mkSsIter t it0 (S (Nat.pred ub)), cache2) /\
    ss_remaining (mkSsIter t it0 (S (Nat.pred ub))) =
      drop (BlockIterator.lb_index (mjoin blocks) key) (mjoin blocks).
Proof using Ht Hc1 Hk.
  intros Hlb Hn. pose proof (ub_not_zero Hlb) as Hub. rewrite (length_blocks_num _ _ Ht) in Hn.
  destruct (lookup_lt_is_Some_2 _ _ Hn) as [es' Hes']. rewrite (list_lookup_total_correct _ _ _ Hes').
  destruct (table_of_block _ _ Ht _ _ Hes') as (Hok' & Hne' & _).
  destruct (load_first t blocks cache1 _ es' Ht Hc1 Hes') as (cache2 & it0 & Hr & Hc2 & Hs & Hat0 & Hl).
  exists cache2, it0. split_and!; try done.
  - exists blocks. split; [done|]. split; [done|]. exists es', 0. split_and!; [done..|left; by split].
  - rewrite (ss_remaining_at (mkSsIter t it0 (S (Nat.pred ub))) blocks es' 0 Ht Hok' Hne' Hat0) by lia.
    cbn [blk_idx]. rewrite (mjoin_split blocks _ _ Hk), lb_index_app_r by exact (before_lt es Hk).
    rewrite lb_index_app_r by (by apply lb_index_all_lt).
    rewrite (drop_S blocks es' _ Hes'). change (mjoin (es' :: ?r)) with (es' ++ mjoin r).
    rewrite (block_at_ub es' _ ltac:(rewrite <- Hub; exact Hes')), Nat.add_0_r, app_assoc.
    by rewrite <- length_app, drop_app_length.
Qed.

(** Past the end of the last block, the iterator is exhausted. *)
Lemma seek_end :
  BlockIterator.lb_index es key = length es -> Table.num_of_blocks t <= S (Nat.pred ub) ->
  ss_inv (mkSsIter t it (S (Nat.pred ub)), cache1) /\
  ss_remaining (mkSsIter t it (S (Nat.pred ub))) =
    drop (BlockIterator.lb_index (mjoin blocks) key) (mjoin blocks).
Proof using Ht Hc1 Hk Hat.
  intros Hlb Hn. rewrite (length_blocks_num _ _ Ht) in Hn. pose proof (lookup_lt_Some _ _ _ Hk).
  destruct (table_of_block _ _ Ht _ _ Hk) as (Hok & Hne & _).
  split; [exists blocks; split; [done|]; split; [done|]; exists es, (BlockIterator.lb_index es key);
          split_and!; [done..|right; cbn; split; [lia|done]]|].
  rewrite (ss_remaining_at (mkSsIter t it (S (Nat.pred ub))) blocks es _ Ht Hok Hne Hat) by lia.
  rewrite (mjoin_split blocks _ _ Hk), lb_index_app_r by exact (before_lt es Hk).
  rewrite lb_index_app_r by (by apply lb_index_all_lt). cbn [blk_idx].
  rewrite Hlb, !drop_all, !(drop_ge blocks) by lia. cbn. rewrite !app_nil_r, drop_ge; [done|].
  rewrite length_app. lia.
Qed.

End seek_cases.

(** [create_and_seek_to_key] stands at the first entry of the table
    whose key is [>=] the key. *)
Lemma ss_seek_key cache :
  Table.cache_coherent t cache ->
  exists s cache', create_and_seek_to_key t key cache = (Ok s, cache') /\ ss_inv (s, cache') /\
    ss_remaining s = drop (BlockIterator.lb_index (mjoin blocks) key) (mjoin blocks) /\ table s = t.
Proof using Ht Hnil.
  intros Hc. destruct (lookup_lt_is_Some_2 _ _ seek_block_lt) as [es Hk].
  destruct (load_block t blocks cache _ es Ht Hc Hk) as (cache1 & Hr & Hc1).
  destruct (table_of_block _ _ Ht _ _ Hk) as (Hok & Hne & _).
  destruct (seek_key_at es key (block_sorted _ _ Hk) Hok) as (it & Hsk & Hat).
  unfold create_and_seek_to_key, get_key_blk_iter. cbv [mbind M_bind mret M_ret lift read_block_m].
  rewrite find_block_idx_eq. cbn [of_panic]. rewrite Hr. cbn [of_panic]. rewrite Hsk. cbn [of_panic].
  rewrite (BlockIterator.at_index_valid es it _ Hne Hat).
  destruct (decide (BlockIterator.lb_index es key < length es)) as [Hlt|Hge].
  - rewrite bool_decide_true by done. eexists _, _. split; [done|]. apply and_assoc.
    split; [by apply (seek_found cache1 es it)|done].
  - rewrite bool_decide_false by done.
    assert (Hlb : BlockIterator.lb_index es key = length es)
      by (pose proof (BlockIterator.lb_index_spec es key); lia).
    case_decide as Hn.
    + destruct (seek_next_block cache1 es Hc1 Hk Hlb Hn) as (cache2 & it0 & -> & -> & Hi).
      eexists _, _. split; [done|]. apply and_assoc. by split.
    + eexists _, _. split; [done|]. apply and_assoc.
      split; [apply (seek_end cache1 es it); (done || lia)|done].
Qed.

End seek.

(** ** Tables written by [SsTableBuilder] *)

#[local] Existing Instance TableBuilder.entry_ok_dec.

Lemma metas_of_first_keys off bs :
  Forall2 (fun m es => Table.first_key m = TableBuilder.block_first_key es)
    (TableBuilder.metas_of off bs) bs.
Proof. revert off; induction bs as [|b bs IH]; intros off; constructor; [done|apply IH]. Qed.

(** The table [build] returns is made of the blocks the builder filled. *)
Lemma built_table_of tb blocks cur id bc :
  TableBuilder.tb_repr tb blocks cur -> cur <> [] -> keys_sorted (mjoin blocks ++ cur) ->
  exists t, TableBuilder.build tb id bc = Ok t /\ table_of t (blocks ++ [cur]).
Proof.
  intros Hr Hcur Hs. pose proof (TableBuilder.tb_repr_blocks_ok _ _ _ Hr) as Hok.
  eexists. split; [exact (TableBuilder.build_eq tb blocks cur id bc Hr)|]. split_and!.
  - apply TableBuilder.length_metas_of.
  - intros i es Hi. by apply TableBuilder.read_block_of_blocks.
  - apply metas_of_first_keys.
  - destruct Hr as (_ & _ & _ & _ & Hcn & Hbl). apply Forall_app in Hok as [_ Hcok].
    apply Forall_app. split.
    + eapply Forall_impl; [exact Hbl|]. by intros b (? & ? & ?).
    + constructor; [|constructor]. apply Forall_cons in Hcok as [Hc _]. split_and!; done.
  - rewrite join_app. cbn. by rewrite app_nil_r.
Qed.

Lemma coherent_empty t : Table.cache_coherent t ∅.
Proof. intros idx b. by rewrite Table.cache_lookup_empty. Qed.

(** The caller's loop from an iterator that keeps its invariant yields
    its view. *)
Lemma scan_from s cache l n :
  ss_inv (s, cache) -> ss_remaining s = l -> length l <= n ->
  collect (S n) ((s, cache) : SsIter) = Ok l.
Proof.
  intros Hi <- Hn. refine (collect_remaining (I := SsIter) (S n) (s, cache) Hi _). cbn. lia.
Qed.

(** ** What the table iterator promises *)

(** C27: on a table made of non-empty sorted blocks, read through a
    cache that agrees with the file, [create_and_seek_to_first]
    succeeds and the caller's loop over the iterator yields every entry
    of the table, block after block, in order, and stops. *)
Theorem ss_scan_all (t : Table.SsTable) (blocks : list (list entry)) (cache : Table.BlockCache) :
  table_of t blocks -> blocks <> [] -> Table.cache_coherent t cache ->
  exists s cache', create_and_seek_to_first t cache = (Ok s, cache') /\
    collect (S (length (mjoin blocks))) ((s, cache') : SsIter) = Ok (mjoin blocks).
Proof.
  intros Ht Hne Hc. destruct (ss_create_first t blocks cache Ht Hne Hc) as (s & cache' & E & Hi & Hr & _).
  exists s, cache'. split; [done|]. by apply scan_from.
Qed.

Lemma ss_scan_all_witness :
  let t := match TableBuilder.add_all (TableBuilder.new 20) [([Byte.x01], [Byte.x0a]); ([Byte.x02], [Byte.x0b]); ([Byte.x03], [Byte.x0c]); ([Byte.x04], [Byte.x0d]); ([Byte.x05], [Byte.x0e])] with
    | Some tb => match TableBuilder.build tb 1 true with Ok t => t | Err _ => Table.mkTable (Table.mkFile [] 0) [] 0 0 false end
    | None => Table.mkTable (Table.mkFile [] 0) [] 0 0 false end in
  table_of t [[([Byte.x01], [Byte.x0a]); ([Byte.x02], [Byte.x0b])]; [([Byte.x03], [Byte.x0c]); ([Byte.x04], [Byte.x0d])]; [([Byte.x05], [Byte.x0e])]] /\ [[([Byte.x01], [Byte.x0a]); ([Byte.x02], [Byte.x0b])]; [([Byte.x03], [Byte.x0c]); ([Byte.x04], [Byte.x0d])]; [([Byte.x05], [Byte.x0e])]] <> [] /\ Table.cache_coherent t ∅ /\
  exists s cache', create_and_seek_to_first t ∅ = (Ok s, cache') /\
    collect (S (length (mjoin [[([Byte.x01], [Byte.x0a]); ([Byte.x02], [Byte.x0b])]; [([Byte.x03], [Byte.x0c]); ([Byte.x04], [Byte.x0d])]; [([Byte.x05], [Byte.x0e])]]))) ((s, cache') : SsIter) = Ok (mjoin [[([Byte.x01], [Byte.x0a]); ([Byte.x02], [Byte.x0b])]; [([Byte.x03], [Byte.x0c]); ([Byte.x04], [Byte.x0d])]; [([Byte.x05], [Byte.x0e])]]).
Proof.
  intros t. assert (Ht : table_of t [[([Byte.x01], [Byte.x0a]); ([Byte.x02], [Byte.x0b])]; [([Byte.x03], [Byte.x0c]); ([Byte.x04], [Byte.x0d])]; [([Byte.x05], [Byte.x0e])]]) by decide_by_eval.
  assert (Hne : [[([Byte.x01], [Byte.x0a]); ([Byte.x02], [Byte.x0b])]; [([Byte.x03], [Byte.x0c]); ([Byte.x04], [Byte.x0d])]; [([Byte.x05], [Byte.x0e])]] <> []) by discriminate.
  split; [exact Ht|]. split; [exact Hne|]. split; [apply coherent_empty|].
  exact (ss_scan_all t _ ∅ Ht Hne (coherent_empty t)).
Defined.

(** C28: [create_and_seek_to_key] succeeds and the iterator then yields
    the table's entries from the first one whose key is [>=] the key
    (the lower bound of the whole table, found through [find_block_idx]
    and the block's binary search, moving to the next block when the
    key is past the end of the block it names). *)
Theorem ss_seek_lower_bound (t : Table.SsTable) (blocks : list (list entry))
    (cache : Table.BlockCache) (key : bytes) :
  table_of t blocks -> blocks <> [] -> Table.cache_coherent t cache ->
  exists s cache', create_and_seek_to_key t key cache = (Ok s, cache') /\
    collect (S (length (mjoin blocks))) ((s, cache') : SsIter) =
    Ok (drop (BlockIterator.lb_index (mjoin blocks) key) (mjoin blocks)).
Proof.
  intros Ht Hne Hc. destruct (ss_seek_key t blocks key Ht Hne cache Hc) as (s & cache' & E & Hi & Hr & _).
  exists s, cache'. split; [done|]. apply scan_from; [done..|]. rewrite length_drop. lia.
Qed.

Lemma ss_seek_lower_bound_witness :
  let t := match TableBuilder.add_all (TableBuilder.new 20) [([Byte.x01], [Byte.x0a]); ([Byte.x02], [Byte.x0b]); ([Byte.x03], [Byte.x0c]); ([Byte.x04], [Byte.x0d]); ([Byte.x05], [Byte.x0e])] with
    | Some tb => match TableBuilder.build tb 1 true with Ok t => t | Err _ => Table.mkTable (Table.mkFile [] 0) [] 0 0 false end
    | None => Table.mkTable (Table.mkFile [] 0) [] 0 0 false end in
  table_of t [[([Byte.x01], [Byte.x0a]); ([Byte.x02], [Byte.x0b])]; [([Byte.x03], [Byte.x0c]); ([Byte.x04], [Byte.x0d])]; [([Byte.x05], [Byte.x0e])]] /\ [[([Byte.x01], [Byte.x0a]); ([Byte.x02], [Byte.x0b])]; [([Byte.x03], [Byte.x0c]); ([Byte.x04], [Byte.x0d])]; [([Byte.x05], [Byte.x0e])]] <> [] /\ Table.cache_coherent t ∅ /\
  exists s cache', create_and_seek_to_key t [Byte.x02; Byte.x01] ∅ = (Ok s, cache') /\
    collect (S (length (mjoin [[([Byte.x01], [Byte.x0a]); ([Byte.x02], [Byte.x0b])]; [([Byte.x03], [Byte.x0c]); ([Byte.x04], [Byte.x0d])]; [([Byte.x05], [Byte.x0e])]]))) ((s, cache') : SsIter) =
    Ok (drop (BlockIterator.lb_index (mjoin [[([Byte.x01], [Byte.x0a]); ([Byte.x02], [Byte.x0b])]; [([Byte.x03], [Byte.x0c]); ([Byte.x04], [Byte.x0d])]; [([Byte.x05], [Byte.x0e])]]) [Byte.x02; Byte.x01]) (mjoin [[([Byte.x01], [Byte.x0a]); ([Byte.x02], [Byte.x0b])]; [([Byte.x03], [Byte.x0c]); ([Byte.x04], [Byte.x0d])]; [([Byte.x05], [Byte.x0e])]])).
Proof.
  intros t. assert (Ht : table_of t [[([Byte.x01], [Byte.x0a]); ([Byte.x02], [Byte.x0b])]; [([Byte.x03], [Byte.x0c]); ([Byte.x04], [Byte.x0d])]; [([Byte.x05], [Byte.x0e])]]) by decide_by_eval.
  assert (Hne : [[([Byte.x01], [Byte.x0a]); ([Byte.x02], [Byte.x0b])]; [([Byte.x03], [Byte.x0c]); ([Byte.x04], [Byte.x0d])]; [([Byte.x05], [Byte.x0e])]] <> []) by discriminate.
  split; [exact Ht|]. split; [exact Hne|]. split; [apply coherent_empty|].
  exact (ss_seek_lower_bound t _ ∅ _ Ht Hne (coherent_empty t)).
Defined.

(** C29: a table that [SsTableBuilder] builds from sorted entries it
    accepts, read through any cache that agrees with its file, scans back
    to exactly those entries from [create_and_seek_to_first], and from
    [create_and_seek_to_key] to those from the first key [>=] the key
    on: builder, file layout, index, block cache and iterator compose. *)
Theorem built_table_iterates (bs : nat) (kvs : list entry) (id : nat) (bc : bool) :
  kvs <> [] -> Forall (TableBuilder.entry_ok bs) kvs -> keys_sorted kvs ->
  exists tb t, TableBuilder.add_all (TableBuilder.new bs) kvs = Some tb /\
    TableBuilder.build tb id bc = Ok t /\
    forall cache, Table.cache_coherent t cache ->
      (exists s cache', create_and_seek_to_first t cache = (Ok s, cache') /\
         collect (S (length kvs)) ((s, cache') : SsIter) = Ok kvs) /\
      (forall key, exists s cache', create_and_seek_to_key t key cache = (Ok s, cache') /\
         collect (S (length kvs)) ((s, cache') : SsIter) = Ok (drop (BlockIterator.lb_index kvs key) kvs)).
Proof.
  intros Hne Hok Hs.
  destruct (TableBuilder.add_all_repr (TableBuilder.new bs) [] [] kvs (TableBuilder.tb_repr_new bs) Hok)
    as (tb & blocks & cur & Ha & _ & Hr & Hj & Hcur). cbn in Hj.
  assert (Hcur' : cur <> []) by (apply Hcur; by right).
  rewrite <- Hj in Hs. destruct (built_table_of tb blocks cur id bc Hr Hcur' Hs) as (t & Hb & Ht).
  assert (Hm : mjoin (blocks ++ [cur]) = kvs) by (rewrite join_app, <- Hj; cbn; by rewrite app_nil_r).
  assert (Hbl : blocks ++ [cur] <> []) by (by destruct blocks).
  exists tb, t. split; [done|]. split; [done|]. intros cache Hc. rewrite <- Hm. split.
  - destruct (ss_create_first t _ cache Ht Hbl Hc) as (s & cache' & E & Hi & Hrem & _).
    exists s, cache'. split; [done|]. by apply scan_from.
  - intros key. destruct (ss_seek_key t _ key Ht Hbl cache Hc) as (s & cache' & E & Hi & Hrem & _).
    exists s, cache'. split; [done|]. apply scan_from; [done..|]. rewrite length_drop. lia.
Qed.

Lemma built_table_iterates_witness :
  [([Byte.x01], [Byte.x0a]); ([Byte.x02], [Byte.x0b]); ([Byte.x03], [Byte.x0c]); ([Byte.x04], [Byte.x0d]); ([Byte.x05], [Byte.x0e])] <> [] /\ Forall (TableBuilder.entry_ok 20) [([Byte.x01], [Byte.x0a]); ([Byte.x02], [Byte.x0b]); ([Byte.x03], [Byte.x0c]); ([Byte.x04], [Byte.x0d]); ([Byte.x05], [Byte.x0e])] /\ keys_sorted [([Byte.x01], [Byte.x0a]); ([Byte.x02], [Byte.x0b]); ([Byte.x03], [Byte.x0c]); ([Byte.x04], [Byte.x0d]); ([Byte.x05], [Byte.x0e])] /\
  exists tb t, TableBuilder.add_all (TableBuilder.new 20) [([Byte.x01], [Byte.x0a]); ([Byte.x02], [Byte.x0b]); ([Byte.x03], [Byte.x0c]); ([Byte.x04], [Byte.x0d]); ([Byte.x05], [Byte.x0e])] = Some tb /\
    TableBuilder.build tb 1 true = Ok t /\
    forall cache, Table.cache_coherent t cache ->
      (exists s cache', create_and_seek_to_first t cache = (Ok s, cache') /\
         collect (S (length [([Byte.x01], [Byte.x0a]); ([Byte.x02], [Byte.x0b]); ([Byte.x03], [Byte.x0c]); ([Byte.x04], [Byte.x0d]); ([Byte.x05], [Byte.x0e])])) ((s, cache') : SsIter) = Ok [([Byte.x01], [Byte.x0a]); ([Byte.x02], [Byte.x0b]); ([Byte.x03], [Byte.x0c]); ([Byte.x04], [Byte.x0d]); ([Byte.x05], [Byte.x0e])]) /\
      (forall key, exists s cache', create_and_seek_to_key t key cache = (Ok s, cache') /\
         collect (S (length [([Byte.x01], [Byte.x0a]); ([Byte.x02], [Byte.x0b]); ([Byte.x03], [Byte.x0c]); ([Byte.x04], [Byte.x0d]); ([Byte.x05], [Byte.x0e])])) ((s, cache') : SsIter) = Ok (drop (BlockIterator.lb_index [([Byte.x01], [Byte.x0a]); ([Byte.x02], [Byte.x0b]); ([Byte.x03], [Byte.x0c]); ([Byte.x04], [Byte.x0d]); ([Byte.x05], [Byte.x0e])] key) [([Byte.x01], [Byte.x0a]); ([Byte.x02], [Byte.x0b]); ([Byte.x03], [Byte.x0c]); ([Byte.x04], [Byte.x0d]); ([Byte.x05], [Byte.x0e])])).
Proof.
  assert (Hne : [([Byte.x01], [Byte.x0a]); ([Byte.x02], [Byte.x0b]); ([Byte.x03], [Byte.x0c]); ([Byte.x04], [Byte.x0d]); ([Byte.x05], [Byte.x0e])] <> []) by discriminate.
  assert (Hok : Forall (TableBuilder.entry_ok 20) [([Byte.x01], [Byte.x0a]); ([Byte.x02], [Byte.x0b]); ([Byte.x03], [Byte.x0c]); ([Byte.x04], [Byte.x0d]); ([Byte.x05], [Byte.x0e])]) by decide_by_eval.
  assert (Hs : keys_sorted [([Byte.x01], [Byte.x0a]); ([Byte.x02], [Byte.x0b]); ([Byte.x03], [Byte.x0c]); ([Byte.x04], [Byte.x0d]); ([Byte.x05], [Byte.x0e])]) by decide_by_eval.
  split; [exact Hne|]. split; [exact Hok|]. split; [exact Hs|].
  exact (built_table_iterates 20 _ 1 true Hne Hok Hs).
Defined.

(** C31: when the current block is exhausted and reading the next one
    fails, [next] returns the error with the block index already moved
    on and the cache (coherent with the file) unchanged, and the iterator
    then reports itself invalid although later blocks may hold entries:
    the [Result] is the caller's only signal that the scan is cut. *)
Theorem ss_next_read_error (s : SsTableIterator) (cache : Table.BlockCache)
    (bi : BlockIterator.BlockIterator) (e : error) :
  Table.cache_coherent (table s) cache ->
  BlockIterator.next (blk_iter s) = Some bi -> BlockIterator.is_valid bi = false ->
  S (blk_idx s) < Table.num_of_blocks (table s) ->
  Table.read_block (table s) (S (blk_idx s)) = Err e ->
  ss_next s cache = (mkSsIter (table s) bi (S (blk_idx s)), cache, Err e) /\
  ss_is_valid (mkSsIter (table s) bi (S (blk_idx s))) = false.
Proof.
  intros Hc Hn Hv Hlt Hr. split; [|done]. unfold ss_next. rewrite Hn, Hv. cbn [table blk_idx].
  rewrite decide_True by done.
  destruct (Table.read_block_cached_coherent _ cache (S (blk_idx s)) Hc) as [Hr' _].
  unfold Table.read_block_cached in *. destruct (Table.block_cache (table s)); [|by rewrite Hr].
  destruct (cache !! (Table.id (table s), S (blk_idx s))) as [b|] eqn:Hl.
  - cbn in Hr'. congruence.
  - by rewrite Hr.
Qed.

Lemma ss_next_read_error_witness :
  Table.cache_coherent (table (mkSsIter (Table.mkTable (Table.mkFile (Block.encode (of_entries [([Byte.x01], [Byte.x0a])])) (length (Block.encode (of_entries [([Byte.x01], [Byte.x0a])])))) [Table.mkMeta 0 [Byte.x01]; Table.mkMeta 100 [Byte.x05]] 200 0 false) (match BlockIterator.create_and_seek_to_first (of_entries [([Byte.x01], [Byte.x0a])]) with Some it => it | None => BlockIterator.new (of_entries [([Byte.x01], [Byte.x0a])]) end) 0)) ∅ /\
  BlockIterator.next (blk_iter (mkSsIter (Table.mkTable (Table.mkFile (Block.encode (of_entries [([Byte.x01], [Byte.x0a])])) (length (Block.encode (of_entries [([Byte.x01], [Byte.x0a])])))) [Table.mkMeta 0 [Byte.x01]; Table.mkMeta 100 [Byte.x05]] 200 0 false) (match BlockIterator.create_and_seek_to_first (of_entries [([Byte.x01], [Byte.x0a])]) with Some it => it | None => BlockIterator.new (of_entries [([Byte.x01], [Byte.x0a])]) end) 0)) = Some (match BlockIterator.next (match BlockIterator.create_and_seek_to_first (of_entries [([Byte.x01], [Byte.x0a])]) with Some it => it | None => BlockIterator.new (of_entries [([Byte.x01], [Byte.x0a])]) end) with Some x => x | None => (match BlockIterator.create_and_seek_to_first (of_entries [([Byte.x01], [Byte.x0a])]) with Some it => it | None => BlockIterator.new (of_entries [([Byte.x01], [Byte.x0a])]) end) end) /\ BlockIterator.is_valid (match BlockIterator.next (match BlockIterator.create_and_seek_to_first (of_entries [([Byte.x01], [Byte.x0a])]) with Some it => it | None => BlockIterator.new (of_entries [([Byte.x01], [Byte.x0a])]) end) with Some x => x | None => (match BlockIterator.create_and_seek_to_first (of_entries [([Byte.x01], [Byte.x0a])]) with Some it => it | None => BlockIterator.new (of_entries [([Byte.x01], [Byte.x0a])]) end) end) = false /\
  S (blk_idx (mkSsIter (Table.mkTable (Table.mkFile (Block.encode (of_entries [([Byte.x01], [Byte.x0a])])) (length (Block.encode (of_entries [([Byte.x01], [Byte.x0a])])))) [Table.mkMeta 0 [Byte.x01]; Table.mkMeta 100 [Byte.x05]] 200 0 false) (match BlockIterator.create_and_seek_to_first (of_entries [([Byte.x01], [Byte.x0a])]) with Some it => it | None => BlockIterator.new (of_entries [([Byte.x01], [Byte.x0a])]) end) 0)) < Table.num_of_blocks (table (mkSsIter (Table.mkTable (Table.mkFile (Block.encode (of_entries [([Byte.x01], [Byte.x0a])])) (length (Block.encode (of_entries [([Byte.x01], [Byte.x0a])])))) [Table.mkMeta 0 [Byte.x01]; Table.mkMeta 100 [Byte.x05]] 200 0 false) (match BlockIterator.create_and_seek_to_first (of_entries [([Byte.x01], [Byte.x0a])]) with Some it => it | None => BlockIterator.new (of_entries [([Byte.x01], [Byte.x0a])]) end) 0)) /\
  Table.read_block (table (mkSsIter (Table.mkTable (Table.mkFile (Block.encode (of_entries [([Byte.x01], [Byte.x0a])])) (length (Block.encode (of_entries [([Byte.x01], [Byte.x0a])])))) [Table.mkMeta 0 [Byte.x01]; Table.mkMeta 100 [Byte.x05]] 200 0 false) (match BlockIterator.create_and_seek_to_first (of_entries [([Byte.x01], [Byte.x0a])]) with Some it => it | None => BlockIterator.new (of_entries [([Byte.x01], [Byte.x0a])]) end) 0)) (S (blk_idx (mkSsIter (Table.mkTable (Table.mkFile (Block.encode (of_entries [([Byte.x01], [Byte.x0a])])) (length (Block.encode (of_entries [([Byte.x01], [Byte.x0a])])))) [Table.mkMeta 0 [Byte.x01]; Table.mkMeta 100 [Byte.x05]] 200 0 false) (match BlockIterator.create_and_seek_to_first (of_entries [([Byte.x01], [Byte.x0a])]) with Some it => it | None => BlockIterator.new (of_entries [([Byte.x01], [Byte.x0a])]) end) 0))) = Err EIo /\
  ss_next (mkSsIter (Table.mkTable (Table.mkFile (Block.encode (of_entries [([Byte.x01], [Byte.x0a])])) (length (Block.encode (of_entries [([Byte.x01], [Byte.x0a])])))) [Table.mkMeta 0 [Byte.x01]; Table.mkMeta 100 [Byte.x05]] 200 0 false) (match BlockIterator.create_and_seek_to_first (of_entries [([Byte.x01], [Byte.x0a])]) with Some it => it | None => BlockIterator.new (of_entries [([Byte.x01], [Byte.x0a])]) end) 0) ∅ = (mkSsIter (table (mkSsIter (Table.mkTable (Table.mkFile (Block.encode (of_entries [([Byte.x01], [Byte.x0a])])) (length (Block.encode (of_entries [([Byte.x01], [Byte.x0a])])))) [Table.mkMeta 0 [Byte.x01]; Table.mkMeta 100 [Byte.x05]] 200 0 false) (match BlockIterator.create_and_seek_to_first (of_entries [([Byte.x01], [Byte.x0a])]) with Some it => it | None => BlockIterator.new (of_entries [([Byte.x01], [Byte.x0a])]) end) 0)) (match BlockIterator.next (match BlockIterator.create_and_seek_to_first (of_entries [([Byte.x01], [Byte.x0a])]) with Some it => it | None => BlockIterator.new (of_entries [([Byte.x01], [Byte.x0a])]) end) with Some x => x | None => (match BlockIterator.create_and_seek_to_first (of_entries [([Byte.x01], [Byte.x0a])]) with Some it => it | None => BlockIterator.new (of_entries [([Byte.x01], [Byte.x0a])]) end) end) (S (blk_idx (mkSsIter (Table.mkTable (Table.mkFile (Block.encode (of_entries [([Byte.x01], [Byte.x0a])])) (length (Block.encode (of_entries [([Byte.x01], [Byte.x0a])])))) [Table.mkMeta 0 [Byte.x01]; Table.mkMeta 100 [Byte.x05]] 200 0 false) (match BlockIterator.create_and_seek_to_first (of_entries [([Byte.x01], [Byte.x0a])]) with Some it => it | None => BlockIterator.new (of_entries [([Byte.x01], [Byte.x0a])]) end) 0))), ∅, Err EIo) /\
  ss_is_valid (mkSsIter (table (mkSsIter (Table.mkTable (Table.mkFile (Block.encode (of_entries [([Byte.x01], [Byte.x0a])])) (length (Block.encode (of_entries [([Byte.x01], [Byte.x0a])])))) [Table.mkMeta 0 [Byte.x01]; Table.mkMeta 100 [Byte.x05]] 200 0 false) (match BlockIterator.create_and_seek_to_first (of_entries [([Byte.x01], [Byte.x0a])]) with Some it => it | None => BlockIterator.new (of_entries [([Byte.x01], [Byte.x0a])]) end) 0)) (match BlockIterator.next (match BlockIterator.create_and_seek_to_first (of_entries [([Byte.x01], [Byte.x0a])]) with Some it => it | None => BlockIterator.new (of_entries [([Byte.x01], [Byte.x0a])]) end) with Some x => x | None => (match BlockIterator.create_and_seek_to_first (of_entries [([Byte.x01], [Byte.x0a])]) with Some it => it | None => BlockIterator.new (of_entries [([Byte.x01], [Byte.x0a])]) end) end) (S (blk_idx (mkSsIter (Table.mkTable (Table.mkFile (Block.encode (of_entries [([Byte.x01], [Byte.x0a])])) (length (Block.encode (of_entries [([Byte.x01], [Byte.x0a])])))) [Table.mkMeta 0 [Byte.x01]; Table.mkMeta 100 [Byte.x05]] 200 0 false) (match BlockIterator.create_and_seek_to_first (of_entries [([Byte.x01], [Byte.x0a])]) with Some it => it | None => BlockIterator.new (of_entries [([Byte.x01], [Byte.x0a])]) end) 0)))) = false.
Proof.
  assert (Hn : BlockIterator.next (blk_iter (mkSsIter (Table.mkTable (Table.mkFile (Block.encode (of_entries [([Byte.x01], [Byte.x0a])])) (length (Block.encode (of_entries [([Byte.x01], [Byte.x0a])])))) [Table.mkMeta 0 [Byte.x01]; Table.mkMeta 100 [Byte.x05]] 200 0 false) (match BlockIterator.create_and_seek_to_first (of_entries [([Byte.x01], [Byte.x0a])]) with Some it => it | None => BlockIterator.new (of_entries [([Byte.x01], [Byte.x0a])]) end) 0)) = Some (match BlockIterator.next (match BlockIterator.create_and_seek_to_first (of_entries [([Byte.x01], [Byte.x0a])]) with Some it => it | None => BlockIterator.new (of_entries [([Byte.x01], [Byte.x0a])]) end) with Some x => x | None => (match BlockIterator.create_and_seek_to_first (of_entries [([Byte.x01], [Byte.x0a])]) with Some it => it | None => BlockIterator.new (of_entries [([Byte.x01], [Byte.x0a])]) end) end)) by (vm_compute; reflexivity).
  assert (Hv : BlockIterator.is_valid (match BlockIterator.next (match BlockIterator.create_and_seek_to_first (of_entries [([Byte.x01], [Byte.x0a])]) with Some it => it | None => BlockIterator.new (of_entries [([Byte.x01], [Byte.x0a])]) end) with Some x => x | None => (match BlockIterator.create_and_seek_to_first (of_entries [([Byte.x01], [Byte.x0a])]) with Some it => it | None => BlockIterator.new (of_entries [([Byte.x01], [Byte.x0a])]) end) end) = false) by (vm_compute; reflexivity).
  assert (Hlt : S (blk_idx (mkSsIter (Table.mkTable (Table.mkFile (Block.encode (of_entries [([Byte.x01], [Byte.x0a])])) (length (Block.encode (of_entries [([Byte.x01], [Byte.x0a])])))) [Table.mkMeta 0 [Byte.x01]; Table.mkMeta 100 [Byte.x05]] 200 0 false) (match BlockIterator.create_and_seek_to_first (of_entries [([Byte.x01], [Byte.x0a])]) with Some it => it | None => BlockIterator.new (of_entries [([Byte.x01], [Byte.x0a])]) end) 0)) < Table.num_of_blocks (table (mkSsIter (Table.mkTable (Table.mkFile (Block.encode (of_entries [([Byte.x01], [Byte.x0a])])) (length (Block.encode (of_entries [([Byte.x01], [Byte.x0a])])))) [Table.mkMeta 0 [Byte.x01]; Table.mkMeta 100 [Byte.x05]] 200 0 false) (match BlockIterator.create_and_seek_to_first (of_entries [([Byte.x01], [Byte.x0a])]) with Some it => it | None => BlockIterator.new (of_entries [([Byte.x01], [Byte.x0a])]) end) 0))) by (vm_compute; lia).
  assert (Hr : Table.read_block (table (mkSsIter (Table.mkTable (Table.mkFile (Block.encode (of_entries [([Byte.x01], [Byte.x0a])])) (length (Block.encode (of_entries [([Byte.x01], [Byte.x0a])])))) [Table.mkMeta 0 [Byte.x01]; Table.mkMeta 100 [Byte.x05]] 200 0 false) (match BlockIterator.create_and_seek_to_first (of_entries [([Byte.x01], [Byte.x0a])]) with Some it => it | None => BlockIterator.new (of_entries [([Byte.x01], [Byte.x0a])]) end) 0)) (S (blk_idx (mkSsIter (Table.mkTable (Table.mkFile (Block.encode (of_entries [([Byte.x01], [Byte.x0a])])) (length (Block.encode (of_entries [([Byte.x01], [Byte.x0a])])))) [Table.mkMeta 0 [Byte.x01]; Table.mkMeta 100 [Byte.x05]] 200 0 false) (match BlockIterator.create_and_seek_to_first (of_entries [([Byte.x01], [Byte.x0a])]) with Some it => it | None => BlockIterator.new (of_entries [([Byte.x01], [Byte.x0a])]) end) 0))) = Err EIo) by (vm_compute; reflexivity).
  split; [apply coherent_empty|]. do 4 (split; [assumption|]).
  exact (ss_next_read_error (mkSsIter (Table.mkTable (Table.mkFile (Block.encode (of_entries [([Byte.x01], [Byte.x0a])])) (length (Block.encode (of_entries [([Byte.x01], [Byte.x0a])])))) [Table.mkMeta 0 [Byte.x01]; Table.mkMeta 100 [Byte.x05]] 200 0 false) (match BlockIterator.create_and_seek_to_first (of_entries [([Byte.x01], [Byte.x0a])]) with Some it => it | None => BlockIterator.new (of_entries [([Byte.x01], [Byte.x0a])]) end) 0) ∅ (match BlockIterator.next (match BlockIterator.create_and_seek_to_first (of_entries [([Byte.x01], [Byte.x0a])]) with Some it => it | None => BlockIterator.new (of_entries [([Byte.x01], [Byte.x0a])]) end) with Some x => x | None => (match BlockIterator.create_and_seek_to_first (of_entries [([Byte.x01], [Byte.x0a])]) with Some it => it | None => BlockIterator.new (of_entries [([Byte.x01], [Byte.x0a])]) end) end) EIo (coherent_empty _) Hn Hv Hlt Hr).
Defined.

(** C21: the boundary case of a table built from no entry: [build]
    finishes the empty block in progress, so the table has one block,
    indexed at offset 0 under the empty first key, which reads back as
    the block with no entry; through any cache that agrees with the file
    the table iterator opens on it and is invalid at once, so a scan
    yields nothing. *)
Theorem build_empty_table (bs id : nat) (bc : bool) :
  exists t, TableBuilder.build (TableBuilder.new bs) id bc = Ok t /\
    Table.block_metas t = [Table.mkMeta 0 []] /\
    Table.read_block t 0 = Ok (Block.mkBlock [] []) /\
    forall cache, Table.cache_coherent t cache ->
      exists s cache', create_and_seek_to_first t cache = (Ok s, cache') /\
        ss_is_valid s = false /\ collect 1 ((s, cache') : SsIter) = Ok [].
Proof.
  eexists. split; [cbv; reflexivity|]. split; [reflexivity|].
  split; [vm_compute; reflexivity|]. intros cache Hc.
  destruct (Table.read_block_cached_coherent _ cache 0 Hc) as [Hr _].
  cbv [create_and_seek_to_first get_first_blk_iter mbind M_bind mret M_ret lift read_block_m].
  destruct (Table.read_block_cached _ cache 0) as [r c'].
  cbn in Hr. vm_compute in Hr. subst r. by eexists _, c'.
Qed.

(** The seeks of an existing iterator are the constructors on its table. *)
Lemma seek_to_first_eq s : seek_to_first s = create_and_seek_to_first (table s).
Proof. reflexivity. Qed.

Lemma seek_to_key_eq s key : seek_to_key s key = create_and_seek_to_key (table s) key.
Proof. reflexivity. Qed.

(** [next] keeps the iterator on its table. *)
Lemma ss_next_table s cache : table (ss_next s cache).1.1 = table s.
Proof. unfold ss_next. repeat (case_match; cbn; try done). Qed.

Lemma coherent_of_inv x : ss_inv x -> Table.cache_coherent (table x.1) x.2.
Proof. by intros (? & ? & ? & ?). Qed.

(** Rule induction on [ss_reachable]: every reachable state keeps the
    invariant over the table it started on. *)
Lemma ss_reachable_inv (t : Table.SsTable) (blocks : list (list entry))
    (cache0 : Table.BlockCache) (x : SsIter) :
  table_of t blocks -> blocks <> [] -> Table.cache_coherent t cache0 ->
  ss_reachable t cache0 x -> ss_inv x /\ table x.1 = t.
Proof.
  intros Ht Hne Hc Hr.
  induction Hr as [s c E|key s c E|x x' _ [Hi Hx] Hv En|x s c _ [Hi Hx] E|x key s c _ [Hi Hx] E].
  - destruct (ss_create_first t blocks cache0 Ht Hne Hc) as (s' & c' & E' & Hi & _ & Ht').
    rewrite E in E'. by injection E' as -> ->.
  - destruct (ss_seek_key t blocks key Ht Hne cache0 Hc) as (s' & c' & E' & Hi & _ & Ht').
    rewrite E in E'. by injection E' as -> ->.
  - split; [exact (proj1 (ss_inv_next x x' Hi Hv En))|]. rewrite <- Hx.
    destruct x as [s c]. cbn in En. pose proof (ss_next_table s c) as Hst.
    destruct (ss_next s c) as [[s' c'] r]. injection En as <- _. exact Hst.
  - pose proof (coherent_of_inv x Hi) as Hcc. rewrite Hx in Hcc. rewrite seek_to_first_eq, Hx in E.
    destruct (ss_create_first t blocks x.2 Ht Hne Hcc) as (s' & c' & E' & Hi' & _ & Ht').
    rewrite E in E'. by injection E' as -> ->.
  - pose proof (coherent_of_inv x Hi) as Hcc. rewrite Hx in Hcc. rewrite seek_to_key_eq, Hx in E.
    destruct (ss_seek_key t blocks key Ht Hne x.2 Hcc) as (s' & c' & E' & Hi' & _ & Ht').
    rewrite E in E'. by injection E' as -> ->.
Qed.

(** C34: safety of the table iterator's whole interface: on a table made
    of non-empty sorted blocks, from a cache that agrees with the file,
    every state a caller reaches by the constructors, [next] and the two
    seeks keeps the invariant over the same table, and [next] from a
    valid reachable state succeeds: no panic and no I/O error. *)
Theorem reachable_safe (t : Table.SsTable) (blocks : list (list entry))
    (cache0 : Table.BlockCache) (x : SsIter) :
  table_of t blocks -> blocks <> [] -> Table.cache_coherent t cache0 ->
  ss_reachable t cache0 x ->
  ss_inv x /\ table x.1 = t /\
  (ss_is_valid x.1 = true -> exists x', StorageIterator.next x = (x', Ok ())).
Proof.
  intros Ht Hne Hc Hr. destruct (ss_reachable_inv t blocks cache0 x Ht Hne Hc Hr) as [Hi Hx].
  split; [done|]. split; [done|]. intros Hv.
  destruct x as [s c]. destruct (ss_next_step s c Hi Hv) as (s' & c' & E & _).
  exists (s', c'). cbn. by rewrite E.
Qed.

(** [n] calls of [next] from a reachable state, for [n] up to the
    entries left, all succeed and reach a reachable state that is valid
    exactly when entries are still left. *)
Lemma reachable_advance (t : Table.SsTable) (blocks : list (list entry))
    (cache0 : Table.BlockCache) (x : SsIter) (n : nat) :
  table_of t blocks -> blocks <> [] -> Table.cache_coherent t cache0 ->
  ss_reachable t cache0 x -> n <= length (ss_remaining x.1) ->
  exists x', advance n x = (x', Ok ()) /\ ss_reachable t cache0 x' /\
    ss_is_valid x'.1 = bool_decide (n < length (ss_remaining x.1)).
Proof.
  intros Ht Hne Hc Hr Hn.
  destruct (ss_reachable_inv t blocks cache0 x Ht Hne Hc Hr) as [Hi _].
  destruct (advance_live (ss_reachable t cache0) n x) as (x' & E & Hi' & Hr' & Hrem); try done.
  { intros y y' Hy _ Hv Ey. exact (reach_next t cache0 y y' Hy Hv Ey). }
  exists x'. split_and!; [done..|]. exact (advance_end_valid x n x' Hi' Hrem).
Qed.

(** C35: liveness of a scan: from every state a caller reaches on a table
    of non-empty sorted blocks through a coherent cache, calling [next]
    once per entry left succeeds each time and ends on an invalid
    iterator, itself a reachable state; every call before the last leaves
    the iterator valid, so the caller's [while is_valid()] loop runs
    exactly that many times. *)
Theorem reachable_reaches_end (t : Table.SsTable) (blocks : list (list entry))
    (cache0 : Table.BlockCache) (x : SsIter) :
  table_of t blocks -> blocks <> [] -> Table.cache_coherent t cache0 ->
  ss_reachable t cache0 x ->
  exists x', advance (length (ss_remaining x.1)) x = (x', Ok ()) /\
    ss_reachable t cache0 x' /\ ss_is_valid x'.1 = false /\
    forall n, n < length (ss_remaining x.1) -> ss_is_valid (advance n x).1.1 = true.
Proof.
  intros Ht Hne Hc Hr.
  destruct (reachable_advance t blocks cache0 x _ Ht Hne Hc Hr (le_n _)) as (x' & E & Hr' & Hv).
  exists x'. split_and!; [done|done|by rewrite Hv, bool_decide_false by lia|].
  intros n Hn. destruct (reachable_advance t blocks cache0 x n Ht Hne Hc Hr) as (y & Ey & _ & Hy); [lia|].
  rewrite Ey. cbn. rewrite Hy. by apply bool_decide_true.
Qed.

Lemma reachable_safe_witness :
  let t := match TableBuilder.add_all (TableBuilder.new 20) [([Byte.x01], [Byte.x0a]); ([Byte.x02], [Byte.x0b]); ([Byte.x03], [Byte.x0c]); ([Byte.x04], [Byte.x0d]); ([Byte.x05], [Byte.x0e])] with
    | Some tb => match TableBuilder.build tb 1 true with Ok t => t | Err _ => Table.mkTable (Table.mkFile [] 0) [] 0 0 false end
    | None => Table.mkTable (Table.mkFile [] 0) [] 0 0 false end in
  let x0 : SsIter := (match (create_and_seek_to_first t ∅).1 with Ok s => s
      | Err _ => mkSsIter t (BlockIterator.new (Block.mkBlock [] [])) 0 end,
    (create_and_seek_to_first t ∅).2) in
  let x1 := (StorageIterator.next x0).1 in
  table_of t [[([Byte.x01], [Byte.x0a]); ([Byte.x02], [Byte.x0b])]; [([Byte.x03], [Byte.x0c]); ([Byte.x04], [Byte.x0d])]; [([Byte.x05], [Byte.x0e])]] /\ [[([Byte.x01], [Byte.x0a]); ([Byte.x02], [Byte.x0b])]; [([Byte.x03], [Byte.x0c]); ([Byte.x04], [Byte.x0d])]; [([Byte.x05], [Byte.x0e])]] <> [] /\ Table.cache_coherent t ∅ /\ ss_reachable t ∅ x1 /\
  ss_inv x1 /\ table x1.1 = t /\
  (ss_is_valid x1.1 = true -> exists x', StorageIterator.next x1 = (x', Ok ())).
Proof.
  intros t x0 x1.
  assert (Ht : table_of t [[([Byte.x01], [Byte.x0a]); ([Byte.x02], [Byte.x0b])]; [([Byte.x03], [Byte.x0c]); ([Byte.x04], [Byte.x0d])]; [([Byte.x05], [Byte.x0e])]]) by decide_by_eval.
  assert (Hne : [[([Byte.x01], [Byte.x0a]); ([Byte.x02], [Byte.x0b])]; [([Byte.x03], [Byte.x0c]); ([Byte.x04], [Byte.x0d])]; [([Byte.x05], [Byte.x0e])]] <> []) by discriminate.
  assert (E0 : create_and_seek_to_first t ∅ = (Ok x0.1, x0.2)) by (vm_compute; reflexivity).
  assert (V0 : ss_is_valid x0.1 = true) by (vm_compute; reflexivity).
  assert (E1 : StorageIterator.next x0 = (x1, Ok ())) by (vm_compute; reflexivity).
  pose proof (reach_next t ∅ x0 x1 (reach_first t ∅ x0.1 x0.2 E0) V0 E1) as Hr.
  split; [exact Ht|]. split; [exact Hne|]. split; [apply coherent_empty|]. split; [exact Hr|].
  exact (reachable_safe _ _ ∅ _ Ht Hne (coherent_empty _) Hr).
Defined.

Lemma reachable_reaches_end_witness :
  let t := match TableBuilder.add_all (TableBuilder.new 20) [([Byte.x01], [Byte.x0a]); ([Byte.x02], [Byte.x0b]); ([Byte.x03], [Byte.x0c]); ([Byte.x04], [Byte.x0d]); ([Byte.x05], [Byte.x0e])] with
    | Some tb => match TableBuilder.build tb 1 true with Ok t => t | Err _ => Table.mkTable (Table.mkFile [] 0) [] 0 0 false end
    | None => Table.mkTable (Table.mkFile [] 0) [] 0 0 false end in
  let x0 : SsIter := (match (create_and_seek_to_key t [Byte.x03] ∅).1 with Ok s => s
      | Err _ => mkSsIter t (BlockIterator.new (Block.mkBlock [] [])) 0 end,
    (create_and_seek_to_key t [Byte.x03] ∅).2) in
  table_of t [[([Byte.x01], [Byte.x0a]); ([Byte.x02], [Byte.x0b])]; [([Byte.x03], [Byte.x0c]); ([Byte.x04], [Byte.x0d])]; [([Byte.x05], [Byte.x0e])]] /\ [[([Byte.x01], [Byte.x0a]); ([Byte.x02], [Byte.x0b])]; [([Byte.x03], [Byte.x0c]); ([Byte.x04], [Byte.x0d])]; [([Byte.x05], [Byte.x0e])]] <> [] /\ Table.cache_coherent t ∅ /\ ss_reachable t ∅ x0 /\
  exists x', advance (length (ss_remaining x0.1)) x0 = (x', Ok ()) /\
    ss_reachable t ∅ x' /\ ss_is_valid x'.1 = false /\
    forall n, n < length (ss_remaining x0.1) -> ss_is_valid (advance n x0).1.1 = true.
Proof.
  intros t x0.
  assert (Ht : table_of t [[([Byte.x01], [Byte.x0a]); ([Byte.x02], [Byte.x0b])]; [([Byte.x03], [Byte.x0c]); ([Byte.x04], [Byte.x0d])]; [([Byte.x05], [Byte.x0e])]]) by decide_by_eval.
  assert (Hne : [[([Byte.x01], [Byte.x0a]); ([Byte.x02], [Byte.x0b])]; [([Byte.x03], [Byte.x0c]); ([Byte.x04], [Byte.x0d])]; [([Byte.x05], [Byte.x0e])]] <> []) by discriminate.
  assert (E0 : create_and_seek_to_key t [Byte.x03] ∅ = (Ok x0.1, x0.2)) by (vm_compute; reflexivity).
  pose proof (reach_key t ∅ [Byte.x03] x0.1 x0.2 E0) as Hr.
  split; [exact Ht|]. split; [exact Hne|]. split; [apply coherent_empty|]. split; [exact Hr|].
  exact (reachable_reaches_end _ _ ∅ _ Ht Hne (coherent_empty _) Hr).
Defined.

End SsTableIterator.
