(* ===== verification/ReadPath.v ===== *)
(** * ReadPath: the iterators composed as the storage engine reads

    The engine (not among the sources; spec sections 2, 4.6 and 6) reads
    through a [TwoMergeIterator] of a [MergeIterator] over the memtables'
    iterators and a [MergeIterator] over one [SsTableIterator] per SST,
    the sources ordered newest first, every table reading its blocks
    through the one shared block cache.  [open_all] opens the table
    iterators in order, threading that shared cache from one opening to
    the next; each iterator then carries the cache as the last opening
    left it.

    Theorems: when the tables have distinct ids and the cache agrees with
    every table's file, all openings succeed and the cache keeps agreeing
    with every table (a block cached for one table never shadows a block
    of another); merging the table iterators yields the newest-wins
    union of the tables' entries; and the full read path yields the
    memtables' union over the tables' union, the memtables winning, and
    is exhausted after exactly as many successful calls of [next] as that
    union has entries. *)

From stdpp Require Import gmap.
From S2P Require Import Prelude Block BlockBuilder BlockIterator Table TableBuilder StorageIterator Union TwoMergeIterator MergeIterator SsTableIterator.

Module ReadPath.

Import StorageIterator TwoMergeIterator MergeIterator SsTableIterator.

(** One table iterator per SST, in order, through the shared cache. *)
Fixpoint open_all (ts : list Table.SsTable) : M (list SsTableIterator) :=
  match ts with
  | [] => mret []
  | t :: ts' =>
      s ← create_and_seek_to_first t;
      rest ← open_all ts';
      mret (s :: rest)
  end.

(** The table iterators, each with the cache the openings left. *)
Definition with_cache (ss : list SsTableIterator) (cache : Table.BlockCache) : list SsIter :=
  (fun s => (s, cache)) <$> ss.

(** ** The shared cache *)

(** A read through the cache for one table keeps the cache coherent for
    every table with another id. *)
Lemma read_cached_other t t' cache idx :
  Table.cache_coherent t' cache -> Table.id t' <> Table.id t ->
  Table.cache_coherent t' (Table.read_block_cached t cache idx).2.
Proof.
  intros Hc Hid. unfold Table.read_block_cached. destruct (Table.block_cache t); [|done].
  destruct (cache !! (Table.id t, idx)); [done|].
  destruct (Table.read_block t idx); [|done]. intros idx' b' Hl. cbn in Hl.
  rewrite Table.cache_lookup_insert_ne in Hl by congruence. by apply Hc.
Qed.

(** Opening a table reads its block 0 through the cache and nothing else. *)
Lemma create_first_cache t cache :
  (create_and_seek_to_first t cache).2 = (Table.read_block_cached t cache 0).2.
Proof.
  unfold create_and_seek_to_first, get_first_blk_iter.
  cbv [mbind M_bind mret M_ret lift read_block_m].
  destruct (Table.read_block_cached t cache 0) as [[b|e] c]; [|done].
  by destruct (BlockIterator.create_and_seek_to_first b).
Qed.

Lemma create_first_other t t' cache :
  Table.cache_coherent t' cache -> Table.id t' <> Table.id t ->
  Table.cache_coherent t' (create_and_seek_to_first t cache).2.
Proof. intros Hc Hid. rewrite create_first_cache. by apply read_cached_other. Qed.

(** An iterator's invariant holds under any cache coherent with its table. *)
Lemma ss_inv_recache s c c' :
  ss_inv (s, c) -> Table.cache_coherent (table s) c' -> ss_inv (s, c').
Proof. intros (blocks & Ht & _ & Hat) Hc'. by exists blocks. Qed.

(** [open_all] succeeds, each iterator keeps its invariant under any
    cache coherent with its table and shows its table's entries, and the
    final cache stays coherent for every table whose id is not opened. *)
Lemma open_all_ok ts bss cache :
  Forall2 table_of ts bss -> Forall (fun bs => bs <> []) bss ->
  NoDup (Table.id <$> ts) -> Forall (fun t => Table.cache_coherent t cache) ts ->
  exists ss cache', open_all ts cache = (Ok ss, cache') /\
    Forall (fun t => Table.cache_coherent t cache') ts /\
    (forall t0, Table.id t0 ∉ Table.id <$> ts -> Table.cache_coherent t0 cache ->
                Table.cache_coherent t0 cache') /\
    table <$> ss = ts /\
    Forall2 (fun s bs => (forall c, Table.cache_coherent (table s) c -> ss_inv (s, c)) /\
                         ss_remaining s = mjoin bs) ss bss.
Proof.
  intros Hts. revert cache. induction Hts as [|t bs ts bss Ht Hts IH]; intros cache Hne Hnd Hc.
  - exists [], cache. split_and!; done.
  - apply Forall_cons in Hne as [Hbs Hne]. apply Forall_cons in Hc as [Hct Hc].
    rewrite fmap_cons in Hnd. apply NoDup_cons in Hnd as [Hnin Hnd].
    destruct (ss_create_first t bs cache Ht Hbs Hct) as (s & c1 & E1 & Hi1 & Hr1 & Hts1).
    assert (Hoth : forall t', Table.cache_coherent t' cache -> Table.id t' <> Table.id t ->
                              Table.cache_coherent t' c1).
    { intros t' ??. pose proof (create_first_other t t' cache) as Hx. rewrite E1 in Hx. by apply Hx. }
    assert (Hc1 : Forall (fun t' => Table.cache_coherent t' c1) ts).
    { apply Forall_forall. intros t' Ht'. rewrite Forall_forall in Hc. apply Hoth; [by apply Hc|].
      intros E. apply Hnin. rewrite <- E. by apply list_elem_of_fmap_2. }
    destruct (IH c1 Hne Hnd Hc1) as (ss & c2 & E2 & Hc2 & Hkeep & Htab & Hss).
    exists (s :: ss), c2. split_and!.
    + cbn. cbv [mbind M_bind mret M_ret]. rewrite E1. cbv [mbind M_bind] in E2. by rewrite E2.
    + constructor; [|done]. apply Hkeep; [done|]. destruct Hi1 as (? & ? & Hc1' & _). by rewrite <- Hts1.
    + intros t0 Hn0 Hc0. rewrite fmap_cons, not_elem_of_cons in Hn0.
      apply Hkeep; [tauto|]. apply Hoth; [done|tauto].
    + by rewrite fmap_cons, Htab, Hts1.
    + constructor; [|done]. split; [|done]. intros c Hc'. by apply (ss_inv_recache s c1).
Qed.

Lemma Forall2_Forall_fst {A B} (P : A -> B -> Prop) (Q : A -> Prop) l k :
  Forall2 P l k -> (forall x y, P x y -> Q x) -> Forall Q l.
Proof. induction 1; constructor; eauto. Qed.

Lemma fmap_Forall2 {A B C} (f : A -> C) (g : B -> C) l k :
  Forall2 (fun x y => f x = g y) l k -> f <$> l = g <$> k.
Proof. induction 1; cbn; congruence. Qed.

(** The table iterators [open_all] returns, with the cache it leaves,
    keep their invariants, and merging them shows the union of the
    tables' entries, the first table winning a key. *)
Lemma tables_merge_ok (ts : list Table.SsTable) (bss : list (list (list entry)))
    (cache : Table.BlockCache) :
  Forall2 table_of ts bss -> Forall (fun bs => bs <> []) bss ->
  NoDup (Table.id <$> ts) -> Forall (fun t => Table.cache_coherent t cache) ts ->
  exists ss cache' (m : MergeIterator.MergeIterator SsIter), open_all ts cache = (Ok ss, cache') /\
    MergeIterator.create (with_cache ss cache') = Some m /\
    iter_inv m /\ remaining m = Union.kunion (mjoin (M:=list) <$> bss).
Proof.
  intros Hts Hne Hnd Hc.
  destruct (open_all_ok ts bss cache Hts Hne Hnd Hc) as (ss & c2 & E & Hc2 & _ & Htab & Hss).
  assert (Hinv : Forall iter_inv (with_cache ss c2)).
  { rewrite <- Htab in Hc2. apply Forall_fmap in Hc2. unfold with_cache. apply Forall_fmap.
    pose proof (Forall2_Forall_fst _ _ _ _ Hss (fun s bs H => proj1 H)) as Hi.
    eapply Forall_impl; [apply Forall_and; exact (conj Hi Hc2)|]. intros s [Hs Hcs]. by apply Hs. }
  destruct (MergeIterator.merge_create_ok _ Hinv) as (m & Hcr & Hm & Hr).
  exists ss, c2, m. split_and!; [done..|].
  change (remaining m) with (MergeIterator.merge_remaining m). rewrite Hr. f_equal.
  unfold with_cache. rewrite <- list_fmap_compose. apply fmap_Forall2.
  eapply Forall2_impl; [exact Hss|]. intros s bs [_ Hsr]. exact Hsr.
Qed.

(** ** What the read path promises *)

(** C32: over SSTs with distinct ids, made of non-empty sorted blocks,
    and a shared block cache that agrees with every table's file,
    opening one table iterator per SST in order succeeds and the merge of
    those iterators yields the union of the tables' entries: each key
    once, ascending, with the entry of the first (newest) table that
    holds it. *)
Theorem read_tables_union (ts : list Table.SsTable) (bss : list (list (list entry)))
    (cache : Table.BlockCache) :
  Forall2 table_of ts bss -> Forall (fun bs => bs <> []) bss ->
  NoDup (Table.id <$> ts) -> Forall (fun t => Table.cache_coherent t cache) ts ->
  exists ss cache' (m : MergeIterator.MergeIterator SsIter), open_all ts cache = (Ok ss, cache') /\
    MergeIterator.create (with_cache ss cache') = Some m /\
    collect (S (length (Union.kunion (mjoin (M:=list) <$> bss)))) m =
      Ok (Union.kunion (mjoin (M:=list) <$> bss)).
Proof.
  intros Hts Hne Hnd Hc.
  destruct (tables_merge_ok ts bss cache Hts Hne Hnd Hc) as (ss & c & m & E & Hcr & Hm & Hr).
  exists ss, c, m. split_and!; [done|done|]. rewrite <- Hr.
  exact (collect_remaining (I := MergeIterator.MergeIterator SsIter) _ m Hm (Nat.lt_succ_diag_r _)).
Qed.

Lemma read_tables_union_witness :
  Forall2 table_of [(match TableBuilder.add_all (TableBuilder.new 20) [([Byte.x01], [Byte.x0a]); ([Byte.x03], [Byte.x0c])] with Some tb => match TableBuilder.build tb 1 true with Ok t => t | Err _ => Table.mkTable (Table.mkFile [] 0) [] 0 0 false end | None => Table.mkTable (Table.mkFile [] 0) [] 0 0 false end); (match TableBuilder.add_all (TableBuilder.new 20) [([Byte.x01], [Byte.x0b]); ([Byte.x02], [Byte.x0d])] with Some tb => match TableBuilder.build tb 2 true with Ok t => t | Err _ => Table.mkTable (Table.mkFile [] 0) [] 0 0 false end | None => Table.mkTable (Table.mkFile [] 0) [] 0 0 false end)] [[[([Byte.x01], [Byte.x0a]); ([Byte.x03], [Byte.x0c])]]; [[([Byte.x01], [Byte.x0b]); ([Byte.x02], [Byte.x0d])]]] /\ Forall (fun bs => bs <> []) [[[([Byte.x01], [Byte.x0a]); ([Byte.x03], [Byte.x0c])]]; [[([Byte.x01], [Byte.x0b]); ([Byte.x02], [Byte.x0d])]]] /\
  NoDup (Table.id <$> [(match TableBuilder.add_all (TableBuilder.new 20) [([Byte.x01], [Byte.x0a]); ([Byte.x03], [Byte.x0c])] with Some tb => match TableBuilder.build tb 1 true with Ok t => t | Err _ => Table.mkTable (Table.mkFile [] 0) [] 0 0 false end | None => Table.mkTable (Table.mkFile [] 0) [] 0 0 false end); (match TableBuilder.add_all (TableBuilder.new 20) [([Byte.x01], [Byte.x0b]); ([Byte.x02], [Byte.x0d])] with Some tb => match TableBuilder.build tb 2 true with Ok t => t | Err _ => Table.mkTable (Table.mkFile [] 0) [] 0 0 false end | None => Table.mkTable (Table.mkFile [] 0) [] 0 0 false end)]) /\ Forall (fun t => Table.cache_coherent t ∅) [(match TableBuilder.add_all (TableBuilder.new 20) [([Byte.x01], [Byte.x0a]); ([Byte.x03], [Byte.x0c])] with Some tb => match TableBuilder.build tb 1 true with Ok t => t | Err _ => Table.mkTable (Table.mkFile [] 0) [] 0 0 false end | None => Table.mkTable (Table.mkFile [] 0) [] 0 0 false end); (match TableBuilder.add_all (TableBuilder.new 20) [([Byte.x01], [Byte.x0b]); ([Byte.x02], [Byte.x0d])] with Some tb => match TableBuilder.build tb 2 true with Ok t => t | Err _ => Table.mkTable (Table.mkFile [] 0) [] 0 0 false end | None => Table.mkTable (Table.mkFile [] 0) [] 0 0 false end)] /\
  exists ss cache' (m : MergeIterator.MergeIterator SsIter), open_all [(match TableBuilder.add_all (TableBuilder.new 20) [([Byte.x01], [Byte.x0a]); ([Byte.x03], [Byte.x0c])] with Some tb => match TableBuilder.build tb 1 true with Ok t => t | Err _ => Table.mkTable (Table.mkFile [] 0) [] 0 0 false end | None => Table.mkTable (Table.mkFile [] 0) [] 0 0 false end); (match TableBuilder.add_all (TableBuilder.new 20) [([Byte.x01], [Byte.x0b]); ([Byte.x02], [Byte.x0d])] with Some tb => match TableBuilder.build tb 2 true with Ok t => t | Err _ => Table.mkTable (Table.mkFile [] 0) [] 0 0 false end | None => Table.mkTable (Table.mkFile [] 0) [] 0 0 false end)] ∅ = (Ok ss, cache') /\
    MergeIterator.create (with_cache ss cache') = Some m /\
    collect (S (length (Union.kunion (mjoin (M:=list) <$> [[[([Byte.x01], [Byte.x0a]); ([Byte.x03], [Byte.x0c])]]; [[([Byte.x01], [Byte.x0b]); ([Byte.x02], [Byte.x0d])]]])))) m =
      Ok (Union.kunion (mjoin (M:=list) <$> [[[([Byte.x01], [Byte.x0a]); ([Byte.x03], [Byte.x0c])]]; [[([Byte.x01], [Byte.x0b]); ([Byte.x02], [Byte.x0d])]]])).
Proof.
  assert (Hts : Forall2 table_of [(match TableBuilder.add_all (TableBuilder.new 20) [([Byte.x01], [Byte.x0a]); ([Byte.x03], [Byte.x0c])] with Some tb => match TableBuilder.build tb 1 true with Ok t => t | Err _ => Table.mkTable (Table.mkFile [] 0) [] 0 0 false end | None => Table.mkTable (Table.mkFile [] 0) [] 0 0 false end); (match TableBuilder.add_all (TableBuilder.new 20) [([Byte.x01], [Byte.x0b]); ([Byte.x02], [Byte.x0d])] with Some tb => match TableBuilder.build tb 2 true with Ok t => t | Err _ => Table.mkTable (Table.mkFile [] 0) [] 0 0 false end | None => Table.mkTable (Table.mkFile [] 0) [] 0 0 false end)] [[[([Byte.x01], [Byte.x0a]); ([Byte.x03], [Byte.x0c])]]; [[([Byte.x01], [Byte.x0b]); ([Byte.x02], [Byte.x0d])]]]) by decide_by_eval.
  assert (Hne : Forall (fun bs => bs <> []) [[[([Byte.x01], [Byte.x0a]); ([Byte.x03], [Byte.x0c])]]; [[([Byte.x01], [Byte.x0b]); ([Byte.x02], [Byte.x0d])]]]) by decide_by_eval.
  assert (Hnd : NoDup (Table.id <$> [(match TableBuilder.add_all (TableBuilder.new 20) [([Byte.x01], [Byte.x0a]); ([Byte.x03], [Byte.x0c])] with Some tb => match TableBuilder.build tb 1 true with Ok t => t | Err _ => Table.mkTable (Table.mkFile [] 0) [] 0 0 false end | None => Table.mkTable (Table.mkFile [] 0) [] 0 0 false end); (match TableBuilder.add_all (TableBuilder.new 20) [([Byte.x01], [Byte.x0b]); ([Byte.x02], [Byte.x0d])] with Some tb => match TableBuilder.build tb 2 true with Ok t => t | Err _ => Table.mkTable (Table.mkFile [] 0) [] 0 0 false end | None => Table.mkTable (Table.mkFile [] 0) [] 0 0 false end)])) by decide_by_eval.
  assert (Hc : Forall (fun t => Table.cache_coherent t ∅) [(match TableBuilder.add_all (TableBuilder.new 20) [([Byte.x01], [Byte.x0a]); ([Byte.x03], [Byte.x0c])] with Some tb => match TableBuilder.build tb 1 true with Ok t => t | Err _ => Table.mkTable (Table.mkFile [] 0) [] 0 0 false end | None => Table.mkTable (Table.mkFile [] 0) [] 0 0 false end); (match TableBuilder.add_all (TableBuilder.new 20) [([Byte.x01], [Byte.x0b]); ([Byte.x02], [Byte.x0d])] with Some tb => match TableBuilder.build tb 2 true with Ok t => t | Err _ => Table.mkTable (Table.mkFile [] 0) [] 0 0 false end | None => Table.mkTable (Table.mkFile [] 0) [] 0 0 false end)])
    by (apply Forall_forall; intros; apply coherent_empty).
  split; [exact Hts|]. split; [exact Hne|]. split; [exact Hnd|]. split; [exact Hc|].
  exact (read_tables_union _ _ ∅ Hts Hne Hnd Hc).
Defined.

(** The read path's iterator, built as the engine builds it, keeps the
    two-merge's invariant and shows the memtables' union over the tables'
    union. *)
Lemma read_path_ok {A : Type} `{IterSpec A} `{!IterReliable A} (mems : list A)
    (ts : list Table.SsTable) (bss : list (list (list entry))) (cache : Table.BlockCache) :
  Forall iter_inv mems ->
  Forall2 table_of ts bss -> Forall (fun bs => bs <> []) bss ->
  NoDup (Table.id <$> ts) -> Forall (fun t => Table.cache_coherent t cache) ts ->
  exists ss cache' (ma : MergeIterator.MergeIterator A) (mb : MergeIterator.MergeIterator SsIter) it,
    open_all ts cache = (Ok ss, cache') /\
    MergeIterator.create mems = Some ma /\
    MergeIterator.create (with_cache ss cache') = Some mb /\
    TwoMergeIterator.create ma mb = Ok it /\ iter_inv it /\
    remaining it = Union.lunion (Union.kunion (remaining <$> mems))
                                (Union.kunion (mjoin (M:=list) <$> bss)).
Proof.
  intros Hmems Hts Hne Hnd Hc.
  destruct (MergeIterator.merge_create_ok mems Hmems) as (ma & Ea & Ha & Hra).
  destruct (tables_merge_ok ts bss cache Hts Hne Hnd Hc) as (ss & c & mb & E & Eb & Hb & Hrb).
  assert (Ha' : @iter_inv (MergeIterator.MergeIterator A) _ _ ma) by exact Ha.
  destruct (TwoMergeIterator.two_create_ok ma mb Ha' Hb) as (it & Et & Hi & Hr).
  exists ss, c, ma, mb, it. split_and!; [done..|].
  change (remaining it) with (TwoMergeIterator.two_remaining it). rewrite Hr.
  change (remaining ma) with (MergeIterator.merge_remaining ma). by rewrite Hra, Hrb.
Qed.

(** C33: the engine's read path, a [TwoMergeIterator] of the merge of
    the memtables' iterators (any sources keeping [IterSpec] that never
    fail) and the merge of the table iterators, yields the union of the
    memtables over the union of the tables: each key once, ascending,
    the memtables winning a key they share with a table. *)
Theorem read_path_union {A : Type} `{IterSpec A} `{!IterReliable A} (mems : list A)
    (ts : list Table.SsTable) (bss : list (list (list entry))) (cache : Table.BlockCache) :
  Forall iter_inv mems ->
  Forall2 table_of ts bss -> Forall (fun bs => bs <> []) bss ->
  NoDup (Table.id <$> ts) -> Forall (fun t => Table.cache_coherent t cache) ts ->
  exists ss cache' (ma : MergeIterator.MergeIterator A) (mb : MergeIterator.MergeIterator SsIter) it,
    open_all ts cache = (Ok ss, cache') /\
    MergeIterator.create mems = Some ma /\
    MergeIterator.create (with_cache ss cache') = Some mb /\
    TwoMergeIterator.create ma mb = Ok it /\
    collect (S (length (Union.lunion (Union.kunion (remaining <$> mems))
                                     (Union.kunion (mjoin (M:=list) <$> bss))))) it =
      Ok (Union.lunion (Union.kunion (remaining <$> mems)) (Union.kunion (mjoin (M:=list) <$> bss))).
Proof.
  intros Hmems Hts Hne Hnd Hc.
  destruct (read_path_ok mems ts bss cache Hmems Hts Hne Hnd Hc)
    as (ss & c & ma & mb & it & E & Ea & Eb & Et & Hi & HL).
  exists ss, c, ma, mb, it. split_and!; [done..|]. rewrite <- HL.
  exact (collect_remaining (I := TwoMergeIterator.TwoMergeIterator (MergeIterator.MergeIterator A)
           (MergeIterator.MergeIterator SsIter)) _ it Hi (Nat.lt_succ_diag_r _)).
Qed.

Lemma read_path_union_witness :
  Forall iter_inv [vec_of [([Byte.x02], [Byte.x0e])]] /\
  Forall2 table_of [(match TableBuilder.add_all (TableBuilder.new 20) [([Byte.x01], [Byte.x0a]); ([Byte.x03], [Byte.x0c])] with Some tb => match TableBuilder.build tb 1 true with Ok t => t | Err _ => Table.mkTable (Table.mkFile [] 0) [] 0 0 false end | None => Table.mkTable (Table.mkFile [] 0) [] 0 0 false end); (match TableBuilder.add_all (TableBuilder.new 20) [([Byte.x01], [Byte.x0b]); ([Byte.x02], [Byte.x0d])] with Some tb => match TableBuilder.build tb 2 true with Ok t => t | Err _ => Table.mkTable (Table.mkFile [] 0) [] 0 0 false end | None => Table.mkTable (Table.mkFile [] 0) [] 0 0 false end)] [[[([Byte.x01], [Byte.x0a]); ([Byte.x03], [Byte.x0c])]]; [[([Byte.x01], [Byte.x0b]); ([Byte.x02], [Byte.x0d])]]] /\ Forall (fun bs => bs <> []) [[[([Byte.x01], [Byte.x0a]); ([Byte.x03], [Byte.x0c])]]; [[([Byte.x01], [Byte.x0b]); ([Byte.x02], [Byte.x0d])]]] /\
  NoDup (Table.id <$> [(match TableBuilder.add_all (TableBuilder.new 20) [([Byte.x01], [Byte.x0a]); ([Byte.x03], [Byte.x0c])] with Some tb => match TableBuilder.build tb 1 true with Ok t => t | Err _ => Table.mkTable (Table.mkFile [] 0) [] 0 0 false end | None => Table.mkTable (Table.mkFile [] 0) [] 0 0 false end); (match TableBuilder.add_all (TableBuilder.new 20) [([Byte.x01], [Byte.x0b]); ([Byte.x02], [Byte.x0d])] with Some tb => match TableBuilder.build tb 2 true with Ok t => t | Err _ => Table.mkTable (Table.mkFile [] 0) [] 0 0 false end | None => Table.mkTable (Table.mkFile [] 0) [] 0 0 false end)]) /\ Forall (fun t => Table.cache_coherent t ∅) [(match TableBuilder.add_all (TableBuilder.new 20) [([Byte.x01], [Byte.x0a]); ([Byte.x03], [Byte.x0c])] with Some tb => match TableBuilder.build tb 1 true with Ok t => t | Err _ => Table.mkTable (Table.mkFile [] 0) [] 0 0 false end | None => Table.mkTable (Table.mkFile [] 0) [] 0 0 false end); (match TableBuilder.add_all (TableBuilder.new 20) [([Byte.x01], [Byte.x0b]); ([Byte.x02], [Byte.x0d])] with Some tb => match TableBuilder.build tb 2 true with Ok t => t | Err _ => Table.mkTable (Table.mkFile [] 0) [] 0 0 false end | None => Table.mkTable (Table.mkFile [] 0) [] 0 0 false end)] /\
  exists ss cache' (ma : MergeIterator.MergeIterator VecIterator) (mb : MergeIterator.MergeIterator SsIter) it,
    open_all [(match TableBuilder.add_all (TableBuilder.new 20) [([Byte.x01], [Byte.x0a]); ([Byte.x03], [Byte.x0c])] with Some tb => match TableBuilder.build tb 1 true with Ok t => t | Err _ => Table.mkTable (Table.mkFile [] 0) [] 0 0 false end | None => Table.mkTable (Table.mkFile [] 0) [] 0 0 false end); (match TableBuilder.add_all (TableBuilder.new 20) [([Byte.x01], [Byte.x0b]); ([Byte.x02], [Byte.x0d])] with Some tb => match TableBuilder.build tb 2 true with Ok t => t | Err _ => Table.mkTable (Table.mkFile [] 0) [] 0 0 false end | None => Table.mkTable (Table.mkFile [] 0) [] 0 0 false end)] ∅ = (Ok ss, cache') /\
    MergeIterator.create [vec_of [([Byte.x02], [Byte.x0e])]] = Some ma /\
    MergeIterator.create (with_cache ss cache') = Some mb /\
    TwoMergeIterator.create ma mb = Ok it /\
    collect (S (length (Union.lunion (Union.kunion (remaining <$> [vec_of [([Byte.x02], [Byte.x0e])]]))
                                     (Union.kunion (mjoin (M:=list) <$> [[[([Byte.x01], [Byte.x0a]); ([Byte.x03], [Byte.x0c])]]; [[([Byte.x01], [Byte.x0b]); ([Byte.x02], [Byte.x0d])]]]))))) it =
      Ok (Union.lunion (Union.kunion (remaining <$> [vec_of [([Byte.x02], [Byte.x0e])]])) (Union.kunion (mjoin (M:=list) <$> [[[([Byte.x01], [Byte.x0a]); ([Byte.x03], [Byte.x0c])]]; [[([Byte.x01], [Byte.x0b]); ([Byte.x02], [Byte.x0d])]]]))).
Proof.
  assert (Hm : Forall iter_inv [vec_of [([Byte.x02], [Byte.x0e])]])
    by (constructor; [split; [decide_by_eval|reflexivity]|constructor]).
  assert (Hts : Forall2 table_of [(match TableBuilder.add_all (TableBuilder.new 20) [([Byte.x01], [Byte.x0a]); ([Byte.x03], [Byte.x0c])] with Some tb => match TableBuilder.build tb 1 true with Ok t => t | Err _ => Table.mkTable (Table.mkFile [] 0) [] 0 0 false end | None => Table.mkTable (Table.mkFile [] 0) [] 0 0 false end); (match TableBuilder.add_all (TableBuilder.new 20) [([Byte.x01], [Byte.x0b]); ([Byte.x02], [Byte.x0d])] with Some tb => match TableBuilder.build tb 2 true with Ok t => t | Err _ => Table.mkTable (Table.mkFile [] 0) [] 0 0 false end | None => Table.mkTable (Table.mkFile [] 0) [] 0 0 false end)] [[[([Byte.x01], [Byte.x0a]); ([Byte.x03], [Byte.x0c])]]; [[([Byte.x01], [Byte.x0b]); ([Byte.x02], [Byte.x0d])]]]) by decide_by_eval.
  assert (Hne : Forall (fun bs => bs <> []) [[[([Byte.x01], [Byte.x0a]); ([Byte.x03], [Byte.x0c])]]; [[([Byte.x01], [Byte.x0b]); ([Byte.x02], [Byte.x0d])]]]) by decide_by_eval.
  assert (Hnd : NoDup (Table.id <$> [(match TableBuilder.add_all (TableBuilder.new 20) [([Byte.x01], [Byte.x0a]); ([Byte.x03], [Byte.x0c])] with Some tb => match TableBuilder.build tb 1 true with Ok t => t | Err _ => Table.mkTable (Table.mkFile [] 0) [] 0 0 false end | None => Table.mkTable (Table.mkFile [] 0) [] 0 0 false end); (match TableBuilder.add_all (TableBuilder.new 20) [([Byte.x01], [Byte.x0b]); ([Byte.x02], [Byte.x0d])] with Some tb => match TableBuilder.build tb 2 true with Ok t => t | Err _ => Table.mkTable (Table.mkFile [] 0) [] 0 0 false end | None => Table.mkTable (Table.mkFile [] 0) [] 0 0 false end)])) by decide_by_eval.
  assert (Hc : Forall (fun t => Table.cache_coherent t ∅) [(match TableBuilder.add_all (TableBuilder.new 20) [([Byte.x01], [Byte.x0a]); ([Byte.x03], [Byte.x0c])] with Some tb => match TableBuilder.build tb 1 true with Ok t => t | Err _ => Table.mkTable (Table.mkFile [] 0) [] 0 0 false end | None => Table.mkTable (Table.mkFile [] 0) [] 0 0 false end); (match TableBuilder.add_all (TableBuilder.new 20) [([Byte.x01], [Byte.x0b]); ([Byte.x02], [Byte.x0d])] with Some tb => match TableBuilder.build tb 2 true with Ok t => t | Err _ => Table.mkTable (Table.mkFile [] 0) [] 0 0 false end | None => Table.mkTable (Table.mkFile [] 0) [] 0 0 false end)])
    by (apply Forall_forall; intros; apply coherent_empty).
  split; [exact Hm|]. split; [exact Hts|]. split; [exact Hne|]. split; [exact Hnd|]. split; [exact Hc|].
  exact (read_path_union _ _ _ ∅ Hm Hts Hne Hnd Hc).
Defined.

End ReadPath.
